(** * OpFlashAlg: the optical flash finder of larana, embedded in Rocq

    This development follows [OpticalDetector/OpFlashAlg.cxx] function by
    function.  Conventions of the embedding:

    - a C++ [double] or [float] is a real number ([R]): arithmetic is exact,
      there is no rounding and no overflow.  The one place where the source
      routinely divides by zero, [GetLikelihoodLateLight], is modelled with
      IEEE infinities and NaN (module [Dbl]).  The statements over the
      reals rest on comparisons, on indices and on the expressions of the
      source taken as they stand; where the rounding of the doubles decides
      the outcome, the function is embedded again on binary64 (module
      [B64]) and the statement is made there;
    - a [std::vector] is a [list]; [v.at(i)] is [at_ v i], which throws
      [out_of_range] exactly when the C++ does; stores go through stdpp's
      list insert after the bounds check;
    - a function that can throw or run into undefined behaviour returns a
      [result]; reference parameters that the function updates are returned
      as the components of its result;
    - the two [while] loops of [RefineHitsInFlash] take fuel, and exhausting
      it is the distinct outcome [out_of_fuel];
    - the external services (geometry, clocks, pulse reconstruction, channel
      map) are records of the functions and values the source asks of them. *)

From Stdlib Require Import Floats Reals Lra Lia ZArith.
From stdpp Require Import base list gmap sorting.

Set Default Proof Using "Type".

(** ** Outcomes of a call *)

Inductive exception : Set :=
| out_of_range          (* std::out_of_range thrown by [at] *)
| undefined_behaviour   (* the C++ standard gives the operation no meaning *)
| out_of_fuel.          (* the model ran out of loop fuel *)

Inductive result (A : Type) : Type :=
| Ok (a : A)
| Throw (e : exception).
Arguments Ok {A} a.
Arguments Throw {A} e.

Definition bind {A B : Type} (m : result A) (k : A -> result B) : result B :=
  match m with
  | Ok a => k a
  | Throw e => Throw e
  end.

Notation "'let*' x ':=' m 'in' k" := (bind m (fun x => k))
  (at level 10, x name, m at level 100, k at level 200, only parsing).
Notation "'let*' ' p ':=' m 'in' k" := (bind m (fun x => let 'p := x in k))
  (at level 10, p pattern, m at level 100, k at level 200, only parsing).

(** A range-based [for] whose body can throw. *)
Fixpoint foldM {A S : Type} (body : S -> A -> result S) (l : list A) (s : S)
  : result S :=
  match l with
  | [] => Ok s
  | a :: l' => let* s' := body s a in foldM body l' s'
  end.

(** [v.at(i)]. *)
Definition at_ {A : Type} (v : list A) (i : nat) : result A :=
  match v !! i with
  | Some a => Ok a
  | None => Throw out_of_range
  end.

(** [v.at(i - off)] for an [int i] and a [size_t off]: the subtraction is
    unsigned, so [i < off] wraps to an index beyond any vector. *)
Definition at_off {A : Type} (v : list A) (i off : nat) : result A :=
  if (i <? off)%nat then Throw out_of_range else at_ v (i - off).

(** ** Comparisons of doubles as booleans *)

Definition Rlt_b (x y : R) : bool := if Rlt_dec x y then true else false.
Definition Rle_b (x y : R) : bool := if Rle_dec x y then true else false.

(** ** Data *)

(** Modelled from the spec: [recob::OpHit] (RecoBase/OpHit.h is not part of
    the sources); the fields are the spec's Hit record, in the order of the
    constructor call in [ConstructHit]. *)
Module OpHit.
Record t : Type := mk {
  OpChannel   : Z;
  PeakTime    : R;
  PeakTimeAbs : R;
  Frame       : Z;
  Width       : R;
  Area        : R;
  Amplitude   : R;
  PE          : R;
  FastToTotal : R
}.
End OpHit.

(** Modelled from the spec: [pmtana::pulse_param], the pulse descriptor of
    the pulse-reconstruction service (its header is not part of the
    sources), with the fields the source reads: peak amplitude, area,
    start, peak and end tick. *)
Record pulse_param : Type := mkPulse {
  peak    : R;
  area    : R;
  t_start : R;
  t_max   : R;
  t_end   : R
}.

(** Modelled from the spec: the time service ([util::TimeService] and its
    optical clock, whose headers are not part of the sources), as what the
    source asks of it: ticks per frame, tick period, the conversions of
    (tick, time slice, frame) to absolute and trigger-relative time, and
    the frame of the beam-gate time. *)
Record TimeService : Type := mkTimeService {
  FrameTicks           : Z;      (* an unsigned int *)
  TickPeriod           : R;
  OpticalTick2Time     : R -> Z -> Z -> R;
  OpticalTick2BeamTime : R -> Z -> Z -> R;
  BeamGateFrame        : Z      (* pmt_clock.Frame(ts.BeamGateTime()) *)
}.

(** One accumulator: the three vectors that [FillAccumulator] updates
    together ([Binned], [Contributors], [FlashesInAccumulator]). *)
Record Accumulator : Type := mkAccumulator {
  Binned               : list R;
  Contributors         : list (list nat);
  FlashesInAccumulator : list nat
}.

(** ** Hit construction and binning *)

(** [ConstructHit]: a pulse below the amplitude threshold leaves the hit
    vector as it is. *)
Definition ConstructHit (HitThreshold : R) (Channel : Z) (TimeSlice : Z)
    (Frame : Z) (pulse : pulse_param) (ts : TimeService) (SPESize : R)
    (HitVector : list OpHit.t) : list OpHit.t :=
  if Rlt_b (peak pulse) HitThreshold then HitVector
  else
    let AbsTime := OpticalTick2Time ts (t_max pulse) TimeSlice Frame in
    let RelTime := OpticalTick2BeamTime ts (t_max pulse) TimeSlice Frame in
    let PE := (peak pulse / SPESize)%R in
    let width := ((t_end pulse - t_start pulse) * TickPeriod ts)%R in
    HitVector ++ [OpHit.mk Channel RelTime AbsTime Frame width (area pulse)
                          (peak pulse) PE 0%R].

(** [GetAccumIndex]: the quotient is a double and the return type is
    [unsigned int]; the conversion truncates, and has no meaning when the
    truncated value is negative or does not fit 32 bits. *)
Definition GetAccumIndex (TMax : R) (TimeSlice : Z) (BinWidth : Z)
    (BinOffset : R) : result nat :=
  if (BinWidth =? 0)%Z then Throw undefined_behaviour
  else
    let q := (((TMax + IZR TimeSlice) + BinOffset) / IZR BinWidth)%R in
    if Rle_b q (-1) then Throw undefined_behaviour
    else if Rle_b 4294967296 q then Throw undefined_behaviour
    else Ok (Z.to_nat (Int_part q)).

(** [FillAccumulator]. *)
Definition FillAccumulator (AccumIndex HitIndex : nat) (PE FlashThreshold : R)
    (acc : Accumulator) : result Accumulator :=
  let* c := at_ (Contributors acc) AccumIndex in
  let Contributors' := <[AccumIndex := c ++ [HitIndex]]> (Contributors acc) in
  let* b := at_ (Binned acc) AccumIndex in
  let Binned' := <[AccumIndex := (b + PE)%R]> (Binned acc) in
  let* sum := at_ Binned' AccumIndex in
  if Rle_b FlashThreshold sum && Rlt_b (sum - PE) FlashThreshold
  then Ok (mkAccumulator Binned' Contributors'
                         (FlashesInAccumulator acc ++ [AccumIndex]))
  else Ok (mkAccumulator Binned' Contributors' (FlashesInAccumulator acc)).

(** ** The size-ordered maps

    [std::map<Key, V, Compare>] as an association list kept in the order of
    [Compare]; [upsert before k f d m] is [f] applied to [m[k]], where
    [m[k]] is created as [d] when the key is new. *)
Fixpoint upsert {K V : Type} (before : K -> K -> bool) (k : K) (f : V -> V)
    (d : V) (m : list (K * V)) : list (K * V) :=
  match m with
  | [] => [(k, f d)]
  | (k', v) :: m' =>
      if before k k' then (k, f d) :: m
      else if before k' k then (k', v) :: upsert before k f d m'
      else (k', f v) :: m'
  end.

(** [std::greater<double>]. *)
Definition greater (x y : R) : bool := Rlt_b y x.

(** [FillFlashesBySizeMap]:
    [FlashesBySize[BinnedPE.at(flash)][Accumulator].push_back(flash)]. *)
Definition FillFlashesBySizeMap (FlashesInAccumulator : list nat)
    (BinnedPE : list R) (Accumulator : Z)
    (FlashesBySize : list (R * list (Z * list nat)))
  : result (list (R * list (Z * list nat))) :=
  foldM (fun FlashesBySize flash =>
           let* size := at_ BinnedPE flash in
           Ok (upsert greater size
                 (upsert Z.ltb Accumulator (fun bins => bins ++ [flash]) [])
                 [] FlashesBySize))
        FlashesInAccumulator FlashesBySize.

(** [FillHitsThisFlash]. *)
Definition FillHitsThisFlash (Contributors : list (list nat)) (Bin : nat)
    (NHits_prev : nat) (HitClaimedByFlash : list Z) (HitsThisFlash : list nat)
  : result (list nat) :=
  let* hits := at_ Contributors Bin in
  foldM (fun HitsThisFlash HitIndex =>
           let* claimed := at_off HitClaimedByFlash HitIndex NHits_prev in
           if (claimed =? -1)%Z then Ok (HitsThisFlash ++ [HitIndex])
           else Ok HitsThisFlash)
        hits HitsThisFlash.

(** The [PE] summation loop at the head of [ClaimHits]. *)
Definition SumPE (HitVector : list OpHit.t) (hits : list nat) : result R :=
  foldM (fun PE_ Hit => let* h := at_ HitVector Hit in Ok (PE_ + OpHit.PE h)%R)
        hits 0%R.

(** [ClaimHits]; the result is the pair of [HitsPerFlash] and
    [HitClaimedByFlash]. *)
Definition ClaimHits (HitVector : list OpHit.t) (HitsThisFlash : list nat)
    (FlashThreshold : R) (HitsPerFlash : list (list nat)) (NHits_prev : nat)
    (HitClaimedByFlash : list Z) : result (list (list nat) * list Z) :=
  let* PE_ := SumPE HitVector HitsThisFlash in
  if Rlt_b PE_ FlashThreshold then Ok (HitsPerFlash, HitClaimedByFlash)
  else
    let HitsPerFlash' := HitsPerFlash ++ [HitsThisFlash] in
    let* HitClaimedByFlash' :=
      foldM (fun HitClaimedByFlash Hit =>
               let* claimed := at_off HitClaimedByFlash Hit NHits_prev in
               if (claimed =? -1)%Z
               then Ok (<[(Hit - NHits_prev)%nat :=
                            (Z.of_nat (length HitsPerFlash') - 1)%Z]>
                          HitClaimedByFlash)
               else Ok HitClaimedByFlash)
            HitsThisFlash HitClaimedByFlash in
    Ok (HitsPerFlash', HitClaimedByFlash').

(** [AssignHitsToFlash].  [NHits] is what [ProcessFrame] passes, the number
    of hits of the frame, so [HitVector.size() - NHits] does not wrap. *)
Definition AssignHitsToFlash (FlashesInAccumulator1 FlashesInAccumulator2
    : list nat) (Binned1 Binned2 : list R)
    (Contributors1 Contributors2 : list (list nat)) (NHits : nat)
    (HitVector : list OpHit.t) (HitsPerFlash : list (list nat))
    (FlashThreshold : R) : result (list (list nat)) :=
  let NHits_prev := (length HitVector - NHits)%nat in
  let* FlashesBySize :=
    FillFlashesBySizeMap FlashesInAccumulator1 Binned1 1 [] in
  let* FlashesBySize :=
    FillFlashesBySizeMap FlashesInAccumulator2 Binned2 2 FlashesBySize in
  let HitClaimedByFlash := replicate NHits (-1)%Z in
  let* '(HitsPerFlash, _) :=
    foldM (fun st itFlash =>
      foldM (fun st itAcc =>
        let Accumulator : Z := itAcc.1 in
        foldM (fun '(HitsPerFlash, HitClaimedByFlash) Bin =>
                 let* HitsThisFlash :=
                   if (Accumulator =? 1)%Z then
                     FillHitsThisFlash Contributors1 Bin NHits_prev
                                       HitClaimedByFlash []
                   else if (Accumulator =? 2)%Z then
                     FillHitsThisFlash Contributors2 Bin NHits_prev
                                       HitClaimedByFlash []
                   else Ok [] in
                 ClaimHits HitVector HitsThisFlash FlashThreshold HitsPerFlash
                           NHits_prev HitClaimedByFlash)
              itAcc.2 st)
        itFlash.2 st)
      FlashesBySize (HitsPerFlash, HitClaimedByFlash) in
  Ok HitsPerFlash.

(** ** The flash refiner *)

(** The variables that [FindSeedHit] and [AddHitToFlash] update through
    their reference parameters. *)
Record RefineState : Type := mkRefineState {
  HitsUsed             : list bool;
  HitsThisRefinedFlash : list nat;
  PEAccumulated        : R;
  FlashMaxTime         : R;
  FlashMinTime         : R
}.

(** The inner loop of [FindSeedHit] over one size class; [Some] is the
    [return] taken at the first unused hit. *)
Fixpoint FindSeedHit_class (ids : list nat) (HitVector : list OpHit.t)
    (st : RefineState) : result (option RefineState) :=
  match ids with
  | [] => Ok None
  | HitID :: ids' =>
      let* used := at_ (HitsUsed st) HitID in
      if used : bool then FindSeedHit_class ids' HitVector st
      else
        let* h := at_ HitVector HitID in
        Ok (Some (mkRefineState (<[HitID := true]> (HitsUsed st))
                                [HitID]
                                (OpHit.PE h)
                                (OpHit.PeakTime h + 0.5 * OpHit.Width h)%R
                                (OpHit.PeakTime h - 0.5 * OpHit.Width h)%R))
  end.

(** [FindSeedHit]. *)
Fixpoint FindSeedHit (HitsBySize : list (R * list nat))
    (HitVector : list OpHit.t) (st : RefineState) : result RefineState :=
  match HitsBySize with
  | [] => Ok st
  | itHit :: rest =>
      let* found := FindSeedHit_class itHit.2 HitVector st in
      match found with
      | Some st' => Ok st'
      | None => FindSeedHit rest HitVector st
      end
  end.

(** [AddHitToFlash]. *)
Definition AddHitToFlash (HitID : nat) (currentHit : OpHit.t)
    (WidthTolerance : R) (st : RefineState) : result RefineState :=
  let* used := at_ (HitsUsed st) HitID in
  if used : bool then Ok st
  else
    let HitTime := OpHit.PeakTime currentHit in
    let HitWidth := (0.5 * OpHit.Width currentHit)%R in
    let FlashTime := (0.5 * (FlashMaxTime st + FlashMinTime st))%R in
    let FlashWidth := (0.5 * (FlashMaxTime st - FlashMinTime st))%R in
    if Rlt_b (WidthTolerance * (HitWidth + FlashWidth))
             (Rabs (HitTime - FlashTime))
    then Ok st
    else
      Ok (mkRefineState (<[HitID := true]> (HitsUsed st))
                        (HitsThisRefinedFlash st ++ [HitID])
                        (PEAccumulated st + OpHit.PE currentHit)%R
                        (Rmax (FlashMaxTime st) (HitTime + HitWidth))
                        (Rmin (FlashMinTime st) (HitTime - HitWidth))).

(** [CheckAndStoreFlash]; the result is the pair of [RefinedHitsPerFlash]
    and [HitsUsed]. *)
Definition CheckAndStoreFlash (RefinedHitsPerFlash : list (list nat))
    (HitsThisRefinedFlash : list nat) (PEAccumulated FlashThreshold : R)
    (HitsUsed : list bool) : result (list (list nat) * list bool) :=
  if Rle_b FlashThreshold PEAccumulated
  then Ok (RefinedHitsPerFlash ++ [HitsThisRefinedFlash], HitsUsed)
  else if (length HitsThisRefinedFlash =? 1)%nat
  then Ok (RefinedHitsPerFlash, HitsUsed)
  else
    let* HitsUsed' :=
      foldM (fun HitsUsed HitID =>
               let* _ := at_ HitsUsed HitID in
               Ok (<[HitID := false]> HitsUsed))
            (drop 1 HitsThisRefinedFlash) HitsUsed in
    Ok (RefinedHitsPerFlash, HitsUsed').

(** The map [HitsBySize] built at the head of [RefineHitsInFlash]. *)
Definition FillHitsBySize (HitsThisFlash : list nat) (HitVector : list OpHit.t)
  : result (list (R * list nat)) :=
  foldM (fun HitsBySize HitID =>
           let* h := at_ HitVector HitID in
           Ok (upsert greater (OpHit.PE h) (fun ids => ids ++ [HitID]) []
                      HitsBySize))
        HitsThisFlash [].

(** One pass of the growth scan: [AddHitToFlash] for every hit of
    [HitsBySize], largest first. *)
Definition GrowPass (HitsBySize : list (R * list nat))
    (HitVector : list OpHit.t) (WidthTolerance : R) (st : RefineState)
  : result RefineState :=
  foldM (fun st itHit =>
           foldM (fun st HitID =>
                    let* h := at_ HitVector HitID in
                    AddHitToFlash HitID h WidthTolerance st)
                 itHit.2 st)
        HitsBySize st.

(** The loop [while(NHitsThisRefinedFlash < HitsThisRefinedFlash.size())]. *)
Fixpoint GrowLoop (fuel : nat) (HitsBySize : list (R * list nat))
    (HitVector : list OpHit.t) (WidthTolerance : R)
    (NHitsThisRefinedFlash : nat) (st : RefineState) : result RefineState :=
  if (NHitsThisRefinedFlash <? length (HitsThisRefinedFlash st))%nat then
    match fuel with
    | O => Throw out_of_fuel
    | S fuel' =>
        let* st' := GrowPass HitsBySize HitVector WidthTolerance st in
        GrowLoop fuel' HitsBySize HitVector WidthTolerance
                 (length (HitsThisRefinedFlash st)) st'
    end
  else Ok st.

(** The loop [while(true)] of [RefineHitsInFlash]. *)
Fixpoint RefineLoop (fuel growfuel : nat) (HitsBySize : list (R * list nat))
    (HitVector : list OpHit.t) (WidthTolerance FlashThreshold : R)
    (RefinedHitsPerFlash : list (list nat)) (Used : list bool)
  : result (list (list nat)) :=
  match fuel with
  | O => Throw out_of_fuel
  | S fuel' =>
      let* st := FindSeedHit HitsBySize HitVector
                   (mkRefineState Used [] 0 0 0) in
      if (length (HitsThisRefinedFlash st) =? 0)%nat
      then Ok RefinedHitsPerFlash
      else
        let* st := GrowLoop growfuel HitsBySize HitVector WidthTolerance 0
                     st in
        let* '(RefinedHitsPerFlash, Used) :=
          CheckAndStoreFlash RefinedHitsPerFlash (HitsThisRefinedFlash st)
                             (PEAccumulated st) FlashThreshold
                             (HitsUsed st) in
        RefineLoop fuel' growfuel HitsBySize HitVector WidthTolerance
                   FlashThreshold RefinedHitsPerFlash Used
  end.

(** [RefineHitsInFlash]; each of its two loops may take [fuel] turns. *)
Definition RefineHitsInFlash (fuel : nat) (HitsThisFlash : list nat)
    (HitVector : list OpHit.t) (RefinedHitsPerFlash : list (list nat))
    (WidthTolerance FlashThreshold : R) : result (list (list nat)) :=
  let* HitsBySize := FillHitsBySize HitsThisFlash HitVector in
  RefineLoop fuel fuel HitsBySize HitVector WidthTolerance FlashThreshold
             RefinedHitsPerFlash (replicate (length HitVector) false).

(** ** The flash builder *)

(** Modelled from the spec: the geometry service ([geo::Geometry], whose
    header is not part of the sources), as what the source asks of it:
    channel count, plane count, the centre of the optical detector behind
    a channel ([OpChannelToCryoOpDet] followed by
    [Cryostat(c).OpDet(o).GetCenter]) and the nearest wire of a plane. *)
Record Geometry : Type := mkGeometry {
  NOpChannels     : nat;
  Nplanes         : nat;
  OpChannelCenter : Z -> R * R * R;
  NearestWire     : R * R * R -> nat -> nat
}.

(** Modelled from the spec: [recob::OpFlash] (RecoBase/OpFlash.h is not part
    of the sources); the fields are the arguments of the constructor call in
    [ConstructFlash], [TotalPE] is the sum of the per-channel PE vector, and
    [OpFlashSortByTime] orders flashes by ascending [Time]. *)
Module OpFlash.
Record t : Type := mk {
  Time        : R;
  TimeWidth   : R;
  AbsTime     : R;
  Frame       : Z;
  PEs         : list R;
  InBeamFrame : bool;
  OnBeamTime  : Z;
  FastToTotal : R;
  YCenter     : R;
  YWidth      : R;
  ZCenter     : R;
  ZWidth      : R;
  WireCenters : list R;
  WireWidths  : list R
}.
Definition TotalPE (f : t) : R := foldl Rplus 0%R (PEs f).
End OpFlash.

(** [v.at(i)] for an [int i]: a negative [i] converts to a [size_t] beyond
    any vector. *)
Definition at_Z {A : Type} (v : list A) (i : Z) : result A :=
  if (i <? 0)%Z then Throw out_of_range else at_ v (Z.to_nat i).

(** [AddHitContribution]; the result lists the updated reference parameters
    in the order of the signature. *)
Definition AddHitContribution (currentHit : OpHit.t)
    (MaxTime MinTime AveTime FastToTotal AveAbsTime TotalPE : R)
    (PEs : list R) : result (R * R * R * R * R * R * list R) :=
  let PEThisHit := OpHit.PE currentHit in
  let TimeThisHit := OpHit.PeakTime currentHit in
  let MaxTime := if Rlt_b MaxTime TimeThisHit then TimeThisHit else MaxTime in
  let MinTime := if Rlt_b TimeThisHit MinTime then TimeThisHit else MinTime in
  let AveTime := (AveTime + TimeThisHit * PEThisHit)%R in
  let FastToTotal :=
    (FastToTotal + OpHit.FastToTotal currentHit * PEThisHit)%R in
  let AveAbsTime := (AveAbsTime + OpHit.PeakTimeAbs currentHit * PEThisHit)%R in
  let TotalPE := (TotalPE + PEThisHit)%R in
  let* pe := at_Z PEs (OpHit.OpChannel currentHit) in
  Ok (MaxTime, MinTime, AveTime, FastToTotal, AveAbsTime, TotalPE,
      <[Z.to_nat (OpHit.OpChannel currentHit) := (pe + PEThisHit)%R]> PEs).

(** An [unsigned int] as a double. *)
Definition UINT_MAX1 : Z := 4294967296.
Definition of_uint (w : Z) : R := IZR (w mod UINT_MAX1).

(** [GetHitGeometryInfo]; [w*w] is an [unsigned int] product. *)
Definition GetHitGeometryInfo (currentHit : OpHit.t) (geom : Geometry)
    (sumw sumw2 : list R) (sumy sumy2 sumz sumz2 : R)
  : result (list R * list R * R * R * R * R) :=
  let xyz := OpChannelCenter geom (OpHit.OpChannel currentHit) in
  let PEThisHit := OpHit.PE currentHit in
  let* '(sumw, sumw2) :=
    foldM (fun '(sumw, sumw2) p =>
             let w := Z.of_nat (NearestWire geom xyz p) in
             let* sw := at_ sumw p in
             let sumw := <[p := (sw + of_uint w * PEThisHit)%R]> sumw in
             let* sw2 := at_ sumw2 p in
             let sumw2 :=
               <[p := (sw2 + of_uint (w * w) * PEThisHit)%R]> sumw2 in
             Ok (sumw, sumw2))
          (seq 0 (Nplanes geom)) (sumw, sumw2) in
  let y := xyz.1.2 in
  let z := xyz.2 in
  Ok (sumw, sumw2,
      (sumy + y * PEThisHit)%R, (sumy2 + y * y * PEThisHit)%R,
      (sumz + z * PEThisHit)%R, (sumz2 + z * z * PEThisHit)%R).

(** [CalculateWidth]. *)
Definition CalculateWidth (sum sum_squared weights_sum : R) : R :=
  (sqrt (sum_squared * weights_sum + sum * sum) / weights_sum)%R.

(** The body of the loop of [ConstructFlash] over the hits of the flash, on
    the local sums: those of [AddHitContribution], then those of
    [GetHitGeometryInfo]. *)
Definition FlashSums_step (HitVector : list OpHit.t) (geom : Geometry)
    (sums : (R * R * R * R * R * R * list R)
            * (list R * list R * R * R * R * R)) (HitID : nat)
  : result ((R * R * R * R * R * R * list R)
            * (list R * list R * R * R * R * R)) :=
  let '((MaxTime, MinTime, AveTime, FastToTotal, AveAbsTime, TotalPE, PEs),
        (sumw, sumw2, sumy, sumy2, sumz, sumz2)) := sums in
  let* h := at_ HitVector HitID in
  let* times :=
    AddHitContribution h MaxTime MinTime AveTime FastToTotal AveAbsTime
                       TotalPE PEs in
  let* h := at_ HitVector HitID in
  let* geometry :=
    GetHitGeometryInfo h geom sumw sumw2 sumy sumy2 sumz sumz2 in
  Ok (times, geometry).

(** The loop of [ConstructFlash] over the hits of the flash: its result is
    the state of the local sums when the loop ends. *)
Definition FlashSums (HitsPerFlashVec : list nat) (HitVector : list OpHit.t)
    (geom : Geometry)
  : result ((R * R * R * R * R * R * list R)
            * (list R * list R * R * R * R * R)) :=
  foldM (FlashSums_step HitVector geom) HitsPerFlashVec
        ((-1e9, 1e9, 0, 0, 0, 0, replicate (NOpChannels geom) 0)%R,
         (replicate (Nplanes geom) 0%R, replicate (Nplanes geom) 0%R,
          0, 0, 0, 0)%R).

(** [ConstructFlash]: the flash is appended to [FlashVector]. *)
Definition ConstructFlash (HitsPerFlashVec : list nat)
    (HitVector : list OpHit.t) (FlashVector : list OpFlash.t)
    (geom : Geometry) (TrigFrame : Z) (Frame : Z) (TrigCoinc : R)
  : result (list OpFlash.t) :=
  let* '((MaxTime, MinTime, AveTime, FastToTotal, AveAbsTime, TotalPE, PEs),
         (sumw, sumw2, sumy, sumy2, sumz, sumz2)) :=
    FlashSums HitsPerFlashVec HitVector geom in
  let AveTime := (AveTime / TotalPE)%R in
  let AveAbsTime := (AveAbsTime / TotalPE)%R in
  let FastToTotal := (FastToTotal / TotalPE)%R in
  let meany := (sumy / TotalPE)%R in
  let meanz := (sumz / TotalPE)%R in
  let widthy := CalculateWidth sumy sumy2 TotalPE in
  let widthz := CalculateWidth sumz sumz2 TotalPE in
  let* '(WireCenters, WireWidths) :=
    foldM (fun '(WireCenters, WireWidths) p =>
             let* sw := at_ sumw p in
             let* _ := at_ WireCenters p in
             let WireCenters := <[p := (sw / TotalPE)%R]> WireCenters in
             let* sw := at_ sumw p in
             let* sw2 := at_ sumw2 p in
             let* _ := at_ WireWidths p in
             let WireWidths :=
               <[p := CalculateWidth sw sw2 TotalPE]> WireWidths in
             Ok (WireCenters, WireWidths))
          (seq 0 (Nplanes geom))
          (replicate (Nplanes geom) 0%R, replicate (Nplanes geom) 0%R) in
  let InBeamFrame := (Frame =? TrigFrame)%Z in
  let TimeWidth := ((MaxTime - MinTime) / 2)%R in
  let OnBeamTime := if Rlt_b (Rabs AveTime) TrigCoinc then 1%Z else 0%Z in
  Ok (FlashVector ++
      [OpFlash.mk AveTime TimeWidth AveAbsTime Frame PEs InBeamFrame
                  OnBeamTime FastToTotal meany widthy meanz widthz
                  WireCenters WireWidths]).

(** ** The late-light filter *)

(** The doubles of [GetLikelihoodLateLight]: a real number, an infinity or
    NaN.  Zero widths are ordinary inputs here (a flash of one hit has
    [TimeWidth] zero), so the quotients follow IEEE 754: a nonzero number
    over zero is an infinity, zero over zero is NaN, and every comparison
    with NaN is false.  Zero is the positive zero. *)
Module Dbl.
Inductive t : Type :=
| Fin (x : R)
| Inf (negative : bool)
| NaN.

Definition mul (a b : t) : t :=
  match a, b with
  | NaN, _ | _, NaN => NaN
  | Fin x, Fin y => Fin (x * y)
  | Inf s, Inf s' => Inf (xorb s s')
  | Inf s, Fin y | Fin y, Inf s =>
      if Rlt_b 0 y then Inf s else if Rlt_b y 0 then Inf (negb s) else NaN
  end.

Definition div (a b : t) : t :=
  match a, b with
  | NaN, _ | _, NaN => NaN
  | Fin x, Fin y =>
      if Req_dec_T y 0 then
        if Rlt_b 0 x then Inf false else if Rlt_b x 0 then Inf true else NaN
      else Fin (x / y)
  | Fin _, Inf _ => Fin 0
  | Inf s, Fin y => if Rlt_b y 0 then Inf (negb s) else Inf s
  | Inf _, Inf _ => NaN
  end.

Definition sub (a b : t) : t :=
  match a, b with
  | NaN, _ | _, NaN => NaN
  | Fin x, Fin y => Fin (x - y)
  | Fin _, Inf s => Inf (negb s)
  | Inf s, Fin _ => Inf s
  | Inf s, Inf s' => if eqb s s' then NaN else Inf s
  end.

Definition sqrt (a : t) : t :=
  match a with
  | Fin x => if Rlt_b x 0 then NaN else Fin (R_sqrt.sqrt x)
  | Inf false => Inf false
  | Inf true => NaN
  | NaN => NaN
  end.

(** [a < b]. *)
Definition ltb (a b : t) : bool :=
  match a, b with
  | NaN, _ | _, NaN => false
  | Fin x, Fin y => Rlt_b x y
  | Inf true, Inf true => false
  | Inf true, _ => true
  | Fin _, Inf false => true
  | Fin _, Inf true => false
  | Inf false, _ => false
  end.
End Dbl.

(** The local [HypPE] of [GetLikelihoodLateLight]:
    [iPE * jWidth / iWidth * std::exp(-(jTime-iTime)/1.6)]. *)
Definition HypPE (iPE iTime iWidth jTime jWidth : R) : Dbl.t :=
  Dbl.mul (Dbl.div (Dbl.Fin (iPE * jWidth)) (Dbl.Fin iWidth))
          (Dbl.Fin (exp (- (jTime - iTime) / 1.6))).

(** [GetLikelihoodLateLight]. *)
Definition GetLikelihoodLateLight (iPE iTime iWidth jPE jTime jWidth : R)
  : Dbl.t :=
  if Rlt_b jTime iTime then Dbl.Fin 1e6
  else
    let HypPE := HypPE iPE iTime iWidth jTime jWidth in
    let nsigma := Dbl.div (Dbl.sub (Dbl.Fin jPE) HypPE) (Dbl.sqrt HypPE) in
    nsigma.

(** The test of [MarkFlashesForRemoval] on the pair of flashes [(i, j)]. *)
Definition LateLight (fi fj : OpFlash.t) : bool :=
  Dbl.ltb (GetLikelihoodLateLight (OpFlash.TotalPE fi) (OpFlash.Time fi)
                                  (OpFlash.TimeWidth fi)
                                  (OpFlash.TotalPE fj) (OpFlash.Time fj)
                                  (OpFlash.TimeWidth fj))
          (Dbl.Fin 3).

(** [MarkFlashesForRemoval].  The loops run while the index differs from
    [FlashVector.size()]; a [BeginFlash] beyond the size makes the first
    [FlashVector.at(iFlash)] throw. *)
Definition MarkFlashesForRemoval (FlashVector : list OpFlash.t)
    (BeginFlash : nat) (MarkedForRemoval : list bool) : result (list bool) :=
  if (length FlashVector <? BeginFlash)%nat then Throw out_of_range
  else
    foldM (fun MarkedForRemoval iFlash =>
      let* fi := at_ FlashVector iFlash in
      foldM (fun MarkedForRemoval jFlash =>
        let* marked := at_ MarkedForRemoval (jFlash - BeginFlash) in
        if marked : bool then Ok MarkedForRemoval
        else
          let* fj := at_ FlashVector jFlash in
          if LateLight fi fj then
            let* _ := at_ MarkedForRemoval (jFlash - BeginFlash) in
            Ok (<[(jFlash - BeginFlash)%nat := true]> MarkedForRemoval)
          else Ok MarkedForRemoval)
        (seq (S iFlash) (length FlashVector - S iFlash)) MarkedForRemoval)
      (seq BeginFlash (length FlashVector - BeginFlash)) MarkedForRemoval.

(** [v.erase(v.begin() + i)]: erasing past the end has no meaning. *)
Definition erase {A : Type} (v : list A) (i : nat) : result (list A) :=
  if (i <? length v)%nat then Ok (delete i v) else Throw undefined_behaviour.

(** [RemoveFlashesFromVectors]; the result is the pair of [FlashVector] and
    [RefinedHitsPerFlash]. *)
Definition RemoveFlashesFromVectors (MarkedForRemoval : list bool)
    (FlashVector : list OpFlash.t) (BeginFlash : nat)
    (RefinedHitsPerFlash : list (list nat))
  : result (list OpFlash.t * list (list nat)) :=
  foldM (fun '(FlashVector, RefinedHitsPerFlash) iFlash =>
           let* marked := at_ MarkedForRemoval iFlash in
           if marked : bool then
             let* RefinedHitsPerFlash := erase RefinedHitsPerFlash iFlash in
             let* FlashVector := erase FlashVector (BeginFlash + iFlash) in
             Ok (FlashVector, RefinedHitsPerFlash)
           else Ok (FlashVector, RefinedHitsPerFlash))
        (reverse (seq 0 (length MarkedForRemoval)))
        (FlashVector, RefinedHitsPerFlash).

(** [std::sort] with [OpFlashSortByTime]: an insertion sort by ascending
    [Time].  Flashes of equal time keep their order here; [std::sort]
    leaves their order open. *)
Fixpoint insert_by_time (f : OpFlash.t) (l : list OpFlash.t)
  : list OpFlash.t :=
  match l with
  | [] => [f]
  | g :: l' =>
      if Rlt_b (OpFlash.Time g) (OpFlash.Time f)
      then g :: insert_by_time f l'
      else f :: l
  end.

Definition sort_flash_by_time (l : list OpFlash.t) : list OpFlash.t :=
  foldr insert_by_time [] l.

(** [RemoveLateLight]; the result is the pair of [FlashVector] and
    [RefinedHitsPerFlash].  Only [FlashVector] is sorted.  [ProcessFrame]
    has appended one flash per refined hit set, so the subtraction that
    gives [BeginFlash] does not wrap. *)
Definition RemoveLateLight (FlashVector : list OpFlash.t)
    (RefinedHitsPerFlash : list (list nat))
  : result (list OpFlash.t * list (list nat)) :=
  let MarkedForRemoval := replicate (length RefinedHitsPerFlash) false in
  let BeginFlash := (length FlashVector - length RefinedHitsPerFlash)%nat in
  let FlashVector :=
    take BeginFlash FlashVector
      ++ sort_flash_by_time (drop BeginFlash FlashVector) in
  let* MarkedForRemoval :=
    MarkFlashesForRemoval FlashVector BeginFlash MarkedForRemoval in
  RemoveFlashesFromVectors MarkedForRemoval FlashVector BeginFlash
                           RefinedHitsPerFlash.

(** ** One frame *)

(** Modelled from the spec: [optdata::OpticalRawDigit] (its header is not
    part of the sources), a waveform with its frame, channel number and
    time slice, together with the pulses that the pulse-reconstruction
    service ([PulseRecoMgr.RecoPulse], then [ThreshAlg.GetPulse]) finds in
    it. *)
Record OpticalRawDigit : Type := mkOpticalRawDigit {
  DigitFrame    : Z;
  ChannelNumber : Z;
  TimeSlice     : Z;
  Pulses        : list pulse_param
}.

(** [ChannelMap.at(k)]. *)
Definition map_at (ChannelMap : gmap Z Z) (k : Z) : result Z :=
  match ChannelMap !! k with
  | Some c => Ok c
  | None => Throw out_of_range
  end.

(** The size of the accumulators,
    [(pmt_clock.FrameTicks() + 3000 + BinWidth)/BinWidth], in the
    [unsigned int] arithmetic of [FrameTicks()]. *)
Definition NBins (ts : TimeService) (BinWidth : Z) : result nat :=
  if (BinWidth mod UINT_MAX1 =? 0)%Z then Throw undefined_behaviour
  else Ok (Z.to_nat (((FrameTicks ts + 3000 + BinWidth) mod UINT_MAX1)
                     / (BinWidth mod UINT_MAX1))).

(** The last element of the hit vector and its index, as the pulse loop of
    [ProcessFrame] reads them: [HitVector.size()-1] and
    [HitVector[HitVector.size()-1]], which have no meaning on an empty
    vector. *)
Definition back_index (HitVector : list OpHit.t) : result (nat * OpHit.t) :=
  match last HitVector with
  | Some h => Ok ((length HitVector - 1)%nat, h)
  | None => Throw undefined_behaviour
  end.

(** The body of the pulse loop of [ProcessFrame] (OpFlashAlg.cxx, lines
    143 to 174), on the hit vector and the two accumulators. *)
Definition ProcessPulse (HitThreshold FlashThreshold : R) (Channel : Z)
    (TimeSlice : Z) (Frame : Z) (BinWidth : Z) (ts : TimeService)
    (SPESize : list R) (pulse : pulse_param)
    (st : list OpHit.t * Accumulator * Accumulator)
  : result (list OpHit.t * Accumulator * Accumulator) :=
  let '(HitVector, acc1, acc2) := st in
  let* spe := at_Z SPESize Channel in
  let HitVector :=
    ConstructHit HitThreshold Channel TimeSlice Frame pulse ts spe HitVector in
  let* AccumIndex1 := GetAccumIndex (t_max pulse) TimeSlice BinWidth 0 in
  let* '(HitIndex, h) := back_index HitVector in
  let* acc1 :=
    FillAccumulator AccumIndex1 HitIndex (OpHit.PE h) FlashThreshold acc1 in
  let* AccumIndex2 :=
    GetAccumIndex (t_max pulse) TimeSlice BinWidth
                  (IZR (Z.quot BinWidth 2)) in
  let* '(HitIndex, h) := back_index HitVector in
  let* acc2 :=
    FillAccumulator AccumIndex2 HitIndex (OpHit.PE h) FlashThreshold acc2 in
  Ok (HitVector, acc1, acc2).

(** The loop of [ProcessFrame] over the waveforms of the frame. *)
Definition ProcessDigits (Frame : Z) (digits : list OpticalRawDigit)
    (BinWidth : Z) (ChannelMap : gmap Z Z) (geom : Geometry)
    (HitThreshold FlashThreshold : R) (ts : TimeService) (SPESize : list R)
    (st : list OpHit.t * Accumulator * Accumulator)
  : result (list OpHit.t * Accumulator * Accumulator) :=
  foldM (fun st wf =>
           let* Channel := map_at ChannelMap (ChannelNumber wf) in
           if ((Channel <? 0) || (Z.of_nat (NOpChannels geom) <? Channel))%Z
           then Ok st
           else if (FrameTicks ts <? TimeSlice wf)%Z then Ok st
           else
             foldM (fun st pulse =>
                      ProcessPulse HitThreshold FlashThreshold Channel
                                   (TimeSlice wf) Frame BinWidth ts SPESize
                                   pulse st)
                   (Pulses wf) st)
        digits st.

(** The hit sets of the frame as they reach [ConstructFlash]: the coarse
    flashes of [AssignHitsToFlash], refined one by one.  The refiner gets
    one turn of each loop per hit of the hit vector, and one more. *)
Definition RefineAll (HitsPerFlash : list (list nat))
    (HitVector : list OpHit.t) (WidthTolerance FlashThreshold : R)
  : result (list (list nat)) :=
  foldM (fun RefinedHitsPerFlash HitsThisFlash =>
           RefineHitsInFlash (S (length HitVector)) HitsThisFlash HitVector
                             RefinedHitsPerFlash WidthTolerance
                             FlashThreshold)
        HitsPerFlash [].

(** The first half of [ProcessFrame] (OpFlashAlg.cxx, lines 105 to 206):
    hits, accumulators, coarse flashes and their refinement.  The result is
    the hit vector and [RefinedHitsPerFlash], the hit sets on which
    [ProcessFrame] goes on to call [ConstructFlash]. *)
Definition FrameHitSets (Frame : Z) (digits : list OpticalRawDigit)
    (HitVector : list OpHit.t) (BinWidth : Z) (ChannelMap : gmap Z Z)
    (geom : Geometry) (HitThreshold FlashThreshold WidthTolerance : R)
    (ts : TimeService) (SPESize : list R)
  : result (list OpHit.t * list (list nat)) :=
  let* n := NBins ts BinWidth in
  let acc := mkAccumulator (replicate n 0%R) (replicate n []) [] in
  let NHits_prev := length HitVector in
  let* '(HitVector, acc1, acc2) :=
    ProcessDigits Frame digits BinWidth ChannelMap geom HitThreshold
                  FlashThreshold ts SPESize (HitVector, acc, acc) in
  let NHitsThisFrame := (length HitVector - NHits_prev)%nat in
  let* HitsPerFlash :=
    AssignHitsToFlash (FlashesInAccumulator acc1) (FlashesInAccumulator acc2)
                      (Binned acc1) (Binned acc2)
                      (Contributors acc1) (Contributors acc2)
                      NHitsThisFrame HitVector [] FlashThreshold in
  let* RefinedHitsPerFlash :=
    RefineAll HitsPerFlash HitVector WidthTolerance FlashThreshold in
  Ok (HitVector, RefinedHitsPerFlash).

(** [ProcessFrame]; the result is the triple of [HitVector], [FlashVector]
    and [AssocList]. *)
Definition ProcessFrame (Frame : Z) (digits : list OpticalRawDigit)
    (HitVector : list OpHit.t) (FlashVector : list OpFlash.t)
    (AssocList : list (list nat)) (BinWidth : Z) (ChannelMap : gmap Z Z)
    (geom : Geometry) (HitThreshold FlashThreshold WidthTolerance : R)
    (ts : TimeService) (SPESize : list R) (TrigCoinc : R)
  : result (list OpHit.t * list OpFlash.t * list (list nat)) :=
  let NHits_prev := length HitVector in
  let* '(HitVector, RefinedHitsPerFlash) :=
    FrameHitSets Frame digits HitVector BinWidth ChannelMap geom HitThreshold
                 FlashThreshold WidthTolerance ts SPESize in
  let* FlashVector :=
    foldM (fun FlashVector HitsPerFlashVec =>
             ConstructFlash HitsPerFlashVec HitVector FlashVector geom
                            (BeamGateFrame ts) Frame TrigCoinc)
          RefinedHitsPerFlash FlashVector in
  let* '(FlashVector, RefinedHitsPerFlash) :=
    RemoveLateLight FlashVector RefinedHitsPerFlash in
  let AssocList :=
    AssocList ++ map (map (fun HitIndex => (HitIndex + NHits_prev)%nat))
                     RefinedHitsPerFlash in
  Ok (HitVector, FlashVector, AssocList).

(** [RunFlashFinder]: the waveforms grouped by frame in a [std::map], the
    frames processed in ascending order.  The key of the map is the frame
    number as it is, which is the [unsigned short] key of the source for
    frame numbers from 0 to 65535. *)
Definition RunFlashFinder (OpticalRawDigitVector : list OpticalRawDigit)
    (HitVector : list OpHit.t) (FlashVector : list OpFlash.t)
    (AssocList : list (list nat)) (BinWidth : Z) (ChannelMap : gmap Z Z)
    (geom : Geometry) (HitThreshold FlashThreshold WidthTolerance : R)
    (ts : TimeService) (SPESize : list R) (TrigCoinc : R)
  : result (list OpHit.t * list OpFlash.t * list (list nat)) :=
  let OpDigitChanByFrame :=
    foldl (fun m wf => upsert Z.ltb (DigitFrame wf) (fun v => v ++ [wf]) [] m)
          [] OpticalRawDigitVector in
  foldM (fun '(HitVector, FlashVector, AssocList) wfframe =>
           ProcessFrame wfframe.1 wfframe.2 HitVector FlashVector AssocList
                        BinWidth ChannelMap geom HitThreshold FlashThreshold
                        WidthTolerance ts SPESize TrigCoinc)
        OpDigitChanByFrame (HitVector, FlashVector, AssocList).

(** ** The accumulator and the late-light test on binary64 doubles

    Two functions of the source are decided by the rounding of the doubles:
    the flag of [FillAccumulator] reads the running sum after the addition
    and again after the subtraction of the same PE, and
    [GetLikelihoodLateLight] multiplies by a [std::exp] that underflows.
    They are embedded here a second time, on IEEE 754 binary64 with
    rounding to nearest, statement by statement as above.  The
    [float const&] threshold of [FillAccumulator] is converted to [double]
    in both comparisons, so it is the binary64 value of the [float].
    [std::exp] belongs to the C library and is a parameter. *)
Module B64.
Record Accumulator : Type := mkAccumulator {
  Binned               : list float;
  Contributors         : list (list nat);
  FlashesInAccumulator : list nat
}.

(** [FillAccumulator]. *)
Definition FillAccumulator (AccumIndex HitIndex : nat)
    (PE FlashThreshold : float) (acc : Accumulator) : result Accumulator :=
  let* c := at_ (Contributors acc) AccumIndex in
  let Contributors' := <[AccumIndex := c ++ [HitIndex]]> (Contributors acc) in
  let* b := at_ (Binned acc) AccumIndex in
  let Binned' := <[AccumIndex := PrimFloat.add b PE]> (Binned acc) in
  let* sum := at_ Binned' AccumIndex in
  if PrimFloat.leb FlashThreshold sum
     && PrimFloat.ltb (PrimFloat.sub sum PE) FlashThreshold
  then Ok (mkAccumulator Binned' Contributors'
                         (FlashesInAccumulator acc ++ [AccumIndex]))
  else Ok (mkAccumulator Binned' Contributors' (FlashesInAccumulator acc)).

(** The double [1.6]. *)
Definition ArgonTimeConst : float := 0x1.999999999999ap+0%float.

(** The local [HypPE] of [GetLikelihoodLateLight]:
    [iPE * jWidth / iWidth * std::exp(-(jTime-iTime)/1.6)]. *)
Definition HypPE (exp : float -> float)
    (iPE iTime iWidth jTime jWidth : float) : float :=
  PrimFloat.mul
    (PrimFloat.div (PrimFloat.mul iPE jWidth) iWidth)
    (exp (PrimFloat.div (PrimFloat.opp (PrimFloat.sub jTime iTime))
                        ArgonTimeConst)).

(** [GetLikelihoodLateLight]. *)
Definition GetLikelihoodLateLight (exp : float -> float)
    (iPE iTime iWidth jPE jTime jWidth : float) : float :=
  if PrimFloat.ltb jTime iTime then 1000000%float
  else
    let HypPE := HypPE exp iPE iTime iWidth jTime jWidth in
    let nsigma :=
      PrimFloat.div (PrimFloat.sub jPE HypPE) (PrimFloat.sqrt HypPE) in
    nsigma.

(** The test of [MarkFlashesForRemoval]:
    [GetLikelihoodLateLight(iPE,iTime,iWidth,jPE,jTime,jWidth) < 3.]. *)
Definition LateLight (exp : float -> float)
    (iPE iTime iWidth jPE jTime jWidth : float) : bool :=
  PrimFloat.ltb
    (GetLikelihoodLateLight exp iPE iTime iWidth jPE jTime jWidth) 3%float.


End B64.


(** The doubles of the example fills: [0.4], the largest double below 1,
    and [3.26]. *)
Definition PE_0_4 : float := 0x1.999999999999ap-2%float.
Definition PE_below_1 : float := 0x1.fffffffffffffp-1%float.
Definition PE_3_26 : float := 0x1.a147ae147ae14p+1%float.
Definition acc64 : B64.Accumulator := B64.mkAccumulator [0%float] [[]] [].

(** ** Vocabulary of the statements *)

(** No hit index lies in two of the hit sets. *)
Definition PairwiseDisjoint (sets : list (list nat)) : Prop :=
  forall i j a b, i <> j -> sets !! i = Some a -> sets !! j = Some b ->
    forall h, h ∈ a -> h ∉ b.

(** The summed PE of a hit set reaches the threshold. *)
Definition ReachesThreshold (HitVector : list OpHit.t) (FlashThreshold : R)
    (hits : list nat) : Prop :=
  exists sum, SumPE HitVector hits = Ok sum /\ (FlashThreshold <= sum)%R.

(** The local [TotalPE] of [ConstructFlash] when its loop over the hits
    ends. *)
Definition TotalPE_of (sums : (R * R * R * R * R * R * list R)
                              * (list R * list R * R * R * R * R)) : R :=
  sums.1.1.2.

(** The local [PEs] of [ConstructFlash] when its loop over the hits
    ends. *)
Definition PEs_of (sums : (R * R * R * R * R * R * list R)
                          * (list R * list R * R * R * R * R)) : list R :=
  sums.1.2.

(** The number of unused hits. *)
Fixpoint unused (Used : list bool) : nat :=
  match Used with
  | [] => 0
  | used :: Used' => (if used then 0 else 1) + unused Used'
  end.

(** The hits of all size classes of [HitsBySize]. *)
Definition hits_of (HitsBySize : list (R * list nat)) : list nat :=
  mjoin (snd <$> HitsBySize).

(** [Used'] keeps every flag that is set in [Used]. *)
Definition keeps_used (Used Used' : list bool) : Prop :=
  length Used' = length Used
  /\ forall x, Used !! x = Some true -> Used' !! x = Some true.

(** The state of the refiner while a group grows from [seed]: [Used1] are
    the flags right after the seed was taken. *)
Definition Grown (HitVector : list OpHit.t) (HitsBySize : list (R * list nat))
    (Used1 : list bool) (seed : nat) (st : RefineState) : Prop :=
  keeps_used Used1 (HitsUsed st)
  /\ (exists rest, HitsThisRefinedFlash st = seed :: rest
       /\ forall x, x ∈ rest ->
            Used1 !! x = Some false /\ x ∈ hits_of HitsBySize)
  /\ (forall x, x ∈ HitsThisRefinedFlash st -> HitsUsed st !! x = Some true)
  /\ (exists sum, SumPE HitVector (HitsThisRefinedFlash st) = Ok sum
       /\ sum = PEAccumulated st)
  /\ (unused (HitsUsed st) + length (HitsThisRefinedFlash st)
      = unused Used1 + 1)%nat.

(** The refined flashes stored so far by one call of [RefineHitsInFlash]:
    [new] are the sets added to the [Refined0] that was passed in. *)
Definition Stored (HitVector : list OpHit.t) (HitsBySize : list (R * list nat))
    (FlashThreshold : R) (Refined0 : list (list nat))
    (Refined : list (list nat)) (Used : list bool) : Prop :=
  exists new, Refined = Refined0 ++ new
    /\ PairwiseDisjoint new
    /\ Forall (ReachesThreshold HitVector FlashThreshold) new
    /\ forall s x, s ∈ new -> x ∈ s ->
         Used !! x = Some true /\ x ∈ hits_of HitsBySize.

(** The coarse flashes stored so far by [AssignHitsToFlash], with the claim
    flags: the flashes share no hit, each reaches the threshold, and each
    of their hits is flagged as claimed. *)
Definition Claimed (HitVector : list OpHit.t) (FlashThreshold : R)
    (NHits_prev : nat) (HitsPerFlash : list (list nat))
    (HitClaimedByFlash : list Z) : Prop :=
  PairwiseDisjoint HitsPerFlash
  /\ Forall (ReachesThreshold HitVector FlashThreshold) HitsPerFlash
  /\ forall s x, s ∈ HitsPerFlash -> x ∈ s ->
       (NHits_prev <= x)%nat
       /\ exists z, HitClaimedByFlash !! (x - NHits_prev)%nat = Some z
                    /\ z <> (-1)%Z.

(** A call neither diverges nor depends on the fuel beyond [enough]. *)
Definition terminates {A : Type} (run : nat -> result A) (enough : nat)
  : Prop :=
  run enough <> Throw out_of_fuel
  /\ forall fuel, (enough <= fuel)%nat -> run fuel = run enough.

(** Flash [j] has a parent among the flashes [BeginFlash .. stop-1] of the
    vector: an earlier flash against which it tests as late light. *)
Definition has_parent (FlashVector : list OpFlash.t) (BeginFlash stop j : nat)
  : Prop :=
  exists i fi fj, (BeginFlash <= i < stop)%nat /\ (i < j)%nat
    /\ FlashVector !! i = Some fi /\ FlashVector !! j = Some fj
    /\ LateLight fi fj = true.

(** The marks of [MarkFlashesForRemoval] once its outer loop has handled
    the parents below [stop] and, for the parent [stop] itself, the
    candidates below [upto]. *)
Definition marks_upto (FlashVector : list OpFlash.t) (BeginFlash : nat)
    (Marked0 : list bool) (stop upto : nat) (Marked : list bool) : Prop :=
  length Marked = length Marked0
  /\ forall p, Marked !! p = Some true <->
       (Marked0 !! p = Some true
        \/ has_parent FlashVector BeginFlash stop (BeginFlash + p)
        \/ (stop < BeginFlash + p < upto)%nat
           /\ exists fi fj, FlashVector !! stop = Some fi
                /\ FlashVector !! (BeginFlash + p)%nat = Some fj
                /\ LateLight fi fj = true).

(** A flash record with the given time, width and PE on a single channel,
    for the examples. *)
Definition flash_of (time width pe : R) : OpFlash.t :=
  OpFlash.mk time width time 0 [pe] false 0 0 0 0 0 0 [] [].

(** ** Re-gathering and example data *)

(** The per-channel PE vector re-gathered from the hit vector through the
    hit indices of an association-table entry. *)
Definition PerChannelPE (HitVector : list OpHit.t) (hits : list nat)
    (NOpChannels : nat) : result (list R) :=
  foldM (fun PEs HitID =>
           let* h := at_ HitVector HitID in
           let* pe := at_Z PEs (OpHit.OpChannel h) in
           Ok (<[Z.to_nat (OpHit.OpChannel h) := (pe + OpHit.PE h)%R]> PEs))
        hits (replicate NOpChannels 0%R).

(** A detector of one channel and no wire plane, a clock whose times are
    the ticks, frames of 7000 ticks. *)
Definition ts0 : TimeService :=
  mkTimeService 7000 1 (fun t _ _ => t) (fun t _ _ => t) 0.
Definition geom0 : Geometry :=
  mkGeometry 1 0 (fun _ => (0, 0, 0)%R) (fun _ _ => 0%nat).
Definition map0 : gmap Z Z := {[ 0%Z := 0%Z ]}.

(** Pulses: a pulse of amplitude 8 at tick 10, one of amplitude 9 at tick
    5000, and one of amplitude 1 at tick 20. *)
Definition pulseA0 : pulse_param := mkPulse 8 8 9 10 11.
Definition pulseA1 : pulse_param := mkPulse 9 9 4999 5000 5001.
Definition pulseLow : pulse_param := mkPulse 1 1 19 20 21.

(** The hits of the first two pulses on channel 0, with a single
    photoelectron of size 1. *)
Definition hitA0 : OpHit.t := OpHit.mk 0 10 10 0 ((11 - 9) * 1) 8 8 (8 / 1) 0.
Definition hitA1 : OpHit.t :=
  OpHit.mk 0 5000 5000 0 ((5001 - 4999) * 1) 9 9 (9 / 1) 0.
Definition hitB1 : OpHit.t := OpHit.mk 0 10 10 1 ((11 - 9) * 1) 8 8 (8 / 1) 0.

(** Waveforms: frame A holds the two bright pulses, the weaker one first
    in time; frame B holds a bright pulse followed by one below the hit
    threshold; frames C0 and C1 hold one bright pulse each. *)
Definition digitA : OpticalRawDigit :=
  mkOpticalRawDigit 0 0 0 [pulseA0; pulseA1].
Definition digitB : OpticalRawDigit :=
  mkOpticalRawDigit 0 0 0 [pulseA0; pulseLow].
Definition digitC0 : OpticalRawDigit := mkOpticalRawDigit 0 0 0 [pulseA0].
Definition digitC1 : OpticalRawDigit := mkOpticalRawDigit 1 0 0 [pulseA0].

(** Frame D1: in frame 1, the bright pulse and, a bin later, a pulse of
    amplitude 3, which makes a hit and stays below a flash threshold of
    6. *)
Definition pulseLate3 : pulse_param := mkPulse 3 3 4999 5000 5001.
Definition hitD2 : OpHit.t :=
  OpHit.mk 0 5000 5000 1 ((5001 - 4999) * 1) 3 3 (3 / 1) 0.
Definition digitD1 : OpticalRawDigit :=
  mkOpticalRawDigit 1 0 0 [pulseA0; pulseLate3].

(** Scenarios A and B of the specification, with bins of 4000 ticks: hits
    of PE 5 and 3 at ticks 100 and 102 on two channels, and a single hit of
    PE 2. *)
Definition geom2 : Geometry :=
  mkGeometry 2 0 (fun _ => (0, 0, 0)%R) (fun _ _ => 0%nat).
Definition map2 : gmap Z Z := {[ 0%Z := 0%Z; 1%Z := 1%Z ]}.
Definition pulseS5 : pulse_param := mkPulse 5 5 98 100 102.
Definition pulseS3 : pulse_param := mkPulse 3 3 100 102 104.
Definition pulseS2 : pulse_param := mkPulse 2 2 98 100 102.
Definition digitS5 : OpticalRawDigit := mkOpticalRawDigit 0 0 0 [pulseS5].
Definition digitS3 : OpticalRawDigit := mkOpticalRawDigit 0 1 0 [pulseS3].
Definition digitS2 : OpticalRawDigit := mkOpticalRawDigit 0 0 0 [pulseS2].

(** The accumulators of these frames at the start: three bins. *)
Definition acc0 : Accumulator :=
  mkAccumulator (replicate 3 0%R) (replicate 3 []) [].

(** ** Vocabulary of the further properties *)

(** Each bin's sum is the summed PE of its contributors, read from the hit
    vector. *)
Definition SumsMatchContributors (HitVector : list OpHit.t)
    (acc : Accumulator) : Prop :=
  length (Binned acc) = length (Contributors acc)
  /\ forall b c, Contributors acc !! b = Some c ->
       exists sum, SumPE HitVector c = Ok sum /\ Binned acc !! b = Some sum.

(** A hit as the pulse loop builds it for the frame. *)
Definition HitOfFrame (Frame : Z) (geom : Geometry) (HitThreshold : R)
    (SPESize : list R) (h : OpHit.t) : Prop :=
  (HitThreshold <= OpHit.Amplitude h)%R
  /\ (0 <= OpHit.OpChannel h <= Z.of_nat (NOpChannels geom))%Z
  /\ OpHit.Frame h = Frame
  /\ OpHit.FastToTotal h = 0%R
  /\ exists spe, SPESize !! Z.to_nat (OpHit.OpChannel h) = Some spe
       /\ OpHit.PE h = (OpHit.Amplitude h / spe)%R.

(** The waveform is one that the loop of [ProcessFrame] passes over: its
    channel maps outside the detector or its time slice lies beyond the
    frame. *)
Definition PassedOver (ChannelMap : gmap Z Z) (geom : Geometry)
    (ts : TimeService) (wf : OpticalRawDigit) : Prop :=
  exists Channel, ChannelMap !! ChannelNumber wf = Some Channel
    /\ (Channel < 0 \/ Z.of_nat (NOpChannels geom) < Channel
        \/ FrameTicks ts < TimeSlice wf)%Z.

Definition digitLate : OpticalRawDigit :=
  mkOpticalRawDigit 0 0 8000 [pulseA1].
Definition digitUnmapped : OpticalRawDigit :=
  mkOpticalRawDigit 0 5 0 [pulseA1].

(** The PE that the hits of a set bring to one channel. *)
Definition PEOnChannel (HitVector : list OpHit.t) (Channel : nat)
    (hits : list nat) : R :=
  foldl (fun sum HitID =>
           match HitVector !! HitID with
           | Some h => if (OpHit.OpChannel h =? Z.of_nat Channel)%Z
                       then (sum + OpHit.PE h)%R else sum
           | None => sum
           end) 0%R hits.

(** A call throws [std::out_of_range] when it throws. *)
Definition throws_only_out_of_range {A : Type} (m : result A) : Prop :=
  forall e, m = Throw e -> e = out_of_range.
(** The vectors of the local sums keep their sizes. *)
Definition sums_sized (geom : Geometry)
    (sums : (R * R * R * R * R * R * list R)
            * (list R * list R * R * R * R * R)) : Prop :=
  length (PEs_of sums) = NOpChannels geom
  /\ length sums.2.1.1.1.1.1 = Nplanes geom
  /\ length sums.2.1.1.1.1.2 = Nplanes geom.

(** Two hits of one flash, on two channels, and a detector whose channels
    all sit at y = 3, z = -4. *)
Definition hitS5 : OpHit.t :=
  OpHit.mk 0 100 100 0 ((102 - 98) * 1) 5 5 (5 / 1) 0.
Definition hitS3 : OpHit.t :=
  OpHit.mk 1 102 102 0 ((104 - 100) * 1) 3 3 (3 / 1) 0.
Definition geomY : Geometry :=
  mkGeometry 2 0 (fun _ => (0, 3, -4)%R) (fun _ _ => 0%nat).

(** The earliest and the latest time of [ConstructFlash] after the hits
    [done]: the two sentinels when there is no hit yet, else the peak times
    of two hits of [done], which bound the peak times of all of them. *)
Definition TimeRange (HitVector : list OpHit.t) (done : list nat)
    (sums : (R * R * R * R * R * R * list R)
            * (list R * list R * R * R * R * R)) : Prop :=
  let MaxTime := sums.1.1.1.1.1.1.1 in
  let MinTime := sums.1.1.1.1.1.1.2 in
  done = [] /\ MaxTime = (-1e9)%R /\ MinTime = 1e9%R
  \/ exists first last, first ∈ done /\ last ∈ done
       /\ (OpHit.PeakTime <$> HitVector !! first) = Some MinTime
       /\ (OpHit.PeakTime <$> HitVector !! last) = Some MaxTime
       /\ forall HitID h, HitID ∈ done -> HitVector !! HitID = Some h ->
            (MinTime <= OpHit.PeakTime h <= MaxTime)%R.

(** [HitsBySize] as [std::map<double, ..., std::greater>] keeps it: the
    keys fall strictly from class to class, and the key of a class is the
    PE of each of its hits. *)
Definition SizeSorted (HitVector : list OpHit.t)
    (HitsBySize : list (R * list nat)) : Prop :=
  StronglySorted (fun a b : R * list nat => (b.1 < a.1)%R) HitsBySize
  /\ forall cls HitID h, cls ∈ HitsBySize -> HitID ∈ cls.2 ->
       HitVector !! HitID = Some h -> OpHit.PE h = cls.1.

(** The first hit of a hit set is a hit of the hit vector, and no other
    hit of the set has a larger PE. *)
Definition LedByLargest (HitVector : list OpHit.t) (hits : list nat)
  : Prop :=
  exists seed rest hseed,
    hits = seed :: rest /\ HitVector !! seed = Some hseed
    /\ forall HitID h, HitID ∈ rest -> HitVector !! HitID = Some h ->
         (OpHit.PE h <= OpHit.PE hseed)%R.

(** What is left of a vector when the marked positions are taken out. *)
Fixpoint unmarked {A : Type} (Marked : list bool) (v : list A) : list A :=
  match Marked, v with
  | marked :: Marked', x :: v' =>
      if marked then unmarked Marked' v' else x :: unmarked Marked' v'
  | _, _ => v
  end.

(** The local map [OpDigitChanByFrame] of [RunFlashFinder] when its first
    loop ends. *)
Definition OpDigitChanByFrame (OpticalRawDigitVector : list OpticalRawDigit)
  : list (Z * list OpticalRawDigit) :=
  foldl (fun m wf => upsert Z.ltb (DigitFrame wf) (fun v => v ++ [wf]) [] m)
        [] OpticalRawDigitVector.

(** The waveforms of one frame, in the order of the input. *)
Definition OfFrame (Frame : Z) (OpticalRawDigitVector : list OpticalRawDigit)
  : list OpticalRawDigit :=
  filter (fun wf => DigitFrame wf = Frame) OpticalRawDigitVector.

(** Every bin of the map [FlashesBySize] is filed under the accumulator
    that flagged it. *)
Definition BinsFiled (F1 F2 : list nat)
    (FlashesBySize : list (R * list (Z * list nat))) : Prop :=
  forall itFlash itAcc Bin,
    itFlash ∈ FlashesBySize -> itAcc ∈ itFlash.2 -> Bin ∈ itAcc.2 ->
    itAcc.1 = 1%Z /\ Bin ∈ F1 \/ itAcc.1 = 2%Z /\ Bin ∈ F2.

(** The hits of a coarse flash are contributors of one flagged bin, of
    the first or of the second accumulator. *)
Definition FromOneBin (F1 F2 : list nat) (C1 C2 : list (list nat))
    (hits : list nat) : Prop :=
  exists Bin c,
    (Bin ∈ F1 /\ C1 !! Bin = Some c \/ Bin ∈ F2 /\ C2 !! Bin = Some c)
    /\ forall x, x ∈ hits -> x ∈ c.

(** The marks that [ConstructFlash] sets on a flash of the frame. *)
Definition FlashOfFrame (Frame : Z) (geom : Geometry) (ts : TimeService)
    (TrigCoinc : R) (f : OpFlash.t) : Prop :=
  OpFlash.Frame f = Frame
  /\ OpFlash.InBeamFrame f = (Frame =? BeamGateFrame ts)%Z
  /\ OpFlash.OnBeamTime f
     = (if Rlt_b (Rabs (OpFlash.Time f)) TrigCoinc then 1%Z else 0%Z)
  /\ length (OpFlash.PEs f) = NOpChannels geom.

(** The hits that the pulses of one waveform give: none when the waveform
    is passed over, else one for every pulse whose peak is not below the
    hit threshold, in the order of the pulses. *)
Definition HitsOfDigit (Frame : Z) (ChannelMap : gmap Z Z) (geom : Geometry)
    (HitThreshold : R) (ts : TimeService) (SPESize : list R)
    (wf : OpticalRawDigit) : list OpHit.t :=
  match ChannelMap !! ChannelNumber wf with
  | Some Channel =>
      if ((Channel <? 0) || (Z.of_nat (NOpChannels geom) <? Channel))%Z
      then []
      else if (FrameTicks ts <? TimeSlice wf)%Z then []
      else
        match SPESize !! Z.to_nat Channel with
        | Some spe =>
            flat_map (fun pulse =>
                        ConstructHit HitThreshold Channel (TimeSlice wf)
                                     Frame pulse ts spe [])
                     (Pulses wf)
        | None => []
        end
  | None => []
  end.

(** The waveform brings no pulse to the frame: it is passed over, or the
    pulse finder found nothing in it. *)
Definition NoPulse (ChannelMap : gmap Z Z) (geom : Geometry)
    (ts : TimeService) (wf : OpticalRawDigit) : Prop :=
  PassedOver ChannelMap geom ts wf
  \/ is_Some (ChannelMap !! ChannelNumber wf) /\ Pulses wf = [].

Definition digitEmpty : OpticalRawDigit := mkOpticalRawDigit 0 0 0 [].

(** * Proofs *)

(** ** The outcome monad *)

Lemma bind_Ok {A B : Type} (m : result A) (k : A -> result B) (b : B) :
  bind m k = Ok b -> exists a, m = Ok a /\ k a = Ok b.
Proof. destruct m as [a|e]; simpl; [eauto | discriminate]. Qed.

Lemma at_Ok {A : Type} (v : list A) (i : nat) (a : A) :
  at_ v i = Ok a <-> v !! i = Some a.
Proof.
  unfold at_. destruct (v !! i); split; intros H; try discriminate;
    congruence.
Qed.

Lemma at_off_Ok {A : Type} (v : list A) (i off : nat) (a : A) :
  at_off v i off = Ok a <-> (off <= i)%nat /\ v !! (i - off)%nat = Some a.
Proof.
  unfold at_off. destruct (Nat.ltb_spec i off).
  - split; [discriminate | lia].
  - rewrite at_Ok. intuition.
Qed.

Lemma foldM_app {A S : Type} (body : S -> A -> result S) (l1 l2 : list A)
    (s : S) :
  foldM body (l1 ++ l2) s = bind (foldM body l1 s) (foldM body l2).
Proof.
  revert s. induction l1 as [|a l1 IH]; intros s; simpl; [done|].
  destruct (body s a); simpl; auto.
Qed.

(** An invariant of the loop body is an invariant of the loop. *)
Lemma foldM_invariant {A S : Type} (Inv : S -> Prop)
    (body : S -> A -> result S) (l : list A) :
  (forall s a s', a ∈ l -> Inv s -> body s a = Ok s' -> Inv s') ->
  forall s s', Inv s -> foldM body l s = Ok s' -> Inv s'.
Proof.
  induction l as [|a l IH]; intros Hbody s s' Hs Hrun; simpl in Hrun.
  - congruence.
  - apply bind_Ok in Hrun as (s1 & H1 & Hrun).
    apply (IH (fun s a s' Ha => Hbody s a s' (list_elem_of_further _ _ _ Ha))
              s1 s'); [|done].
    eapply Hbody; [apply list_elem_of_here| |]; eauto.
Qed.

(** A counted loop keeps an invariant that follows the loop index. *)
Lemma foldM_seq_invariant {S : Type} (Inv : nat -> S -> Prop)
    (body : S -> nat -> result S) (len : nat) :
  forall a s s',
    (forall k t t', (a <= k < a + len)%nat -> Inv k t -> body t k = Ok t' ->
                    Inv (Datatypes.S k) t') ->
    Inv a s -> foldM body (seq a len) s = Ok s' -> Inv (a + len)%nat s'.
Proof.
  induction len as [|len IH]; intros a s s' Hbody Hs Hrun; simpl in Hrun.
  - injection Hrun as <-. by rewrite Nat.add_0_r.
  - apply bind_Ok in Hrun as (s1 & H1 & Hrun).
    replace (a + Datatypes.S len)%nat with (Datatypes.S a + len)%nat by lia.
    apply (IH (Datatypes.S a) s1 s'); [| |done].
    + intros k t t' Hk. apply Hbody. lia.
    + apply (Hbody a s s1); [lia|done|done].
Qed.

(** Unfolds the binds of a hypothesis [... = Ok _]. *)
Ltac inv_ok H :=
  repeat match type of H with
  | bind _ _ = Ok _ =>
      let a := fresh "a" in
      let Ha := fresh "Ha" in
      apply bind_Ok in H as (a & Ha & H)
  | Ok _ = Ok _ => injection H as H
  | Throw _ = Ok _ => discriminate H
  end.

(** ** Comparisons *)

Lemma Rlt_b_true (x y : R) : (x < y)%R -> Rlt_b x y = true.
Proof. unfold Rlt_b. destruct (Rlt_dec x y); tauto. Qed.

Lemma Rlt_b_false (x y : R) : (y <= x)%R -> Rlt_b x y = false.
Proof. unfold Rlt_b. destruct (Rlt_dec x y); [lra | done]. Qed.

Lemma Rle_b_true (x y : R) : (x <= y)%R -> Rle_b x y = true.
Proof. unfold Rle_b. destruct (Rle_dec x y); tauto. Qed.

Lemma Rle_b_false (x y : R) : (y < x)%R -> Rle_b x y = false.
Proof. unfold Rle_b. destruct (Rle_dec x y); [lra | done]. Qed.

Lemma Rlt_b_spec (x y : R) : reflect (x < y)%R (Rlt_b x y).
Proof. unfold Rlt_b. destruct (Rlt_dec x y); constructor; done. Qed.

Lemma Rle_b_spec (x y : R) : reflect (x <= y)%R (Rle_b x y).
Proof. unfold Rle_b. destruct (Rle_dec x y); constructor; done. Qed.

(** Decides the comparisons of closed real expressions in the goal. *)
Ltac Rdecide :=
  repeat match goal with
  | |- context [Rlt_b ?x ?y] =>
      first [ rewrite (Rlt_b_true x y) by lra
            | rewrite (Rlt_b_false x y) by lra ]
  | |- context [Rle_b ?x ?y] =>
      first [ rewrite (Rle_b_true x y) by lra
            | rewrite (Rle_b_false x y) by lra ]
  end.

(** ** The marking pass of the late-light filter *)

Section Marking.
Variable FlashVector : list OpFlash.t.
Variable BeginFlash : nat.
Variable Marked0 : list bool.

Local Abbreviation parent := (has_parent FlashVector BeginFlash).
Local Abbreviation marks := (marks_upto FlashVector BeginFlash Marked0).

Lemma marks_upto_next stop Marked :
  (BeginFlash <= stop)%nat ->
  marks stop (length FlashVector) Marked ->
  marks (S stop) (S (S stop)) Marked.
Proof.
  intros Hstop [Hlen H]. split; [done|]. intros p. rewrite H.
  unfold has_parent. split.
  - intros [?|[(i & fi & fj & ? & ? & ? & ? & ?)|(? & fi & fj & ? & ? & ?)]];
      [by left| |].
    + right; left. exists i, fi, fj. repeat split; auto; lia.
    + right; left. exists stop, fi, fj. repeat split; auto; lia.
  - intros [?|[(i & fi & fj & ? & ? & Hi & Hj & ?)|(? & _)]];
      [by left| |lia].
    destruct (decide (i = stop)) as [->|].
    + right; right. split; [|by exists fi, fj].
      split; [lia|]. apply lookup_lt_Some in Hj. lia.
    + right; left. exists i, fi, fj. repeat split; auto; lia.
Qed.

Lemma mark_inner_step iFlash fi jFlash Marked Marked' :
  (BeginFlash <= iFlash < jFlash)%nat ->
  FlashVector !! iFlash = Some fi ->
  marks iFlash jFlash Marked ->
  (let* marked := at_ Marked (jFlash - BeginFlash) in
   if marked : bool then Ok Marked
   else
     let* fj := at_ FlashVector jFlash in
     if LateLight fi fj then
       let* _ := at_ Marked (jFlash - BeginFlash) in
       Ok (<[(jFlash - BeginFlash)%nat := true]> Marked)
     else Ok Marked) = Ok Marked' ->
  marks iFlash (S jFlash) Marked'.
Proof.
  intros Hij Hfi [Hlen H] Hrun.
  apply bind_Ok in Hrun as (marked & Hm & Hrun). apply at_Ok in Hm.
  assert (Hp : forall p, (BeginFlash + p < S jFlash)%nat <->
             (BeginFlash + p < jFlash)%nat \/ p = (jFlash - BeginFlash)%nat)
    by (intros; lia).
  destruct marked.
  - injection Hrun as <-. split; [done|]. intros p. rewrite H.
    split; [|intros [?|[?|[[? Hlt] ?]]]].
    + intros [?|[?|[[? ?] ?]]]; auto. right; right. split; [lia|done].
    + by left.
    + by right; left.
    + apply Hp in Hlt as [?| ->]; [right; right; split; [lia|done]|].
      by apply H.
  - apply bind_Ok in Hrun as (fj & Hfj & Hrun). apply at_Ok in Hfj.
    destruct (LateLight fi fj) eqn:HL.
    + inv_ok Hrun. subst Marked'. split; [by rewrite length_insert|].
      intros p. destruct (decide (p = (jFlash - BeginFlash)%nat)) as [->|Hne].
      * rewrite list_lookup_insert_eq by (eapply lookup_lt_Some; eauto).
        split; [intros _|done]. right; right.
        replace (BeginFlash + (jFlash - BeginFlash))%nat with jFlash by lia.
        split; [lia|]. by exists fi, fj.
      * rewrite list_lookup_insert_ne by done. rewrite H.
        split; (intros [?|[?|[[? ?] ?]]]; [by left|by right; left|]);
          right; right; (split; [lia|done]).
    + injection Hrun as <-. split; [done|]. intros p. rewrite H.
      split; (intros [?|[?|[[? Hlt] Hex]]]; [by left|by right; left|]).
      * right; right. split; [lia|done].
      * apply Hp in Hlt as [?| ->]; [right; right; split; [lia|done]|].
        exfalso. destruct Hex as (fi' & fj' & Hi' & Hj' & HL').
        replace (BeginFlash + (jFlash - BeginFlash))%nat with jFlash
          in Hj' by lia.
        congruence.
Qed.

(** The marks when [MarkFlashesForRemoval] returns. *)
Lemma MarkFlashesForRemoval_marks Marked :
  MarkFlashesForRemoval FlashVector BeginFlash Marked0 = Ok Marked ->
  length Marked = length Marked0
  /\ forall p, Marked !! p = Some true <->
       (Marked0 !! p = Some true
        \/ parent (length FlashVector) (BeginFlash + p)).
Proof.
  unfold MarkFlashesForRemoval.
  destruct (Nat.ltb_spec (length FlashVector) BeginFlash) as [|Hle];
    [discriminate|]. intros Hrun.
  apply (foldM_seq_invariant
           (fun i M => marks i (S i) M)) in Hrun.
  - replace (BeginFlash + (length FlashVector - BeginFlash))%nat
      with (length FlashVector) in Hrun by lia.
    destruct Hrun as [Hlen H]. split; [done|]. intros p. rewrite H.
    split; [intros [?|[?|[? _]]]|intros [?|?]]; auto. lia.
  - intros i M M' Hi HM Hbody.
    apply bind_Ok in Hbody as (fi & Hfi & Hbody). apply at_Ok in Hfi.
    apply marks_upto_next; [lia|].
    apply (foldM_seq_invariant (fun j M => marks i j M)) in Hbody.
    + replace (S i + (length FlashVector - S i))%nat
        with (length FlashVector) in Hbody; [done|].
      apply lookup_lt_Some in Hfi. lia.
    + intros j N N' Hj HN Hstep.
      eapply mark_inner_step; [| | |exact Hstep]; [lia|done|done].
    + done.
  - split; [done|]. intros p. split; [by left|].
    intros [?|[(i & ? & ? & ? & _)|[? _]]]; [done|lia|lia].
Qed.
End Marking.

(** ** The late-light significance *)

Lemma GetLikelihoodLateLight_reversed iPE iTime iWidth jPE jTime jWidth :
  (jTime < iTime)%R ->
  GetLikelihoodLateLight iPE iTime iWidth jPE jTime jWidth = Dbl.Fin 1e6.
Proof. intros H. unfold GetLikelihoodLateLight. by rewrite Rlt_b_true. Qed.

Lemma LateLight_time_order fi fj :
  LateLight fi fj = true -> (OpFlash.Time fi <= OpFlash.Time fj)%R.
Proof.
  intros HL. destruct (Rle_dec (OpFlash.Time fi) (OpFlash.Time fj)) as [|Hn];
    [done|exfalso].
  unfold LateLight in HL.
  rewrite GetLikelihoodLateLight_reversed in HL by lra.
  simpl in HL. rewrite Rlt_b_false in HL by lra. discriminate.
Qed.

(** With a nonzero parent width and a positive hypothetical PE, every
    double of the computation is a real number. *)
Lemma HypPE_finite iPE iTime iWidth jTime jWidth :
  iWidth <> 0%R ->
  HypPE iPE iTime iWidth jTime jWidth
  = Dbl.Fin (iPE * jWidth / iWidth * exp (- (jTime - iTime) / 1.6)).
Proof.
  intros Hw. unfold HypPE. simpl. destruct (Req_dec_T iWidth 0); done.
Qed.

Lemma GetLikelihoodLateLight_finite iPE iTime iWidth jPE jTime jWidth :
  (iTime <= jTime)%R -> iWidth <> 0%R ->
  let H := (iPE * jWidth / iWidth * exp (- (jTime - iTime) / 1.6))%R in
  (0 < H)%R ->
  GetLikelihoodLateLight iPE iTime iWidth jPE jTime jWidth
  = Dbl.Fin ((jPE - H) / sqrt H).
Proof.
  intros Ht Hw H HH. unfold GetLikelihoodLateLight.
  rewrite Rlt_b_false by done. rewrite HypPE_finite by done. fold H.
  simpl. rewrite Rlt_b_false by lra. simpl.
  destruct (Req_dec_T (sqrt H) 0) as [Hz|]; [|done].
  pose proof (sqrt_lt_R0 H HH). lra.
Qed.


(** The test between two flashes of width 1 at the same time: the
    hypothetical PE is the PE of the parent. *)
Lemma LateLight_same_time t iPE jPE :
  (0 < iPE)%R ->
  LateLight (flash_of t 1 iPE) (flash_of t 1 jPE)
  = Rlt_b ((0 + jPE - (0 + iPE)) / sqrt (0 + iPE)) 3.
Proof.
  intros Hi. unfold LateLight, OpFlash.TotalPE. simpl.
  assert (E : ((0 + iPE) * 1 / 1 * exp (- (t - t) / 1.6) = 0 + iPE)%R).
  { replace (- (t - t) / 1.6)%R with 0%R by lra. rewrite exp_0. lra. }
  rewrite GetLikelihoodLateLight_finite; rewrite ?E; try lra. done.
Qed.

(** Three flashes at the same time, of PE 1, 3.9 and 5: the second is late
    light of the first; the third is not late light of the first, but it
    is late light of the second. *)
Lemma cascade_tests :
  LateLight (flash_of 0 1 1) (flash_of 0 1 3.9) = true
  /\ LateLight (flash_of 0 1 1) (flash_of 0 1 5) = false
  /\ LateLight (flash_of 0 1 3.9) (flash_of 0 1 5) = true.
Proof.
  rewrite !LateLight_same_time by lra.
  assert (S1 : sqrt (0 + 1) = 1%R).
  { replace (0 + 1)%R with 1%R by lra. apply sqrt_1. }
  assert (S2 : (1 <= sqrt (0 + 3.9))%R).
  { rewrite <- sqrt_1. apply sqrt_le_1; lra. }
  rewrite S1. split; [apply Rlt_b_true; lra|].
  split; [apply Rlt_b_false; lra|].
  apply Rlt_b_true.
  assert (Hinv : (0 < / sqrt (0 + 3.9) <= 1)%R).
  { split; [apply Rinv_0_lt_compat; lra|].
    rewrite <- Rinv_1. apply Rinv_le_contravar; lra. }
  unfold Rdiv. nra.
Qed.

Lemma Mark_example :
  MarkFlashesForRemoval
    [flash_of 0 1 1; flash_of 0 1 3.9; flash_of 0 1 5] 0 (replicate 3 false)
  = Ok [false; true; true].
Proof.
  destruct cascade_tests as (H01 & H02 & H12).
  unfold MarkFlashesForRemoval. cbn -[LateLight flash_of].
  rewrite H01. cbn -[LateLight flash_of]. rewrite H02.
  cbn -[LateLight flash_of]. rewrite H12. reflexivity.
Qed.

(** ** The claims on the late-light filter *)

(** C8: in the marking pass, with every flash unmarked at the start, flash
    [j] ends up marked for removal exactly when some earlier flash [i] of
    the frame tests against it with a significance below 3.  Nothing is
    asked of the mark of [i]: a flash that is itself marked still serves as
    parent, as the second flash of [Mark_example] does for the third.  A
    flash that is already marked is skipped as candidate, which changes no
    mark. *)
Theorem MarkFlashesForRemoval_exactly FlashVector BeginFlash n Marked :
  MarkFlashesForRemoval FlashVector BeginFlash (replicate n false)
  = Ok Marked ->
  forall j fj, (BeginFlash <= j)%nat -> FlashVector !! j = Some fj ->
    (Marked !! (j - BeginFlash)%nat = Some true
     <-> exists i fi, (BeginFlash <= i < j)%nat
           /\ FlashVector !! i = Some fi /\ LateLight fi fj = true).
Proof.
  intros Hrun j fj Hj Hfj.
  apply MarkFlashesForRemoval_marks in Hrun as [_ H]. rewrite H.
  replace (BeginFlash + (j - BeginFlash))%nat with j by lia.
  split.
  - intros [H0|(i & fi & fj' & Hi & Hij & Hfi & Hfj' & HL)].
    + apply lookup_replicate in H0 as [? _]. discriminate.
    + exists i, fi. assert (fj' = fj) as -> by congruence.
      split; [lia|done].
  - intros (i & fi & Hi & Hfi & HL). right. exists i, fi, fj.
    pose proof (lookup_lt_Some _ _ _ Hfj). split; [lia|]. split; [lia|done].
Qed.

Lemma MarkFlashesForRemoval_exactly_witness :
  [false; true; true] !! (2 - 0)%nat = Some true
  <-> exists i fi, (0 <= i < 2)%nat
        /\ [flash_of 0 1 1; flash_of 0 1 3.9; flash_of 0 1 5] !! i = Some fi
        /\ LateLight fi (flash_of 0 1 5) = true.
Proof.
  apply (MarkFlashesForRemoval_exactly
           [flash_of 0 1 1; flash_of 0 1 3.9; flash_of 0 1 5] 0 3
           [false; true; true] Mark_example 2 (flash_of 0 1 5));
    [lia | reflexivity].
Defined.

(** C10: [GetLikelihoodLateLight] returns 1e6, which is not below 3, when
    the parent's time is strictly greater than the candidate's; so in the
    marking pass of any flash vector, in whatever order flashes of equal
    time stand, a flash that ends up marked has a parent at an earlier
    index whose time is not greater than its own. *)
Theorem late_light_never_backwards :
  (forall iPE iTime iWidth jPE jTime jWidth,
     (jTime < iTime)%R ->
     GetLikelihoodLateLight iPE iTime iWidth jPE jTime jWidth = Dbl.Fin 1e6
     /\ Dbl.ltb (GetLikelihoodLateLight iPE iTime iWidth jPE jTime jWidth)
                (Dbl.Fin 3) = false)
  /\ (forall fi fj, (OpFlash.Time fj < OpFlash.Time fi)%R ->
        LateLight fi fj = false)
  /\ (forall FlashVector BeginFlash n Marked j fj,
        MarkFlashesForRemoval FlashVector BeginFlash (replicate n false)
        = Ok Marked ->
        (BeginFlash <= j)%nat -> FlashVector !! j = Some fj ->
        Marked !! (j - BeginFlash)%nat = Some true ->
        exists i fi, (BeginFlash <= i < j)%nat
          /\ FlashVector !! i = Some fi /\ LateLight fi fj = true
          /\ (OpFlash.Time fi <= OpFlash.Time fj)%R).
Proof.
  split; [|split].
  - intros iPE iTime iWidth jPE jTime jWidth Hlt.
    rewrite GetLikelihoodLateLight_reversed by done. split; [done|].
    simpl. apply Rlt_b_false. lra.
  - intros fi fj Hlt. destruct (LateLight fi fj) eqn:HL; [|done].
    apply LateLight_time_order in HL. lra.
  - intros FlashVector BeginFlash n Marked j fj Hrun Hj Hfj Hm.
    apply MarkFlashesForRemoval_marks in Hrun as [_ H]. apply H in Hm.
    replace (BeginFlash + (j - BeginFlash))%nat with j in Hm by lia.
    destruct Hm as [H0|(i & fi & fj' & Hi & Hij & Hfi & Hfj' & HL)].
    + apply lookup_replicate in H0 as [? _]. discriminate.
    + assert (fj' = fj) as -> by congruence. exists i, fi.
      split; [lia|]. split; [done|]. split; [done|].
      by apply LateLight_time_order.
Qed.

Lemma late_light_never_backwards_witness :
  GetLikelihoodLateLight 100 5 1 100 0 1 = Dbl.Fin 1e6
  /\ exists i fi, (0 <= i < 2)%nat
       /\ [flash_of 0 1 1; flash_of 0 1 3.9; flash_of 0 1 5] !! i = Some fi
       /\ (OpFlash.Time fi <= OpFlash.Time (flash_of 0 1 5))%R.
Proof.
  destruct late_light_never_backwards as (Hret & _ & Hmark). split.
  - apply (Hret 100 5 1 100 0 1)%R. lra.
  - destruct (Hmark [flash_of 0 1 1; flash_of 0 1 3.9; flash_of 0 1 5]
                    0%nat 3%nat [false; true; true] 2%nat (flash_of 0 1 5)
                    Mark_example)
      as (i & fi & Hi & Hfi & _ & Ht); [lia|reflexivity|reflexivity|].
    exists i, fi. auto.
Defined.

(** * The flash refiner *)

(** ** The flags of used hits *)

Lemma unused_le_length Used : (unused Used <= length Used)%nat.
Proof. induction Used as [|[] U IH]; simpl; lia. Qed.

Lemma unused_insert_true Used i :
  Used !! i = Some false -> S (unused (<[i := true]> Used)) = unused Used.
Proof.
  revert i. induction Used as [|b U IH]; intros [|i] H; simpl in *;
    try discriminate.
  - injection H as ->. done.
  - rewrite <- (IH i H). destruct b; simpl; lia.
Qed.

Lemma unused_keeps_used Used Used' :
  keeps_used Used Used' -> (unused Used' <= unused Used)%nat.
Proof.
  intros [Hlen H]. revert Used' Hlen H.
  induction Used as [|b U IH]; intros [|b' U'] Hlen H; simpl in *;
    try discriminate; [done|].
  assert (IH' : (unused U' <= unused U)%nat).
  { apply IH; [lia|]. intros x Hx. apply (H (S x) Hx). }
  destruct b, b'; simpl; try lia.
  specialize (H 0%nat eq_refl). discriminate.
Qed.

Lemma keeps_used_refl Used : keeps_used Used Used.
Proof. by split. Qed.

Lemma keeps_used_trans U1 U2 U3 :
  keeps_used U1 U2 -> keeps_used U2 U3 -> keeps_used U1 U3.
Proof. intros [L1 H1] [L2 H2]. split; [congruence|auto]. Qed.

Lemma keeps_used_insert_true Used i :
  keeps_used Used (<[i := true]> Used).
Proof.
  split; [by rewrite length_insert|]. intros x Hx.
  destruct (decide (x = i)) as [->|].
  - rewrite list_lookup_insert_eq; [done|]. by eapply lookup_lt_Some.
  - by rewrite list_lookup_insert_ne.
Qed.

(** ** Sums of PE *)

Lemma SumPE_snoc HitVector hits x sum h :
  SumPE HitVector hits = Ok sum -> HitVector !! x = Some h ->
  SumPE HitVector (hits ++ [x]) = Ok (sum + OpHit.PE h)%R.
Proof.
  intros Hs Hh. unfold SumPE in *. rewrite foldM_app, Hs. simpl.
  apply at_Ok in Hh. by rewrite Hh.
Qed.

(** ** Seed selection *)

Lemma elem_of_hits_of HitsBySize cls x :
  cls ∈ HitsBySize -> x ∈ cls.2 -> x ∈ hits_of HitsBySize.
Proof.
  intros Hc Hx. unfold hits_of. apply list_elem_of_join.
  exists cls.2. split; [done|]. apply list_elem_of_fmap. by exists cls.
Qed.

Lemma FindSeedHit_class_spec ids HitVector st found :
  FindSeedHit_class ids HitVector st = Ok found ->
  match found with
  | None => True
  | Some st' =>
      exists seed h, seed ∈ ids /\ HitsUsed st !! seed = Some false
        /\ HitVector !! seed = Some h
        /\ st' = mkRefineState (<[seed := true]> (HitsUsed st)) [seed]
                   (OpHit.PE h)
                   (OpHit.PeakTime h + 0.5 * OpHit.Width h)%R
                   (OpHit.PeakTime h - 0.5 * OpHit.Width h)%R
  end.
Proof.
  induction ids as [|x ids IH]; simpl; intros H.
  - injection H as <-. done.
  - apply bind_Ok in H as (used & Hu & H). apply at_Ok in Hu.
    destruct used.
    + specialize (IH H). destruct found as [st'|]; [|done].
      destruct IH as (seed & h & Hin & ?). exists seed, h.
      split; [by right|done].
    + apply bind_Ok in H as (h & Hh & H). apply at_Ok in Hh.
      injection H as <-. exists x, h. split; [by left|done].
Qed.

Lemma FindSeedHit_spec HitsBySize HitVector st st' :
  FindSeedHit HitsBySize HitVector st = Ok st' ->
  st' = st
  \/ exists seed h, seed ∈ hits_of HitsBySize
       /\ HitsUsed st !! seed = Some false /\ HitVector !! seed = Some h
       /\ st' = mkRefineState (<[seed := true]> (HitsUsed st)) [seed]
                  (OpHit.PE h)
                  (OpHit.PeakTime h + 0.5 * OpHit.Width h)%R
                  (OpHit.PeakTime h - 0.5 * OpHit.Width h)%R.
Proof.
  induction HitsBySize as [|cls HBS IH]; simpl; intros H.
  - left. congruence.
  - apply bind_Ok in H as (found & Hf & H).
    apply FindSeedHit_class_spec in Hf. destruct found as [st1|].
    + injection H as <-. destruct Hf as (seed & h & Hin & ?). right.
      exists seed, h. split; [|done].
      eapply elem_of_hits_of; [by left|done].
    + destruct (IH H) as [?|(seed & h & Hin & ?)]; [by left|right].
      exists seed, h. split; [|done]. unfold hits_of in *. simpl.
      apply elem_of_app. by right.
Qed.

(** The state right after a seed was taken is a grown state. *)
Lemma Grown_seed HitVector HitsBySize Used seed h :
  Used !! seed = Some false -> HitVector !! seed = Some h ->
  Grown HitVector HitsBySize (<[seed := true]> Used) seed
        (mkRefineState (<[seed := true]> Used) [seed] (OpHit.PE h)
                       (OpHit.PeakTime h + 0.5 * OpHit.Width h)%R
                       (OpHit.PeakTime h - 0.5 * OpHit.Width h)%R).
Proof.
  intros Hu Hh. split; [apply keeps_used_refl|]. split_and!; simpl.
  - exists []. split; [done|]. intros x Hx. by apply elem_of_nil in Hx.
  - intros x Hx. apply list_elem_of_singleton in Hx as ->.
    rewrite list_lookup_insert_eq; [done|]. by eapply lookup_lt_Some.
  - exists (0 + OpHit.PE h)%R. split; [|lra].
    unfold SumPE. simpl. apply at_Ok in Hh. by rewrite Hh.
  - lia.
Qed.

(** ** Code without loops of its own does not run out of fuel *)

Lemma bind_no_fuel {A B : Type} (m : result A) (k : A -> result B) :
  m <> Throw out_of_fuel -> (forall a, k a <> Throw out_of_fuel) ->
  bind m k <> Throw out_of_fuel.
Proof. destruct m as [a|e]; simpl; [auto|congruence]. Qed.

Lemma foldM_no_fuel {A S : Type} (body : S -> A -> result S) (l : list A) :
  (forall s a, body s a <> Throw out_of_fuel) ->
  forall s, foldM body l s <> Throw out_of_fuel.
Proof.
  intros Hbody. induction l as [|a l IH]; intros s; simpl; [done|].
  apply bind_no_fuel; auto.
Qed.

Lemma at_no_fuel {A : Type} (v : list A) (i : nat) :
  at_ v i <> Throw out_of_fuel.
Proof. unfold at_. by destruct (v !! i). Qed.

Lemma AddHitToFlash_no_fuel HitID h WidthTolerance st :
  AddHitToFlash HitID h WidthTolerance st <> Throw out_of_fuel.
Proof.
  unfold AddHitToFlash. apply bind_no_fuel; [apply at_no_fuel|].
  intros []; [done|]. by destruct (Rlt_b _ _).
Qed.

Lemma GrowPass_no_fuel HitsBySize HitVector WidthTolerance st :
  GrowPass HitsBySize HitVector WidthTolerance st <> Throw out_of_fuel.
Proof.
  unfold GrowPass. apply foldM_no_fuel. intros s cls.
  apply foldM_no_fuel. intros t x.
  apply bind_no_fuel; [apply at_no_fuel|]. intros h.
  apply AddHitToFlash_no_fuel.
Qed.

Lemma FindSeedHit_no_fuel HitsBySize HitVector st :
  FindSeedHit HitsBySize HitVector st <> Throw out_of_fuel.
Proof.
  induction HitsBySize as [|cls HBS IH]; simpl; [done|].
  apply bind_no_fuel; [|by intros []].
  induction cls.2 as [|x ids IHx]; simpl; [done|].
  apply bind_no_fuel; [apply at_no_fuel|]. intros []; [done|].
  apply bind_no_fuel; [apply at_no_fuel|done].
Qed.

Lemma CheckAndStoreFlash_no_fuel Refined hits pe thr Used :
  CheckAndStoreFlash Refined hits pe thr Used <> Throw out_of_fuel.
Proof.
  unfold CheckAndStoreFlash. destruct (Rle_b _ _); [done|].
  destruct (_ =? _)%nat; [done|].
  apply bind_no_fuel; [|done]. apply foldM_no_fuel. intros s a.
  apply bind_no_fuel; [apply at_no_fuel|done].
Qed.

(** ** Growth *)

Section Growth.
Variable HitVector : list OpHit.t.
Variable HitsBySize : list (R * list nat).
Variable WidthTolerance : R.
Variable Used1 : list bool.
Variable seed : nat.

Local Abbreviation Grown := (Grown HitVector HitsBySize Used1 seed).

Lemma AddHitToFlash_Grown HitID h st st' :
  HitID ∈ hits_of HitsBySize -> HitVector !! HitID = Some h ->
  Grown st -> AddHitToFlash HitID h WidthTolerance st = Ok st' ->
  Grown st'.
Proof.
  intros Hin Hh HG H. unfold AddHitToFlash in H.
  apply bind_Ok in H as (used & Hu & H). apply at_Ok in Hu.
  destruct used; [by injection H as <-|].
  destruct (Rlt_b _ _); injection H as <-; [done|].
  destruct HG as ([Hlen Hk] & (rest & Hrest & Hr) & Hall & (sum & Hs & Hsum)
                  & Hcount).
  assert (HU1 : Used1 !! HitID = Some false).
  { destruct (Used1 !! HitID) as [[]|] eqn:E.
    - apply Hk in E. congruence.
    - done.
    - apply lookup_ge_None in E. apply lookup_lt_Some in Hu. lia. }
  split; [eapply keeps_used_trans;
           [by split|apply keeps_used_insert_true]|].
  split_and!; simpl.
  - exists (rest ++ [HitID]). split; [by rewrite Hrest|].
    intros x Hx. apply elem_of_app in Hx as [Hx|Hx]; [by apply Hr|].
    apply list_elem_of_singleton in Hx as ->. done.
  - intros x Hx. apply elem_of_app in Hx as [Hx|Hx].
    + apply keeps_used_insert_true. by apply Hall.
    + apply list_elem_of_singleton in Hx as ->.
      rewrite list_lookup_insert_eq; [done|]. by eapply lookup_lt_Some.
  - exists (sum + OpHit.PE h)%R. split; [by apply SumPE_snoc|].
    by rewrite Hsum.
  - rewrite length_app. simpl.
    pose proof (unused_insert_true _ _ Hu). lia.
Qed.

Lemma GrowPass_Grown st st' :
  Grown st -> GrowPass HitsBySize HitVector WidthTolerance st = Ok st' ->
  Grown st'.
Proof.
  unfold GrowPass. apply foldM_invariant.
  intros s cls s' Hcls Hs. apply foldM_invariant; [|done].
  intros t x t' Hx Ht Hstep.
  apply bind_Ok in Hstep as (h & Hh & Hstep). apply at_Ok in Hh.
  eapply AddHitToFlash_Grown; [| | |exact Hstep]; [|done|done].
  by eapply elem_of_hits_of.
Qed.

Lemma GrowLoop_Grown fuel N st st' :
  Grown st ->
  GrowLoop fuel HitsBySize HitVector WidthTolerance N st = Ok st' ->
  Grown st'.
Proof.
  revert N st. induction fuel as [|fuel IH]; intros N st HG H; simpl in H;
    destruct (N <? _)%nat; try discriminate; try (by injection H as <-).
  apply bind_Ok in H as (st1 & H1 & H).
  eapply IH; [|exact H]. by eapply GrowPass_Grown.
Qed.

(** The growth loop ends: a pass that is followed by another pass has
    used up a hit. *)
Lemma GrowLoop_terminates fuel N st :
  Grown st -> (unused (HitsUsed st) < fuel)%nat ->
  terminates
    (fun fuel => GrowLoop fuel HitsBySize HitVector WidthTolerance N st)
    fuel.
Proof.
  revert N st. induction fuel as [|fuel IH]; intros N st HG Hfuel; [lia|].
  unfold terminates. simpl.
  destruct (Nat.ltb_spec N (length (HitsThisRefinedFlash st))) as [HN|HN].
  2:{ split; [done|]. intros [|f] _; simpl;
        destruct (Nat.ltb_spec N (length (HitsThisRefinedFlash st)));
        (lia || done). }
  destruct (GrowPass HitsBySize HitVector WidthTolerance st) as [st1|e]
    eqn:Hpass; simpl.
  2:{ assert (e <> out_of_fuel)
        by (intros ->; by eapply GrowPass_no_fuel).
      split; [congruence|]. intros [|f] Hf; [lia|]. simpl.
      destruct (Nat.ltb_spec N (length (HitsThisRefinedFlash st))); [|lia].
      by rewrite Hpass. }
  pose proof (GrowPass_Grown st st1 HG Hpass) as HG1.
  destruct (Nat.ltb_spec (length (HitsThisRefinedFlash st))
              (length (HitsThisRefinedFlash st1))) as [Hmore|Hsame].
  - assert (Hdec : (unused (HitsUsed st1) < fuel)%nat).
    { destruct HG as (_ & _ & _ & _ & Hc), HG1 as (_ & _ & _ & _ & Hc1).
      lia. }
    destruct (IH (length (HitsThisRefinedFlash st)) st1 HG1 Hdec)
      as [Hne Hst].
    split; [done|]. intros [|f] Hf; [lia|]. simpl.
    destruct (Nat.ltb_spec N (length (HitsThisRefinedFlash st))); [|lia].
    rewrite Hpass. simpl. apply Hst. lia.
  - assert (Hend : forall f, GrowLoop f HitsBySize HitVector WidthTolerance
                     (length (HitsThisRefinedFlash st)) st1 = Ok st1).
    { intros [|f]; simpl;
        destruct (Nat.ltb_spec (length (HitsThisRefinedFlash st))
                    (length (HitsThisRefinedFlash st1))); (lia || done). }
    rewrite Hend. split; [done|]. intros [|f] Hf; [lia|]. simpl.
    destruct (Nat.ltb_spec N (length (HitsThisRefinedFlash st))); [|lia].
    rewrite Hpass. simpl. apply Hend.
Qed.
End Growth.

(** ** Pairwise disjoint hit sets *)

Lemma PairwiseDisjoint_nil : PairwiseDisjoint [].
Proof. intros i j a b _ H. by rewrite lookup_nil in H. Qed.

Lemma PairwiseDisjoint_app l1 l2 :
  PairwiseDisjoint l1 -> PairwiseDisjoint l2 ->
  (forall a b x, a ∈ l1 -> b ∈ l2 -> x ∈ a -> x ∉ b) ->
  PairwiseDisjoint (l1 ++ l2).
Proof.
  intros H1 H2 H12 i j a b Hij Ha Hb x Hxa Hxb.
  apply lookup_app_Some in Ha as [Ha|[Hi Ha]];
    apply lookup_app_Some in Hb as [Hb|[Hj Hb]].
  - by apply (H1 i j a b Hij Ha Hb x).
  - apply (H12 a b x); [by eapply list_elem_of_lookup_2
                       |by eapply list_elem_of_lookup_2|done|done].
  - apply (H12 b a x); [by eapply list_elem_of_lookup_2
                       |by eapply list_elem_of_lookup_2|done|done].
  - assert (Hne : (i - length l1)%nat <> (j - length l1)%nat) by lia.
    by apply (H2 _ _ a b Hne Ha Hb x).
Qed.

Lemma PairwiseDisjoint_snoc l g :
  PairwiseDisjoint l -> (forall s x, s ∈ l -> x ∈ s -> x ∉ g) ->
  PairwiseDisjoint (l ++ [g]).
Proof.
  intros Hl Hg. apply PairwiseDisjoint_app; [done| |].
  - intros [|i] [|j] a b Hij Ha Hb; simpl in *; try done.
  - intros a b x Ha Hb Hx. apply list_elem_of_singleton in Hb as ->.
    by apply (Hg a).
Qed.

Lemma PairwiseDisjoint_cons_inv c l :
  PairwiseDisjoint (c :: l) ->
  PairwiseDisjoint l /\ forall b x, b ∈ l -> x ∈ c -> x ∉ b.
Proof.
  intros H. split.
  - intros i j a b Hij Ha Hb. apply (H (S i) (S j)); [lia|done..].
  - intros b x Hb Hx. apply list_elem_of_lookup in Hb as [j Hj].
    apply (H 0%nat (S j) c b); [lia|done..].
Qed.

Lemma PairwiseDisjoint_delete l k :
  PairwiseDisjoint l -> PairwiseDisjoint (delete k l).
Proof.
  intros H i j a b Hij Ha Hb.
  assert (Hat : forall n c, delete k l !! n = Some c ->
            exists n', l !! n' = Some c
              /\ n' = if decide (n < k)%nat then n else S n).
  { intros n c Hc. rewrite list_lookup_delete in Hc. eauto. }
  apply Hat in Ha as (i' & Ha & Hi'). apply Hat in Hb as (j' & Hb & Hj').
  apply (H i' j' a b); [|done..].
  destruct (decide (i < k)%nat), (decide (j < k)%nat); lia.
Qed.

Lemma PairwiseDisjoint_offset l n :
  PairwiseDisjoint l ->
  PairwiseDisjoint (map (map (fun HitIndex => (HitIndex + n)%nat)) l).
Proof.
  intros H i j a b Hij Ha Hb x Hxa Hxb.
  change (map (map (λ HitIndex : nat, (HitIndex + n)%nat)) l)
    with ((map (λ HitIndex : nat, (HitIndex + n)%nat)) <$> l) in Ha, Hb.
  rewrite list_lookup_fmap in Ha, Hb.
  destruct (l !! i) as [a0|] eqn:Ea; [|done].
  destruct (l !! j) as [b0|] eqn:Eb; [|done].
  simpl in Ha, Hb. injection Ha as <-. injection Hb as <-.
  apply list_elem_of_fmap in Hxa as (y & -> & Hy).
  apply list_elem_of_fmap in Hxb as (z & Hz & Hz').
  assert (z = y) as -> by lia.
  by apply (H i j a0 b0 Hij Ea Eb y).
Qed.

(** ** Storing or releasing a grown group *)

Lemma CheckAndStoreFlash_spec HitVector HitsBySize Used1 seed st Refined thr
    Refined' Used' :
  Grown HitVector HitsBySize Used1 seed st ->
  CheckAndStoreFlash Refined (HitsThisRefinedFlash st) (PEAccumulated st) thr
                     (HitsUsed st) = Ok (Refined', Used') ->
  keeps_used Used1 Used'
  /\ (Refined' = Refined
      \/ Refined' = Refined ++ [HitsThisRefinedFlash st]
         /\ Used' = HitsUsed st /\ (thr <= PEAccumulated st)%R).
Proof.
  intros (Hk & (rest & Hrest & Hr) & _) H. unfold CheckAndStoreFlash in H.
  destruct (Rle_b_spec thr (PEAccumulated st)).
  { injection H as <- <-. split; [done|]. by right. }
  destruct (_ =? _)%nat.
  { injection H as <- <-. split; [done|]. by left. }
  apply bind_Ok in H as (U & HU & H). injection H as <- <-.
  split; [|by left]. rewrite Hrest in HU. simpl in HU. rewrite drop_0 in HU.
  revert HU. apply foldM_invariant; [|done].
  intros U0 x U1 Hx [Hlen HU0] Hstep.
  apply bind_Ok in Hstep as (? & _ & Hstep). injection Hstep as <-.
  split; [by rewrite length_insert|]. intros y Hy.
  rewrite list_lookup_insert_ne; [by apply HU0|].
  intros ->. destruct (Hr _ Hx) as [Hfalse _]. congruence.
Qed.

(** ** The outer loop of the refiner *)

Section RefineLoop.
Variable HitVector : list OpHit.t.
Variable HitsBySize : list (R * list nat).
Variable WidthTolerance FlashThreshold : R.

(** One turn of the outer loop that finds a seed: the group is grown,
    then stored or released, and what was used stays used, with the seed
    in addition. *)
Lemma refine_turn growfuel Used seed h st Refined Refined' Used' :
  Used !! seed = Some false -> HitVector !! seed = Some h ->
  seed ∈ hits_of HitsBySize ->
  GrowLoop growfuel HitsBySize HitVector WidthTolerance 0
    (mkRefineState (<[seed := true]> Used) [seed] (OpHit.PE h)
                   (OpHit.PeakTime h + 0.5 * OpHit.Width h)%R
                   (OpHit.PeakTime h - 0.5 * OpHit.Width h)%R) = Ok st ->
  CheckAndStoreFlash Refined (HitsThisRefinedFlash st) (PEAccumulated st)
                     FlashThreshold (HitsUsed st) = Ok (Refined', Used') ->
  keeps_used (<[seed := true]> Used) Used'
  /\ (unused Used' < unused Used)%nat
  /\ forall Refined0,
       Stored HitVector HitsBySize FlashThreshold Refined0 Refined Used ->
       Stored HitVector HitsBySize FlashThreshold Refined0 Refined' Used'.
Proof.
  intros Hu Hh Hin Hgrow Hcheck.
  pose proof (Grown_seed HitVector HitsBySize Used seed h Hu Hh) as HG1.
  pose proof (GrowLoop_Grown _ _ _ _ _ _ _ _ _ HG1 Hgrow) as HG.
  destruct (CheckAndStoreFlash_spec _ _ _ _ _ _ _ _ _ HG Hcheck)
    as [Hk Hcases].
  split; [done|]. split.
  { pose proof (unused_keeps_used _ _ Hk).
    pose proof (unused_insert_true _ _ Hu). lia. }
  intros Refined0 (new & -> & Hpd & Hthr & Hmem).
  assert (Hkeep : forall x, Used !! x = Some true -> Used' !! x = Some true).
  { intros x Hx. apply Hk. by apply keeps_used_insert_true. }
  destruct Hcases as [->|(-> & -> & Hle)].
  - exists new. split_and!; try done.
    intros s x Hs Hx. destruct (Hmem s x Hs Hx). auto.
  - destruct HG as (_ & (rest & Hrest & Hr) & Hall & (sum & Hsum & Hacc)
                    & _).
    exists (new ++ [HitsThisRefinedFlash st]). split_and!.
    + by rewrite app_assoc.
    + apply PairwiseDisjoint_snoc; [done|]. intros s x Hs Hx Hg.
      destruct (Hmem s x Hs Hx) as [Hux _].
      rewrite Hrest in Hg. apply elem_of_cons in Hg as [->|Hg];
        [congruence|].
      destruct (Hr x Hg) as [Hf _].
      pose proof (keeps_used_insert_true Used seed) as [_ Hk1].
      apply Hk1 in Hux. congruence.
    + apply Forall_app. split; [done|]. constructor; [|done].
      exists sum. split; [done|]. by rewrite Hacc.
    + intros s x Hs Hx. apply elem_of_app in Hs as [Hs|Hs].
      * destruct (Hmem s x Hs Hx). auto.
      * apply list_elem_of_singleton in Hs as ->. split; [by apply Hall|].
        rewrite Hrest in Hx. apply elem_of_cons in Hx as [->|Hx]; [done|].
        by apply Hr.
Qed.

Lemma RefineLoop_Stored fuel growfuel Refined0 Refined Used Result :
  Stored HitVector HitsBySize FlashThreshold Refined0 Refined Used ->
  RefineLoop fuel growfuel HitsBySize HitVector WidthTolerance
             FlashThreshold Refined Used = Ok Result ->
  exists Used', Stored HitVector HitsBySize FlashThreshold Refined0 Result
                       Used'.
Proof.
  revert Refined Used. induction fuel as [|fuel IH];
    intros Refined Used HS H; simpl in H; [discriminate|].
  apply bind_Ok in H as (st1 & Hseed & H).
  apply FindSeedHit_spec in Hseed as [->|(seed & h & Hin & Hu & Hh & ->)];
    simpl in H.
  { injection H as <-. eauto. }
  apply bind_Ok in H as (st & Hgrow & H).
  apply bind_Ok in H as ([Refined' Used'] & Hcheck & H).
  destruct (refine_turn _ _ _ _ _ _ _ _ Hu Hh Hin Hgrow Hcheck)
    as (_ & _ & Hstored).
  eapply IH; [|exact H]. by apply Hstored.
Qed.

(** The outer loop ends: every turn that finds a seed leaves fewer unused
    hits. *)
Lemma RefineLoop_terminates fuel growfuel Refined Used :
  (unused Used < fuel)%nat -> (length Used < growfuel)%nat ->
  RefineLoop fuel growfuel HitsBySize HitVector WidthTolerance
             FlashThreshold Refined Used <> Throw out_of_fuel
  /\ forall fuel' growfuel',
       (fuel <= fuel')%nat -> (growfuel <= growfuel')%nat ->
       RefineLoop fuel' growfuel' HitsBySize HitVector WidthTolerance
                  FlashThreshold Refined Used
       = RefineLoop fuel growfuel HitsBySize HitVector WidthTolerance
                    FlashThreshold Refined Used.
Proof.
  revert Refined Used. induction fuel as [|fuel IH];
    intros Refined Used Hfuel Hgrow; [lia|].
  assert (Hsplit : forall P : Prop,
            (forall fuel', (fuel <= fuel')%nat -> P) ->
            forall fuel', (S fuel <= fuel')%nat -> P).
  { intros P HP [|f] Hf; [lia|]. apply (HP f). lia. }
  simpl.
  destruct (FindSeedHit HitsBySize HitVector
              (mkRefineState Used [] 0 0 0)) as [st1|e] eqn:Hseed; simpl.
  2:{ pose proof (FindSeedHit_no_fuel HitsBySize HitVector
                    (mkRefineState Used [] 0 0 0)).
      split; [congruence|]. intros [|f] g Hf Hg; [lia|]. simpl.
      by rewrite Hseed. }
  pose proof Hseed as Hspec.
  apply FindSeedHit_spec in Hspec
    as [->|(seed & h & Hin & Hu & Hh & ->)]; simpl.
  { split; [done|]. intros [|f] g Hf Hg; [lia|]. simpl.
    by rewrite Hseed. }
  simpl in Hu.
  pose proof (Grown_seed HitVector HitsBySize Used seed h Hu Hh) as HG1.
  destruct (GrowLoop_terminates HitVector HitsBySize WidthTolerance _ _
              growfuel 0 _ HG1) as [Hgne Hgst].
  { simpl. pose proof (unused_le_length (<[seed := true]> Used)).
    rewrite length_insert in *. lia. }
  destruct (GrowLoop growfuel _ _ _ _ _) as [st|e] eqn:Hgrowth; simpl.
  2:{ split; [congruence|]. intros [|f] g Hf Hg; [lia|]. simpl.
      rewrite Hseed. simpl. rewrite (Hgst g Hg). done. }
  destruct (CheckAndStoreFlash Refined (HitsThisRefinedFlash st)
              (PEAccumulated st) FlashThreshold (HitsUsed st))
    as [[Refined' Used']|e] eqn:Hcheck; simpl.
  2:{ pose proof (CheckAndStoreFlash_no_fuel Refined
                    (HitsThisRefinedFlash st) (PEAccumulated st)
                    FlashThreshold (HitsUsed st)).
      split; [congruence|]. intros [|f] g Hf Hg; [lia|]. simpl.
      rewrite Hseed. simpl. rewrite (Hgst g Hg). simpl.
      by rewrite Hcheck. }
  destruct (refine_turn _ _ _ _ _ _ _ _ Hu Hh Hin Hgrowth Hcheck)
    as ([Hlen _] & Hless & _).
  rewrite length_insert in Hlen.
  destruct (IH Refined' Used') as [Hne Hst]; [lia|lia|].
  split; [done|]. intros [|f] g Hf Hg; [lia|]. simpl.
  rewrite Hseed. simpl. rewrite (Hgst g Hg). simpl. rewrite Hcheck.
  apply Hst; lia.
Qed.
End RefineLoop.

Lemma FillHitsBySize_no_fuel HitsThisFlash HitVector :
  FillHitsBySize HitsThisFlash HitVector <> Throw out_of_fuel.
Proof.
  unfold FillHitsBySize. apply foldM_no_fuel. intros s a.
  apply bind_no_fuel; [apply at_no_fuel|done].
Qed.

(** C7: [RefineHitsInFlash] terminates on every input.  With one turn of
    each loop per hit of the hit vector, and one more, the call does not
    run out of fuel, and more fuel does not change its outcome.  (Each
    turn of the outer loop that finds a seed leaves strictly fewer unused
    hits, [refine_turn]; a growth pass that is followed by another one has
    used up a hit, [GrowLoop_terminates]; the loop returns when no seed is
    found.) *)
Theorem RefineHitsInFlash_terminates HitsThisFlash HitVector Refined
    WidthTolerance FlashThreshold :
  RefineHitsInFlash (S (length HitVector)) HitsThisFlash HitVector Refined
                    WidthTolerance FlashThreshold <> Throw out_of_fuel
  /\ forall fuel, (S (length HitVector) <= fuel)%nat ->
       RefineHitsInFlash fuel HitsThisFlash HitVector Refined WidthTolerance
                         FlashThreshold
       = RefineHitsInFlash (S (length HitVector)) HitsThisFlash HitVector
                           Refined WidthTolerance FlashThreshold.
Proof.
  unfold RefineHitsInFlash.
  destruct (FillHitsBySize HitsThisFlash HitVector) as [HitsBySize|e] eqn:E;
    simpl.
  2:{ pose proof (FillHitsBySize_no_fuel HitsThisFlash HitVector).
      split; [congruence|done]. }
  destruct (RefineLoop_terminates HitVector HitsBySize WidthTolerance
              FlashThreshold (S (length HitVector)) (S (length HitVector))
              Refined (replicate (length HitVector) false)) as [Hne Hst].
  - pose proof (unused_le_length (replicate (length HitVector) false)).
    rewrite length_replicate in *. lia.
  - rewrite length_replicate. lia.
  - split; [done|]. intros fuel Hfuel. by apply Hst.
Qed.

(** * From hits to hit sets *)

(** ** The flash assigner *)

Lemma FillHitsThisFlash_spec Contributors Bin NHits_prev Cl hits :
  FillHitsThisFlash Contributors Bin NHits_prev Cl [] = Ok hits ->
  forall x, x ∈ hits ->
    (NHits_prev <= x)%nat /\ Cl !! (x - NHits_prev)%nat = Some (-1)%Z.
Proof.
  unfold FillHitsThisFlash. intros H.
  apply bind_Ok in H as (c & _ & H). revert H.
  apply (foldM_invariant
           (fun l => forall x, x ∈ l ->
              (NHits_prev <= x)%nat
              /\ Cl !! (x - NHits_prev)%nat = Some (-1)%Z));
    [|intros x Hx; by apply elem_of_nil in Hx].
  intros l y l' _ Hl Hstep.
  apply bind_Ok in Hstep as (z & Hz & Hstep). apply at_off_Ok in Hz.
  destruct (Z.eqb_spec z (-1)); injection Hstep as <-; [|done].
  intros x Hx. apply elem_of_app in Hx as [Hx|Hx]; [by apply Hl|].
  apply list_elem_of_singleton in Hx as ->. by subst z.
Qed.

(** The claiming loop of [ClaimHits]: claimed flags stay, and every hit of
    the flash ends up claimed. *)
Lemma claim_loop_spec NHits_prev (stamp : Z) hits :
  stamp <> (-1)%Z ->
  forall Cl Cl',
    foldM (fun Cl Hit =>
             let* claimed := at_off Cl Hit NHits_prev in
             if (claimed =? -1)%Z
             then Ok (<[(Hit - NHits_prev)%nat := stamp]> Cl)
             else Ok Cl) hits Cl = Ok Cl' ->
    (forall p z, Cl !! p = Some z -> z <> (-1)%Z -> Cl' !! p = Some z)
    /\ forall x, x ∈ hits ->
         (NHits_prev <= x)%nat
         /\ exists z, Cl' !! (x - NHits_prev)%nat = Some z /\ z <> (-1)%Z.
Proof.
  intros Hstamp. induction hits as [|y hits IH]; intros Cl Cl' H; simpl in H.
  - injection H as <-. split; [done|]. intros x Hx. by apply elem_of_nil in Hx.
  - apply bind_Ok in H as (Cl1 & Hstep & H).
    apply bind_Ok in Hstep as (z & Hz & Hstep).
    apply at_off_Ok in Hz as [Hy Hz].
    destruct (IH Cl1 Cl' H) as [Hkeep Hall].
    assert (H1 : (forall p w, Cl !! p = Some w -> w <> (-1)%Z ->
                              Cl1 !! p = Some w)
                 /\ exists w, Cl1 !! (y - NHits_prev)%nat = Some w
                              /\ w <> (-1)%Z).
    { destruct (Z.eqb_spec z (-1)); injection Hstep as <-.
      - split.
        + intros p w Hp Hw. rewrite list_lookup_insert_ne; [done|].
          intros <-. congruence.
        + exists stamp. split; [|done]. rewrite list_lookup_insert_eq; [done|].
          by eapply lookup_lt_Some.
      - split; [done|]. by exists z. }
    destruct H1 as [Hkeep1 (w & Hw & Hwne)]. split.
    + intros p v Hp Hv. apply Hkeep; [|done]. by apply Hkeep1.
    + intros x Hx. apply elem_of_cons in Hx as [->|Hx]; [|by apply Hall].
      split; [done|]. exists w. split; [|done]. by apply Hkeep.
Qed.

Lemma ClaimHits_Claimed HitVector thr NHits_prev hits HitsPerFlash Cl
    HitsPerFlash' Cl' :
  Claimed HitVector thr NHits_prev HitsPerFlash Cl ->
  (forall x, x ∈ hits ->
     (NHits_prev <= x)%nat /\ Cl !! (x - NHits_prev)%nat = Some (-1)%Z) ->
  ClaimHits HitVector hits thr HitsPerFlash NHits_prev Cl
  = Ok (HitsPerFlash', Cl') ->
  Claimed HitVector thr NHits_prev HitsPerFlash' Cl'.
Proof.
  intros (Hpd & Hthr & Hcl) Hfree H. unfold ClaimHits in H.
  apply bind_Ok in H as (sum & Hsum & H).
  destruct (Rlt_b_spec sum thr); [by injection H as <- <-|].
  apply bind_Ok in H as (Cl1 & Hloop & H). injection H as <- <-.
  apply claim_loop_spec in Hloop as [Hkeep Hall].
  2:{ rewrite length_app. simpl. lia. }
  split_and!.
  - apply PairwiseDisjoint_snoc; [done|]. intros s x Hs Hx Hin.
    destruct (Hcl s x Hs Hx) as (_ & z & Hz & Hne).
    destruct (Hfree x Hin) as [_ Hf]. congruence.
  - apply Forall_app. split; [done|]. constructor; [|done].
    exists sum. split; [done|lra].
  - intros s x Hs Hx. apply elem_of_app in Hs as [Hs|Hs].
    + destruct (Hcl s x Hs Hx) as (Hle & z & Hz & Hne). split; [done|].
      exists z. split; [|done]. by apply Hkeep.
    + apply list_elem_of_singleton in Hs as ->. by apply Hall.
Qed.

Lemma AssignHitsToFlash_spec F1 F2 B1 B2 C1 C2 NHits HitVector thr
    HitsPerFlash :
  AssignHitsToFlash F1 F2 B1 B2 C1 C2 NHits HitVector [] thr
  = Ok HitsPerFlash ->
  PairwiseDisjoint HitsPerFlash
  /\ Forall (ReachesThreshold HitVector thr) HitsPerFlash.
Proof.
  unfold AssignHitsToFlash. intros H.
  apply bind_Ok in H as (m1 & _ & H). apply bind_Ok in H as (m2 & _ & H).
  apply bind_Ok in H as ([HPF Cl] & Hloop & H). injection H as <-.
  set (prev := (length HitVector - NHits)%nat) in *.
  assert (HC : Claimed HitVector thr prev HPF Cl);
    [|destruct HC as (? & ? & _); done].
  revert Hloop.
  apply (foldM_invariant
           (fun st => Claimed HitVector thr prev st.1 st.2)).
  2:{ split_and!; [apply PairwiseDisjoint_nil|constructor|].
      intros s x Hs. by apply elem_of_nil in Hs. }
  intros st itFlash st' _ Hst.
  apply (foldM_invariant
           (fun st => Claimed HitVector thr prev st.1 st.2)); [|done].
  intros st1 itAcc st1' _ Hst1.
  apply (foldM_invariant
           (fun st => Claimed HitVector thr prev st.1 st.2)); [|done].
  intros [HPF2 Cl2] Bin [HPF3 Cl3] _ Hst2 Hstep. simpl in *.
  apply bind_Ok in Hstep as (hits & Hfill & Hclaim).
  eapply ClaimHits_Claimed; [exact Hst2| |exact Hclaim].
  destruct (itAcc.1 =? 1)%Z; [by eapply FillHitsThisFlash_spec|].
  destruct (itAcc.1 =? 2)%Z; [by eapply FillHitsThisFlash_spec|].
  injection Hfill as <-. intros x Hx. by apply elem_of_nil in Hx.
Qed.

(** ** Refining the coarse flashes *)

Lemma upsert_hits (k : R) (y : nat) (m : list (R * list nat)) x :
  x ∈ hits_of (upsert greater k (fun ids => ids ++ [y]) [] m) ->
  x = y \/ x ∈ hits_of m.
Proof.
  unfold hits_of. induction m as [|[k' v] m IH]; simpl.
  - rewrite list_elem_of_singleton. tauto.
  - destruct (greater k k'); simpl.
    { rewrite elem_of_cons. tauto. }
    destruct (greater k' k); simpl.
    + rewrite !elem_of_app. intros [Hx|Hx]; [right; by left|].
      destruct (IH Hx) as [?|?]; [by left|right; by right].
    + rewrite !elem_of_app, list_elem_of_singleton. tauto.
Qed.

Lemma FillHitsBySize_hits HitsThisFlash HitVector HitsBySize :
  FillHitsBySize HitsThisFlash HitVector = Ok HitsBySize ->
  forall x, x ∈ hits_of HitsBySize -> x ∈ HitsThisFlash.
Proof.
  unfold FillHitsBySize.
  apply (foldM_invariant
           (fun m => forall x, x ∈ hits_of m -> x ∈ HitsThisFlash)).
  - intros m y m' Hy Hm Hstep. apply bind_Ok in Hstep as (h & _ & Hstep).
    injection Hstep as <-. intros x Hx.
    apply upsert_hits in Hx as [->|Hx]; auto.
  - intros x Hx. by apply elem_of_nil in Hx.
Qed.

Lemma RefineHitsInFlash_spec fuel HitsThisFlash HitVector Refined0 WT thr
    Refined :
  RefineHitsInFlash fuel HitsThisFlash HitVector Refined0 WT thr
  = Ok Refined ->
  exists new, Refined = Refined0 ++ new
    /\ PairwiseDisjoint new
    /\ Forall (ReachesThreshold HitVector thr) new
    /\ forall s x, s ∈ new -> x ∈ s -> x ∈ HitsThisFlash.
Proof.
  unfold RefineHitsInFlash. intros H.
  apply bind_Ok in H as (HitsBySize & Hfill & H).
  apply (RefineLoop_Stored _ _ _ _ _ _ Refined0) in H
    as (Used & new & -> & Hpd & Hthr & Hmem).
  - exists new. split_and!; try done. intros s x Hs Hx.
    destruct (Hmem s x Hs Hx) as [_ Hin].
    by eapply FillHitsBySize_hits.
  - exists []. rewrite app_nil_r. split_and!;
      [done|apply PairwiseDisjoint_nil|constructor|].
    intros s x Hs. by apply elem_of_nil in Hs.
Qed.

Lemma RefineAll_spec HitsPerFlash HitVector WT thr Refined :
  PairwiseDisjoint HitsPerFlash ->
  RefineAll HitsPerFlash HitVector WT thr = Ok Refined ->
  PairwiseDisjoint Refined /\ Forall (ReachesThreshold HitVector thr) Refined.
Proof.
  unfold RefineAll.
  assert (Hgen : forall cs Refined0,
    PairwiseDisjoint cs ->
    PairwiseDisjoint Refined0 ->
    Forall (ReachesThreshold HitVector thr) Refined0 ->
    (forall s c x, s ∈ Refined0 -> c ∈ cs -> x ∈ s -> x ∉ c) ->
    foldM (fun RefinedHitsPerFlash HitsThisFlash =>
             RefineHitsInFlash (S (length HitVector)) HitsThisFlash HitVector
                               RefinedHitsPerFlash WT thr) cs Refined0
    = Ok Refined ->
    PairwiseDisjoint Refined
    /\ Forall (ReachesThreshold HitVector thr) Refined).
  { induction cs as [|c cs IH]; intros Refined0 Hcs Hpd Hthr Hcross H;
      simpl in H.
    - by injection H as <-.
    - apply bind_Ok in H as (Refined1 & Hstep & H).
      apply RefineHitsInFlash_spec in Hstep as (new & -> & Hpdn & Hthrn & Hsub).
      apply PairwiseDisjoint_cons_inv in Hcs as [Hcs Hc].
      apply (IH (Refined0 ++ new)); [done| | |  |done].
      + apply PairwiseDisjoint_app; [done|done|].
        intros a b x Ha Hb Hxa Hxb.
        apply (Hcross a c x Ha); [by left|done|]. by eapply Hsub.
      + apply Forall_app. by split.
      + intros s c' x Hs Hc' Hx. apply elem_of_app in Hs as [Hs|Hs].
        * apply (Hcross s c' x Hs); [by right|done].
        * apply (Hc c' x Hc'). by eapply Hsub. }
  intros Hpd H.
  apply (Hgen HitsPerFlash []);
    [done|apply PairwiseDisjoint_nil|constructor| |done].
  intros s c x Hs. by apply elem_of_nil in Hs.
Qed.

(** ** One frame *)

Lemma FrameHitSets_spec Frame digits HitVector BinWidth ChannelMap geom
    HitThreshold thr WT ts SPESize HitVector' Refined :
  FrameHitSets Frame digits HitVector BinWidth ChannelMap geom HitThreshold
               thr WT ts SPESize = Ok (HitVector', Refined) ->
  PairwiseDisjoint Refined /\ Forall (ReachesThreshold HitVector' thr) Refined.
Proof.
  unfold FrameHitSets. intros H.
  apply bind_Ok in H as (n & _ & H).
  apply bind_Ok in H as ([[HV acc1] acc2] & _ & H).
  apply bind_Ok in H as (HitsPerFlash & Hassign & H).
  apply bind_Ok in H as (R0 & Hrefine & H). injection H as <- <-.
  apply AssignHitsToFlash_spec in Hassign as [Hpd _].
  by eapply RefineAll_spec.
Qed.

(** * From hit sets to the output of a frame *)

(** ** From hit sets to flashes *)

(** The local [TotalPE] of [ConstructFlash] is the summed PE of the hits. *)
Lemma FlashSums_TotalPE hits HitVector geom sums :
  FlashSums hits HitVector geom = Ok sums ->
  SumPE HitVector hits = Ok (TotalPE_of sums).
Proof.
  unfold FlashSums, SumPE.
  assert (Hgen : forall st0,
            foldM (FlashSums_step HitVector geom) hits st0 = Ok sums ->
            foldM (fun PE_ Hit =>
                     let* h := at_ HitVector Hit in Ok (PE_ + OpHit.PE h)%R)
                  hits (TotalPE_of st0) = Ok (TotalPE_of sums)).
  { induction hits as [|x hits IH]; intros st0 H; simpl in H.
    - by injection H as <-.
    - apply bind_Ok in H as (st1 & H1 & H). simpl.
      destruct st0 as [[[[[[[mx mn] av] ft] ab] tot] pes]
                       [[[[[sw sw2] sy] sy2] sz] sz2]].
      unfold FlashSums_step in H1.
      apply bind_Ok in H1 as (h & Hh & H1).
      apply bind_Ok in H1 as (times & Ht & H1).
      apply bind_Ok in H1 as (h' & _ & H1).
      apply bind_Ok in H1 as (geometry & _ & H1). injection H1 as <-.
      unfold AddHitContribution in Ht.
      apply bind_Ok in Ht as (pe & _ & Ht). injection Ht as <-.
      rewrite Hh. simpl. apply (IH _ H). }
  apply Hgen.
Qed.

Lemma foldl_Rplus_acc (a : R) (l : list R) :
  foldl Rplus a l = (a + foldl Rplus 0 l)%R.
Proof.
  revert a. induction l as [|x l IH]; intros a; simpl; [lra|].
  rewrite (IH (a + x)%R), (IH (0 + x)%R). lra.
Qed.

Lemma sum_replicate_0 (n : nat) : foldl Rplus 0%R (replicate n 0%R) = 0%R.
Proof.
  induction n as [|n IH]; simpl; [done|].
  rewrite foldl_Rplus_acc, IH. lra.
Qed.

Lemma sum_insert_add (l : list R) (i : nat) (v x : R) :
  l !! i = Some v ->
  foldl Rplus 0%R (<[i := (v + x)%R]> l) = (foldl Rplus 0 l + x)%R.
Proof.
  revert i. induction l as [|y l IH]; intros [|i] H; simpl in *;
    try discriminate.
  - injection H as ->. rewrite (foldl_Rplus_acc (0 + (v + x))),
      (foldl_Rplus_acc (0 + v)). lra.
  - rewrite (foldl_Rplus_acc (0 + y)), (foldl_Rplus_acc (0 + y) l).
    rewrite (IH i H). lra.
Qed.

(** The per-channel PE vector of [ConstructFlash] sums up to its local
    [TotalPE]. *)
Lemma FlashSums_PEs hits HitVector geom sums :
  FlashSums hits HitVector geom = Ok sums ->
  foldl Rplus 0%R (PEs_of sums) = TotalPE_of sums.
Proof.
  unfold FlashSums.
  apply (foldM_invariant
           (fun sums => foldl Rplus 0%R (PEs_of sums) = TotalPE_of sums)).
  2:{ unfold PEs_of, TotalPE_of. simpl. apply sum_replicate_0. }
  intros [[[[[[[mx mn] av] ft] ab] tot] pes] [[[[[sw sw2] sy] sy2] sz] sz2]]
         x st' _ Hinv H.
  unfold PEs_of, TotalPE_of in *. simpl in Hinv.
  unfold FlashSums_step in H.
  apply bind_Ok in H as (h & Hh & H).
  apply bind_Ok in H as (times & Ht & H).
  apply bind_Ok in H as (h' & _ & H).
  apply bind_Ok in H as (geometry & _ & H). injection H as <-.
  unfold AddHitContribution in Ht.
  apply bind_Ok in Ht as (pe & Hpe & Ht). injection Ht as <-. simpl.
  unfold at_Z in Hpe. destruct (_ <? 0)%Z; [discriminate|].
  apply at_Ok in Hpe. rewrite (sum_insert_add _ _ _ _ Hpe). lra.
Qed.

Lemma ConstructFlash_spec hits HitVector FlashVector geom TrigFrame Frame
    TrigCoinc FlashVector' :
  ConstructFlash hits HitVector FlashVector geom TrigFrame Frame TrigCoinc
  = Ok FlashVector' ->
  exists f sums,
    FlashVector' = FlashVector ++ [f]
    /\ FlashSums hits HitVector geom = Ok sums
    /\ OpFlash.PEs f = PEs_of sums.
Proof.
  unfold ConstructFlash. intros H.
  apply bind_Ok in H as (sums & Hsums & H).
  destruct sums as [[[[[[[mx mn] av] ft] ab] tot] pes]
                    [[[[[sw sw2] sy] sy2] sz] sz2]].
  apply bind_Ok in H as ([? ?] & _ & H). injection H as <-.
  eexists _, _. split; [done|]. split; [exact Hsums|done].
Qed.

Lemma ConstructFlash_all (Q : OpFlash.t -> Prop) sets HitVector geom TrigFrame
    Frame TrigCoinc :
  (forall s FV FV1, s ∈ sets ->
     ConstructFlash s HitVector FV geom TrigFrame Frame TrigCoinc = Ok FV1 ->
     exists f, FV1 = FV ++ [f] /\ Q f) ->
  forall FlashVector FlashVector',
    foldM (fun FlashVector HitsPerFlashVec =>
             ConstructFlash HitsPerFlashVec HitVector FlashVector geom
                            TrigFrame Frame TrigCoinc) sets FlashVector
    = Ok FlashVector' ->
    exists fs, FlashVector' = FlashVector ++ fs
               /\ length fs = length sets /\ Forall Q fs.
Proof.
  induction sets as [|s sets IH]; intros HQ FV FV' H; simpl in H.
  - injection H as <-. exists []. by rewrite app_nil_r.
  - apply bind_Ok in H as (FV1 & H1 & H).
    apply HQ in H1 as (f & -> & Hf); [|by left].
    apply IH in H as (fs & -> & Hlen & Hfs).
    + exists (f :: fs). rewrite <- app_assoc. simpl.
      split; [done|]. split; [lia|]. by constructor.
    + intros s' FV0 FV2 Hs'. apply HQ. by right.
Qed.

Lemma insert_by_time_length f l :
  length (insert_by_time f l) = S (length l).
Proof.
  induction l as [|g l IH]; simpl; [done|].
  destruct (Rlt_b _ _); simpl; lia.
Qed.

Lemma insert_by_time_Forall (Q : OpFlash.t -> Prop) f l :
  Q f -> Forall Q l -> Forall Q (insert_by_time f l).
Proof.
  intros Hf Hl. induction Hl as [|g l Hg Hl IH]; simpl.
  - by constructor.
  - destruct (Rlt_b _ _); constructor; auto.
Qed.

Lemma sort_flash_by_time_length l :
  length (sort_flash_by_time l) = length l.
Proof.
  unfold sort_flash_by_time. induction l as [|f l IH]; simpl; [done|].
  rewrite insert_by_time_length. lia.
Qed.

Lemma sort_flash_by_time_Forall (Q : OpFlash.t -> Prop) l :
  Forall Q l -> Forall Q (sort_flash_by_time l).
Proof.
  unfold sort_flash_by_time. induction 1 as [|f l Hf Hl IH]; simpl.
  - constructor.
  - by apply insert_by_time_Forall.
Qed.

Lemma delete_app_add {A : Type} (l1 l2 : list A) (k : nat) :
  delete (length l1 + k) (l1 ++ l2) = l1 ++ delete k l2.
Proof. induction l1 as [|x l1 IH]; simpl; [done|]. by rewrite IH. Qed.

(** Removal erases the same positions of the flashes of the frame and of
    the hit sets. *)
Lemma RemoveFlashesFromVectors_spec (P : list (list nat) -> Prop)
    (Q : OpFlash.t -> Prop) Marked FlashVector fs Refined FlashVector'
    Refined' :
  (forall l k, P l -> P (delete k l)) ->
  P Refined -> Forall Q fs -> length fs = length Refined ->
  RemoveFlashesFromVectors Marked (FlashVector ++ fs) (length FlashVector)
                           Refined = Ok (FlashVector', Refined') ->
  exists fs', FlashVector' = FlashVector ++ fs'
    /\ length fs' = length Refined' /\ Forall Q fs' /\ P Refined'.
Proof.
  intros Hdel HP HQ Hlen. unfold RemoveFlashesFromVectors.
  apply (foldM_invariant
           (fun st => exists fs', st.1 = FlashVector ++ fs'
              /\ length fs' = length st.2 /\ Forall Q fs' /\ P st.2)).
  2:{ by exists fs. }
  intros [FV R0] k [FV1 R1] _ (fs0 & HFV & Hl0 & HQ0 & HP0) Hstep.
  simpl in *. subst FV.
  apply bind_Ok in Hstep as (marked & _ & Hstep).
  destruct marked; [|injection Hstep as <- <-; by exists fs0].
  apply bind_Ok in Hstep as (R2 & HR & Hstep).
  apply bind_Ok in Hstep as (FV2 & HF & Hstep). injection Hstep as <- <-.
  unfold erase in HR, HF.
  destruct (Nat.ltb_spec k (length R0)); [|discriminate].
  destruct (Nat.ltb_spec (length FlashVector + k)
              (length (FlashVector ++ fs0))); [|discriminate].
  injection HR as <-. injection HF as <-.
  exists (delete k fs0). rewrite delete_app_add. split; [done|].
  rewrite !length_delete by (apply lookup_lt_is_Some; lia).
  split; [lia|]. split; [by apply Forall_delete|by apply Hdel].
Qed.

Lemma RemoveLateLight_spec (P : list (list nat) -> Prop)
    (Q : OpFlash.t -> Prop) FlashVector fs Refined FlashVector' Refined' :
  (forall l k, P l -> P (delete k l)) ->
  P Refined -> Forall Q fs -> length fs = length Refined ->
  RemoveLateLight (FlashVector ++ fs) Refined = Ok (FlashVector', Refined') ->
  exists fs', FlashVector' = FlashVector ++ fs'
    /\ length fs' = length Refined' /\ Forall Q fs' /\ P Refined'.
Proof.
  intros Hdel HP HQ Hlen H. unfold RemoveLateLight in H.
  apply bind_Ok in H as (Marked & _ & H).
  rewrite length_app, <- Hlen in H.
  replace (length FlashVector + length fs - length fs)%nat
    with (length FlashVector) in H by lia.
  rewrite take_app_length, drop_app_length in H.
  apply (RemoveFlashesFromVectors_spec P Q) in H; try done.
  - by apply sort_flash_by_time_Forall.
  - by rewrite sort_flash_by_time_length.
Qed.

(** What [ProcessFrame] adds to its outputs: to the association table, the
    hit sets of the frame that are left by the late-light filter, each
    index raised by the number of hits of earlier frames; to the flash
    vector, as many flashes, each built from a hit set of the frame. *)
Lemma ProcessFrame_output (P : list (list nat) -> Prop)
    (Q : OpFlash.t -> Prop) Frame digits HitVector FlashVector AssocList
    BinWidth ChannelMap geom HitThreshold thr WT ts SPESize TrigCoinc
    HitVector' FlashVector' AssocList' :
  (forall l k, P l -> P (delete k l)) ->
  (forall Refined,
     FrameHitSets Frame digits HitVector BinWidth ChannelMap geom
                  HitThreshold thr WT ts SPESize = Ok (HitVector', Refined) ->
     P Refined
     /\ forall s FV FV1, s ∈ Refined ->
          ConstructFlash s HitVector' FV geom (BeamGateFrame ts) Frame
                         TrigCoinc = Ok FV1 ->
          exists f, FV1 = FV ++ [f] /\ Q f) ->
  ProcessFrame Frame digits HitVector FlashVector AssocList BinWidth
               ChannelMap geom HitThreshold thr WT ts SPESize TrigCoinc
  = Ok (HitVector', FlashVector', AssocList') ->
  exists sets fs,
    P sets
    /\ AssocList'
       = AssocList ++ map (map (fun HitIndex =>
                                  (HitIndex + length HitVector)%nat)) sets
    /\ FlashVector' = FlashVector ++ fs
    /\ length fs = length sets
    /\ Forall Q fs.
Proof.
  intros Hdel HPQ H. unfold ProcessFrame in H.
  apply bind_Ok in H as ([HV Refined] & Hsets & H).
  apply bind_Ok in H as (FV1 & Hflash & H).
  apply bind_Ok in H as ([FV2 Refined2] & Hlate & H).
  injection H as <- <- <-.
  destruct (HPQ _ Hsets) as [HP HQ].
  apply (ConstructFlash_all Q) in Hflash as (fs & -> & Hlen & Hfs); [|done].
  apply (RemoveLateLight_spec P Q) in Hlate
    as (fs' & -> & Hlen' & Hfs' & HP'); try done.
  by exists Refined2, fs'.
Qed.

(** ** The claims on the hit sets of a frame *)

(** C2: the hit sets that a frame adds to the association table, one per
    flash that the frame adds to the flash vector, are pairwise disjoint:
    no hit index lies in two of them.  (Coarse flashes share no hit because
    [ClaimHits] flags what it stores and [FillHitsThisFlash] skips what is
    flagged, [AssignHitsToFlash_spec]; the refined flashes of one coarse
    flash share no hit because stored hits stay used, [refine_turn], while
    released hits were in no stored set.) *)
Theorem hit_sets_exclusive Frame digits HitVector FlashVector AssocList
    BinWidth ChannelMap geom HitThreshold FlashThreshold WidthTolerance ts
    SPESize TrigCoinc HitVector' FlashVector' AssocList' :
  ProcessFrame Frame digits HitVector FlashVector AssocList BinWidth
               ChannelMap geom HitThreshold FlashThreshold WidthTolerance ts
               SPESize TrigCoinc
  = Ok (HitVector', FlashVector', AssocList') ->
  exists new flashes,
    AssocList' = AssocList ++ new
    /\ FlashVector' = FlashVector ++ flashes
    /\ length flashes = length new
    /\ PairwiseDisjoint new.
Proof.
  intros H.
  apply (ProcessFrame_output PairwiseDisjoint (fun _ => True)) in H
    as (sets & fs & Hpd & -> & -> & Hlen & _).
  - eexists _, fs. split; [done|]. split; [done|].
    split; [by rewrite length_map|]. by apply PairwiseDisjoint_offset.
  - apply PairwiseDisjoint_delete.
  - intros Refined Hsets.
    split; [by apply FrameHitSets_spec in Hsets as [? _]|].
    intros s FV FV1 _ Hc.
    apply ConstructFlash_spec in Hc as (f & _ & -> & _). by exists f.
Qed.

(** C5: with a strictly positive flash threshold, every hit set on which
    [ProcessFrame] calls [ConstructFlash] has a strictly positive
    [TotalPE] when the loop over its hits ends, so the divisions by
    [TotalPE] that follow do not divide by zero.  (No sign is asked of the
    PE of the hits.) *)
Theorem flash_builder_total_PE_positive Frame digits HitVector BinWidth
    ChannelMap geom HitThreshold FlashThreshold WidthTolerance ts SPESize
    HitVector' RefinedHitsPerFlash :
  (0 < FlashThreshold)%R ->
  FrameHitSets Frame digits HitVector BinWidth ChannelMap geom HitThreshold
               FlashThreshold WidthTolerance ts SPESize
  = Ok (HitVector', RefinedHitsPerFlash) ->
  forall HitsPerFlashVec sums,
    HitsPerFlashVec ∈ RefinedHitsPerFlash ->
    FlashSums HitsPerFlashVec HitVector' geom = Ok sums ->
    (0 < TotalPE_of sums)%R.
Proof.
  intros Hthr H s sums Hs Hsums.
  apply FrameHitSets_spec in H as [_ Hall].
  rewrite Forall_forall in Hall. 
  destruct (Hall s Hs) as (sum & Hsum & Hle).
  apply FlashSums_TotalPE in Hsums. 
  assert (sum = TotalPE_of sums) by congruence. lra.
Qed.

(** * Runs on example frames *)

Lemma GetAccumIndex_eval TMax TimeSlice BinWidth BinOffset (n : Z) :
  BinWidth <> 0%Z -> (0 <= n < 4294967296)%Z ->
  (IZR n <= (TMax + IZR TimeSlice + BinOffset) / IZR BinWidth < IZR n + 1)%R ->
  GetAccumIndex TMax TimeSlice BinWidth BinOffset = Ok (Z.to_nat n).
Proof.
  intros Hw Hn Hq. unfold GetAccumIndex.
  destruct (Z.eqb_spec BinWidth 0); [done|].
  assert (0 <= IZR n)%R by (apply IZR_le; lia).
  assert (IZR n <= 4294967295)%R by (apply IZR_le; lia).
  rewrite Rle_b_false by lra. rewrite Rle_b_false by lra.
  rewrite <- (Int_part_spec _ n); [done|lra].
Qed.

Lemma map0_at : map_at map0 0 = Ok 0%Z.
Proof. reflexivity. Qed.

Lemma map2_at0 : map_at map2 0 = Ok 0%Z.
Proof. reflexivity. Qed.

Lemma map2_at1 : map_at map2 1 = Ok 1%Z.
Proof. reflexivity. Qed.

(** A flash of zero width, such as a flash of a single hit, removes no
    later flash: the hypothetical PE is an infinity or NaN, and the
    significance NaN. *)
Lemma LateLight_zero_width fi fj :
  OpFlash.TimeWidth fi = 0%R -> LateLight fi fj = false.
Proof.
  intros Hw. unfold LateLight, GetLikelihoodLateLight, HypPE.
  destruct (Rlt_b_spec (OpFlash.Time fj) (OpFlash.Time fi)).
  { simpl. apply Rlt_b_false. lra. }
  rewrite Hw. simpl. destruct (Req_dec_T 0 0) as [_|Hn]; [|done].
  pose proof (exp_pos (- (OpFlash.Time fj - OpFlash.Time fi) / 1.6)) as He.
  destruct (Rlt_b _ _) eqn:E1; simpl.
  { rewrite (Rlt_b_true 0 (exp _)) by done. done. }
  destruct (Rlt_b _ 0) eqn:E2; simpl; [|done].
  rewrite (Rlt_b_true 0 (exp _)) by done. done.
Qed.

(** Evaluation: reduce, decide the comparisons of reals that appear, and
    go on; accumulator indices and late-light tests are settled by their
    lemmas. *)
Ltac red_run :=
  cbv -[IZR INR Int_part Rlt_b Rle_b Req_dec_T exp sqrt Rabs Rmax Rmin
        Rplus Rmult Ropp Rinv Rminus Rdiv up map_at map0 map2 GetAccumIndex
        LateLight].
Ltac Rabs_eval :=
  repeat match goal with
  | |- context [Rabs ?x] =>
      first [ rewrite (Rabs_pos_eq x) by lra
            | rewrite (Rabs_left1 x) by lra ]
  end.
Ltac run := repeat (progress (red_run; Rabs_eval; Rdecide)).
Ltac index n :=
  rewrite (GetAccumIndex_eval _ _ _ _ n) by (first [done | lia | lra]).
Ltac dark := rewrite LateLight_zero_width by (simpl; lra).

Lemma frameB_without :
  ProcessDigits 0 [digitC0] 4000 map0 geom0 2 10 ts0 [1%R] ([], acc0, acc0)
  = Ok ([hitA0],
        mkAccumulator [(0 + 8 / 1)%R; 0%R; 0%R] [[0%nat]; []; []] [],
        mkAccumulator [(0 + 8 / 1)%R; 0%R; 0%R] [[0%nat]; []; []] []).
Proof.
  run. rewrite map0_at. run. index 0%Z. run. index 0%Z. run. reflexivity.
Qed.

Lemma frameB_with :
  ProcessDigits 0 [digitB] 4000 map0 geom0 2 10 ts0 [1%R] ([], acc0, acc0)
  = Ok ([hitA0],
        mkAccumulator [(0 + 8 / 1 + 8 / 1)%R; 0%R; 0%R]
                      [[0%nat; 0%nat]; []; []] [0%nat],
        mkAccumulator [(0 + 8 / 1 + 8 / 1)%R; 0%R; 0%R]
                      [[0%nat; 0%nat]; []; []] [0%nat]).
Proof.
  run. rewrite map0_at. run. index 0%Z. run. index 0%Z. run.
  index 0%Z. run. index 0%Z. run. reflexivity.
Qed.

Lemma frameB_first_pulse_low :
  ProcessPulse 2 10 0 0 0 4000 ts0 [1%R] pulseLow ([], acc0, acc0)
  = Throw undefined_behaviour.
Proof. run. index 0%Z. run. reflexivity. Qed.

Lemma framesC_RunFlashFinder :
  exists FlashVector,
    RunFlashFinder [digitC0; digitC1] [] [] [] 4000 map0 geom0 2 6 1 ts0
                   [1%R] 1
    = Ok ([hitA0; hitB1], FlashVector, [[0]; [2]]%nat)
    /\ OpFlash.PEs <$> FlashVector = [[(0 + 8 / 1)%R]; [(0 + 8 / 1)%R]].
Proof.
  eexists. split.
  - run. rewrite map0_at. run. index 0%Z. run. index 0%Z. run.
    rewrite map0_at. run. index 0%Z. run. index 0%Z. run. reflexivity.
  - reflexivity.
Qed.

Lemma frameA_FrameHitSets :
  FrameHitSets 0 [digitA] [] 4000 map0 geom0 2 6 1 ts0 [1%R]
  = Ok ([hitA0; hitA1], [[1]; [0]]%nat).
Proof.
  run. rewrite map0_at. run. index 0%Z. run. index 0%Z. run.
  index 1%Z. run. index 1%Z. run. reflexivity.
Qed.

Lemma frameA_ProcessFrame :
  exists FlashVector,
    ProcessFrame 0 [digitA] [] [] [] 4000 map0 geom0 2 6 1 ts0 [1%R] 1
    = Ok ([hitA0; hitA1], FlashVector, [[1]; [0]]%nat)
    /\ OpFlash.PEs <$> FlashVector = [[(0 + 8 / 1)%R]; [(0 + 9 / 1)%R]].
Proof.
  eexists. split.
  - unfold ProcessFrame. rewrite frameA_FrameHitSets. run. dark. run.
    reflexivity.
  - reflexivity.
Qed.

(** ** The scenarios of the specification *)

(** Scenario A: the two hits fall in one bin, their PE sums to 8, and they
    come out as one flash holding both. *)
Lemma scenario_A :
  exists HitVector FlashVector,
    ProcessFrame 0 [digitS5; digitS3] [] [] [] 4000 map2 geom2 1 6 1 ts0
                 [1%R; 1%R] 1
    = Ok (HitVector, FlashVector, [[0; 1]]%nat)
    /\ length HitVector = 2%nat
    /\ OpFlash.PEs <$> FlashVector = [[(0 + 5 / 1)%R; (0 + 3 / 1)%R]].
Proof.
  eexists _, _. split; [|split].
  - run. rewrite map2_at0. run. index 0%Z. run. index 0%Z. run.
    rewrite map2_at1. run. index 0%Z. run. index 0%Z. run. reflexivity.
  - reflexivity.
  - reflexivity.
Qed.

(** Scenario B: a single hit of PE 2 under a threshold of 6 gives no flash
    and no entry of the association table. *)
Lemma scenario_B :
  exists HitVector,
    ProcessFrame 0 [digitS2] [] [] [] 4000 map2 geom2 1 6 1 ts0 [1%R; 1%R] 1
    = Ok (HitVector, [], [])
    /\ length HitVector = 1%nat.
Proof.
  eexists. split.
  - run. rewrite map2_at0. run. index 0%Z. run. index 0%Z. run.
    reflexivity.
  - reflexivity.
Qed.

(** Bounds on the decay factor over a gap of 5: [1/81 <= exp(-5/1.6) <= 1/8]. *)
Lemma decay_5_bounds :
  (/ 81 <= exp (- (5 - 0) / 1.6) <= / 8)%R.
Proof.
  assert (H2 : (2 <= exp 1)%R).
  { pose proof (exp_ineq1 1 ltac:(lra)). lra. }
  pose proof exp_le_3 as H3.
  assert (E3 : (exp 3 = exp 1 * exp 1 * exp 1)%R).
  { rewrite <- !exp_plus. f_equal. lra. }
  assert (E4 : (exp 4 = exp 1 * exp 1 * exp 1 * exp 1)%R).
  { rewrite <- !exp_plus. f_equal. lra. }
  assert (L : (8 <= exp 3)%R) by (rewrite E3; nra).
  assert (U : (exp 4 <= 81)%R) by (rewrite E4; nra).
  replace (- (5 - 0) / 1.6)%R with (Ropp 3.125) by lra.
  rewrite exp_Ropp.
  assert (M1 : (exp 3 <= exp 3.125)%R).
  { left. apply exp_increasing. lra. }
  assert (M2 : (exp 3.125 <= exp 4)%R).
  { left. apply exp_increasing. lra. }
  split.
  - apply Rinv_le_contravar; [apply exp_pos|lra].
  - apply Rinv_le_contravar; lra.
Qed.

(** Scenario C of the specification: a flash of PE 0.5 at time 5 after a
    flash of PE 100 at time 0, both of width 1, tests as late light. *)
Lemma scenario_C_LateLight :
  LateLight (flash_of 0 1 100) (flash_of 5 1 0.5) = true.
Proof.
  unfold LateLight, OpFlash.TotalPE. simpl.
  pose proof decay_5_bounds as [Hl Hu].
  rewrite GetLikelihoodLateLight_finite by lra.
  set (e := exp (- (5 - 0) / 1.6)) in *.
  assert (HH : (0 < (0 + 100) * 1 / 1 * e)%R) by lra.
  simpl. apply Rlt_b_true.
  pose proof (sqrt_lt_R0 _ HH) as Hs.
  assert (Hinv : (0 < / sqrt ((0 + 100) * 1 / 1 * e))%R)
    by (by apply Rinv_0_lt_compat).
  unfold Rdiv at 1. 
  assert ((0 + 0.5 - (0 + 100) * 1 / 1 * e) < 0)%R by lra. nra.
Qed.

(** Scenario D of the specification: with PE 50 instead, the second flash
    does not test as late light. *)
Lemma scenario_D_LateLight :
  LateLight (flash_of 0 1 100) (flash_of 5 1 50) = false.
Proof.
  unfold LateLight, OpFlash.TotalPE. simpl.
  pose proof decay_5_bounds as [Hl Hu].
  rewrite GetLikelihoodLateLight_finite by lra.
  set (e := exp (- (5 - 0) / 1.6)) in *.
  assert (HH : (0 < (0 + 100) * 1 / 1 * e)%R) by lra.
  simpl. apply Rlt_b_false.
  set (H := ((0 + 100) * 1 / 1 * e)%R) in *.
  assert (HU : (H <= 16)%R) by (unfold H; lra).
  pose proof (sqrt_lt_R0 _ HH) as Hs.
  assert (Hs4 : (sqrt H <= 4)%R).
  { replace 4%R with (sqrt 16).
    - apply sqrt_le_1; lra.
    - replace 16%R with (4 * 4)%R by lra. apply sqrt_square. lra. }
  apply Rmult_le_reg_r with (sqrt H); [done|].
  unfold Rdiv. rewrite Rmult_assoc, Rinv_l by lra.
  assert (H <= 12.5)%R by (unfold H; lra). nra.
Qed.

Lemma scenario_C :
  RemoveLateLight [flash_of 0 1 100; flash_of 5 1 0.5] [[0]; [1]]%nat
  = Ok ([flash_of 0 1 100], [[0%nat]]).
Proof.
  unfold RemoveLateLight, MarkFlashesForRemoval.
  cbv -[IZR Rlt_b Rle_b LateLight Rdiv]. Rdecide.
  cbv -[IZR Rlt_b Rle_b LateLight Rdiv flash_of].
  change (LateLight _ _) with (LateLight (flash_of 0 1 100) (flash_of 5 1 0.5)).
  rewrite scenario_C_LateLight. reflexivity.
Qed.

Lemma scenario_D :
  RemoveLateLight [flash_of 0 1 100; flash_of 5 1 50] [[0]; [1]]%nat
  = Ok ([flash_of 0 1 100; flash_of 5 1 50], [[0]; [1]]%nat).
Proof.
  unfold RemoveLateLight, MarkFlashesForRemoval.
  cbv -[IZR Rlt_b Rle_b LateLight Rdiv]. Rdecide.
  cbv -[IZR Rlt_b Rle_b LateLight Rdiv flash_of].
  change (LateLight _ _) with (LateLight (flash_of 0 1 100) (flash_of 5 1 50)).
  rewrite scenario_D_LateLight. reflexivity.
Qed.

(** ** The refiner on the hits of frame A *)

Lemma RefineHitsInFlash_terminates_witness :
  RefineHitsInFlash 7 [0; 1]%nat [hitA0; hitA1] [] 1 6
  = Ok [[1]; [0]]%nat.
Proof.
  destruct (RefineHitsInFlash_terminates [0; 1]%nat [hitA0; hitA1] [] 1 6)
    as [_ Hstable].
  rewrite (Hstable 7%nat) by (simpl; lia).
  run. reflexivity.
Defined.

(** ** Witnesses of the claims on the hit sets, on frame A *)

Lemma hit_sets_exclusive_witness :
  exists new, [[1]; [0]]%nat = [] ++ new /\ PairwiseDisjoint new.
Proof.
  destruct frameA_ProcessFrame as (FlashVector & Hrun & _).
  destruct (hit_sets_exclusive _ _ _ _ _ _ _ _ _ _ _ _ _ _ _ _ _ Hrun)
    as (new & flashes & Hnew & _ & _ & Hpd).
  exists new. split; assumption.
Defined.

Lemma flash_builder_total_PE_positive_witness :
  exists sums,
    FlashSums [1%nat] [hitA0; hitA1] geom0 = Ok sums
    /\ (0 < TotalPE_of sums)%R.
Proof.
  eexists. split; [run; reflexivity|].
  apply (flash_builder_total_PE_positive 0 [digitA] [] 4000 map0 geom0 2 6 1
           ts0 [1%R] [hitA0; hitA1] [[1]; [0]]%nat
           ltac:(lra) frameA_FrameHitSets [1%nat]);
    [apply list_elem_of_here | run; reflexivity].
Defined.

(** * Where the code departs from the specification *)

(** C1 (not met by the code): the association table does not round-trip
    with the flash records.  In frame A the brighter flash is the later
    one; [RemoveLateLight] sorts the flashes by time and leaves
    [RefinedHitsPerFlash] in order of size, so the first flash of the
    output is built from hit 0 while the first entry of the table names
    hit 1, whose PE differs.  In the run over frames C0 and C1 the hit
    indices of the second frame, which already count from the start of the
    hit vector, are raised by the number of earlier hits once more, and
    the entry of the second flash names a hit that does not exist. *)
Theorem association_round_trip_fails :
  (exists HitVector FlashVector AssocList f a,
     ProcessFrame 0 [digitA] [] [] [] 4000 map0 geom0 2 6 1 ts0 [1%R] 1
     = Ok (HitVector, FlashVector, AssocList)
     /\ FlashVector !! 0%nat = Some f /\ AssocList !! 0%nat = Some a
     /\ exists PEs, PerChannelPE HitVector a (NOpChannels geom0) = Ok PEs
          /\ PEs <> OpFlash.PEs f)
  /\ (exists HitVector FlashVector AssocList f a,
        RunFlashFinder [digitC0; digitC1] [] [] [] 4000 map0 geom0 2 6 1 ts0
                       [1%R] 1
        = Ok (HitVector, FlashVector, AssocList)
        /\ length HitVector = 2%nat
        /\ FlashVector !! 1%nat = Some f /\ AssocList !! 1%nat = Some a
        /\ a = [2%nat]
        /\ PerChannelPE HitVector a (NOpChannels geom0)
           = Throw out_of_range
        /\ PerChannelPE HitVector [1%nat] (NOpChannels geom0)
           = Ok (OpFlash.PEs f)).
Proof.
  split.
  - destruct frameA_ProcessFrame as (FV & Hrun & HPEs).
    destruct FV as [|f FV]; [discriminate|]. injection HPEs as Hf _.
    exists [hitA0; hitA1], (f :: FV), [[1]; [0]]%nat, f, [1%nat].
    split; [exact Hrun|]. split; [done|]. split; [done|].
    eexists. split; [run; reflexivity|].
    rewrite Hf. intros [= H]. lra.
  - destruct framesC_RunFlashFinder as (FV & Hrun & HPEs).
    destruct FV as [|f0 [|f FV]]; try discriminate.
    injection HPEs as _ Hf _.
    exists [hitA0; hitB1], (f0 :: f :: FV), [[0]; [2]]%nat, f, [2%nat].
    split; [exact Hrun|]. repeat (split; [done|]).
    rewrite Hf. run. reflexivity.
Qed.

(** C4 (not met by the code): a pulse below the hit amplitude threshold
    appends no hit, but the pulse loop of [ProcessFrame] goes on to fill
    both accumulators with the last hit of the hit vector.  Frame B is
    frame C0 followed by such a pulse: the hit vectors are the same, while
    bin 0 of the accumulator holds hit 0 twice, twice its PE, and is
    flagged.  When such a pulse comes first, the loop reads the last
    element of an empty hit vector. *)
Theorem discarded_pulse_fills_accumulators :
  exists HitVector acc1 acc2 acc1' acc2',
    ProcessDigits 0 [digitC0] 4000 map0 geom0 2 10 ts0 [1%R]
                  ([], acc0, acc0) = Ok (HitVector, acc1, acc2)
    /\ ProcessDigits 0 [digitB] 4000 map0 geom0 2 10 ts0 [1%R]
                     ([], acc0, acc0) = Ok (HitVector, acc1', acc2')
    /\ Pulses digitB = Pulses digitC0 ++ [pulseLow]
    /\ (peak pulseLow < 2)%R
    /\ Contributors acc1 !! 0%nat = Some [0%nat]
    /\ Contributors acc1' !! 0%nat = Some [0%nat; 0%nat]
    /\ Binned acc1 !! 0%nat = Some (0 + 8 / 1)%R
    /\ Binned acc1' !! 0%nat = Some (0 + 8 / 1 + 8 / 1)%R
    /\ FlashesInAccumulator acc1 = []
    /\ FlashesInAccumulator acc1' = [0%nat]
    /\ acc2 <> acc2'
    /\ ProcessPulse 2 10 0 0 0 4000 ts0 [1%R] pulseLow ([], acc0, acc0)
       = Throw undefined_behaviour.
Proof.
  eexists _, _, _, _, _.
  split; [exact frameB_without|]. split; [exact frameB_with|].
  split; [done|]. split; [simpl; lra|]. do 6 (split; [done|]).
  split; [discriminate|exact frameB_first_pulse_low].
Qed.

(** ** A set of the table below the flash threshold *)

Lemma framesD_RunFlashFinder :
  exists FlashVector,
    RunFlashFinder [digitC0; digitD1] [] [] [] 4000 map0 geom0 2 6 1 ts0
                   [1%R] 1
    = Ok ([hitA0; hitB1; hitD2], FlashVector, [[0]; [2]]%nat)
    /\ OpFlash.PEs <$> FlashVector = [[(0 + 8 / 1)%R]; [(0 + 8 / 1)%R]].
Proof.
  eexists. split.
  - run. rewrite map0_at. run. index 0%Z. run. index 0%Z. run.
    rewrite map0_at. run. index 0%Z. run. index 0%Z. run.
    index 1%Z. run. index 1%Z. run. reflexivity.
  - reflexivity.
Qed.

(** C3 (not met by the code): a set of the association table can sum to
    less than the flash threshold.  [ClaimHits] and [CheckAndStoreFlash]
    store only hit sets that reach the threshold, and the flash is built
    from such a set; but the indices of these sets already count from the
    start of the hit vector, and [ProcessFrame] raises them by the number
    of earlier hits before it appends them to the table.  In the run over
    frames C0 and D1, with a flash threshold of 6, the flash of the second
    frame is built from hit 1, of PE 8; its entry in the table names hit 2,
    the hit of PE 3 that was too weak to make a flash. *)
Theorem association_set_below_threshold :
  exists HitVector FlashVector f,
    RunFlashFinder [digitC0; digitD1] [] [] [] 4000 map0 geom0 2 6 1 ts0
                   [1%R] 1
    = Ok (HitVector, FlashVector, [[0]; [2]]%nat)
    /\ FlashVector !! 1%nat = Some f
    /\ PerChannelPE HitVector [1%nat] (NOpChannels geom0)
       = Ok (OpFlash.PEs f)
    /\ ReachesThreshold HitVector 6 [1%nat]
    /\ SumPE HitVector [2%nat] = Ok (0 + 3 / 1)%R
    /\ ~ ReachesThreshold HitVector 6 [2%nat].
Proof.
  destruct framesD_RunFlashFinder as (FV & Hrun & HPEs).
  destruct FV as [|f0 [|f FV]]; try discriminate.
  injection HPEs as _ Hf _.
  exists [hitA0; hitB1; hitD2], (f0 :: f :: FV), f.
  split; [exact Hrun|]. split; [done|].
  split; [rewrite Hf; run; reflexivity|].
  split; [exists (0 + 8 / 1)%R; split; [reflexivity|lra]|].
  split; [reflexivity|].
  intros (sum & Hsum & Hle). injection Hsum as <-. lra.
Qed.

(** ** The flag of the accumulator on doubles *)

(** C6 (not met by the code): on doubles, a bin can be flagged twice, and a
    bin whose sum crosses the threshold can stay without a flag.  The test
    subtracts the PE from the rounded sum, which need not give back the
    sum before the hit.  With a threshold of 1: a hit of PE 1 flags the
    bin, and a further hit of PE 0.4 flags it again, since the sum rounds
    below 1.4 and the difference falls below 1; a hit of PE just below 1
    followed by one of PE 3.26 brings the sum from below 1 to 4.26, and
    the difference is 1, so that the bin is not flagged at all. *)
Theorem FillAccumulator_flags_twice_or_never :
  (PrimFloat.leb 0 1 = true /\ PrimFloat.leb 0 PE_0_4 = true
   /\ exists acc1 acc2,
        B64.FillAccumulator 0 0 1 1 acc64 = Ok acc1
        /\ B64.FillAccumulator 0 1 PE_0_4 1 acc1 = Ok acc2
        /\ B64.Binned acc1 = [1%float]
        /\ B64.FlashesInAccumulator acc1 = [0%nat]
        /\ B64.Contributors acc2 = [[0%nat; 1%nat]]
        /\ B64.FlashesInAccumulator acc2 = [0%nat; 0%nat])
  /\ (PrimFloat.leb 0 PE_below_1 = true /\ PrimFloat.leb 0 PE_3_26 = true
      /\ exists acc1 acc2 before after,
           B64.FillAccumulator 0 0 PE_below_1 1 acc64 = Ok acc1
           /\ B64.FillAccumulator 0 1 PE_3_26 1 acc1 = Ok acc2
           /\ B64.Binned acc1 = [before] /\ B64.Binned acc2 = [after]
           /\ PrimFloat.ltb before 1 = true /\ PrimFloat.leb 1 after = true
           /\ B64.Contributors acc2 = [[0%nat; 1%nat]]
           /\ B64.FlashesInAccumulator acc2 = []).
Proof.
  split.
  - do 2 (split; [reflexivity|]).
    eexists _, _. split; [vm_compute; reflexivity|].
    split; [vm_compute; reflexivity|]. repeat split.
  - do 2 (split; [reflexivity|]).
    eexists _, _, _, _. split; [vm_compute; reflexivity|].
    split; [vm_compute; reflexivity|]. repeat split.
Qed.

(** ** The late-light test beyond the underflow of the exponential *)










(** * Further properties of the code *)

(** ** The frames of a run *)

Local Abbreviation by_key :=
  (fun a b : Z * list OpticalRawDigit => (a.1 < b.1)%Z).

Lemma upsert_frame_spec (F : Z) (wf : OpticalRawDigit)
    (m : list (Z * list OpticalRawDigit)) :
  StronglySorted by_key m ->
  StronglySorted by_key (upsert Z.ltb F (fun v => v ++ [wf]) [] m)
  /\ forall F' g',
       (F', g') ∈ upsert Z.ltb F (fun v => v ++ [wf]) [] m <->
       (F' <> F /\ (F', g') ∈ m)
       \/ (F' = F
           /\ ((exists g, (F, g) ∈ m /\ g' = g ++ [wf])
               \/ (forall g, (F, g) ∉ m) /\ g' = [wf])).
Proof.
  induction m as [|[k v] m IH]; intros Hs; simpl.
  - split; [repeat constructor|]. intros F' g'.
    rewrite list_elem_of_singleton. split.
    + intros [= -> ->]. right. split; [done|]. right. split; [|done].
      intros g Hg. by apply elem_of_nil in Hg.
    + intros [[_ H]|[-> [(g & H & _)|[_ ->]]]]; try done;
        by apply elem_of_nil in H.
  - apply StronglySorted_inv in Hs as [Hs Hall].
    rewrite Forall_forall in Hall.
    destruct (Z.ltb_spec F k) as [HFk|HkF].
    { split.
      - constructor; [by constructor; [|apply Forall_forall]|].
        constructor; [done|]. apply Forall_forall. intros b Hb.
        specialize (Hall b Hb). simpl in *. lia.
      - assert (Hno : forall g, (F, g) ∉ (k, v) :: m).
        { intros g Hg. apply elem_of_cons in Hg as [[= -> _]|Hg]; [lia|].
          specialize (Hall _ Hg). simpl in Hall. lia. }
        intros F' g'. rewrite elem_of_cons. split.
        + intros [[= -> ->]|H].
          * right. split; [done|]. right. by split.
          * left. split; [|done]. intros ->. by apply (Hno g').
        + intros [[_ H]|[-> [(g & H & _)|[_ ->]]]]; [by right| |by left].
          by apply Hno in H. }
    destruct (Z.ltb_spec k F) as [HkF'|HFk'].
    { destruct (IH Hs) as [IHs IHm]. split.
      - constructor; [done|]. apply Forall_forall. intros [F' g'] Hb.
        apply IHm in Hb as [[_ Hb]|[-> _]]; [by apply Hall|done].
      - intros F' g'. rewrite elem_of_cons, IHm. split.
        + intros [[= -> ->]|[[Hne H]|[-> H]]].
          * left. split; [lia|by left].
          * left. split; [done|by right].
          * right. split; [done|].
            destruct H as [(g & Hg & ->)|[Hno ->]].
            -- left. exists g. split; [by right|done].
            -- right. split; [|done]. intros g Hg.
               apply elem_of_cons in Hg as [[= -> _]|Hg]; [lia|].
               by apply (Hno g).
        + intros [[Hne H]|[-> H]].
          * apply elem_of_cons in H as [H|H]; [by left|].
            right. left. by split.
          * right. right. split; [done|].
            destruct H as [(g & Hg & ->)|[Hno ->]].
            -- apply elem_of_cons in Hg as [[= -> _]|Hg]; [lia|].
               left. by exists g.
            -- right. split; [|done]. intros g Hg. apply (Hno g).
               by right. }
    assert (k = F) as -> by lia. split.
    + constructor; [done|]. by apply Forall_forall.
    + assert (Hother : forall g, (F, g) ∉ m).
      { intros g Hg. specialize (Hall _ Hg). simpl in Hall. lia. }
      intros F' g'. rewrite elem_of_cons. split.
      * intros [[= -> ->]|H].
        -- right. split; [done|]. left. exists v. split; [by left|done].
        -- left. split; [|by right]. intros ->. by apply (Hother g').
      * intros [[Hne H]|[-> [(g & Hg & ->)|[Hno _]]]].
        -- apply elem_of_cons in H as [[= ? _]|H]; [done|by right].
        -- apply elem_of_cons in Hg as [[= ->]|Hg]; [by left|].
           by apply Hother in Hg.
        -- exfalso. apply (Hno v). by left.
Qed.

Lemma OfFrame_snoc F digits wf :
  OfFrame F (digits ++ [wf])
  = OfFrame F digits ++ (if decide (DigitFrame wf = F) then [wf] else []).
Proof.
  unfold OfFrame. by rewrite filter_app.
Qed.

(** The map holds, in the order of the frame numbers, the frames that
    have a waveform, each with its waveforms in the order of the input. *)
Lemma OpDigitChanByFrame_spec digits :
  StronglySorted by_key (OpDigitChanByFrame digits)
  /\ forall F g, (F, g) ∈ OpDigitChanByFrame digits <->
       g = OfFrame F digits /\ g <> [].
Proof.
  unfold OpDigitChanByFrame.
  induction digits as [|wf digits IH] using rev_ind.
  - split; [constructor|]. intros F g. simpl. split.
    + intros H. by apply elem_of_nil in H.
    + intros [-> H]. done.
  - rewrite foldl_app. simpl. destruct IH as [IHs IHm].
    destruct (upsert_frame_spec (DigitFrame wf) wf _ IHs) as [Hs Hm].
    split; [done|]. intros F g. rewrite Hm, OfFrame_snoc.
    destruct (decide (DigitFrame wf = F)) as [<-|Hne].
    + split.
      * intros [[Hne _]|[_ [(g0 & Hg0 & ->)|[Hno ->]]]]; [done| |].
        -- apply IHm in Hg0 as [-> _]. split; [done|].
           by destruct (OfFrame _ _).
        -- destruct (OfFrame (DigitFrame wf) digits) as [|x l] eqn:E;
             [done|].
           exfalso. apply (Hno (x :: l)). apply IHm. by rewrite E.
      * intros [-> _]. right. split; [done|].
        destruct (OfFrame (DigitFrame wf) digits) as [|x l] eqn:E.
        -- right. split; [|done]. intros g Hg.
           apply IHm in Hg as [-> Hg]. by rewrite E in Hg.
        -- left. exists (x :: l). split; [|done]. apply IHm.
           by rewrite E.
    + rewrite app_nil_r, <- IHm. split.
      * intros [[_ H]|[-> _]]; done.
      * intros H. left. by split.
Qed.

Lemma by_key_NoDup (m : list (Z * list OpticalRawDigit)) :
  StronglySorted by_key m -> NoDup m.
Proof.
  induction m as [|a m IH]; intros Hs; [constructor|].
  apply StronglySorted_inv in Hs as [Hs Hall]. constructor; [|by apply IH].
  intros Ha. rewrite Forall_forall in Hall. specialize (Hall a Ha).
  simpl in Hall. lia.
Qed.

Lemma by_key_unique (m1 m2 : list (Z * list OpticalRawDigit)) :
  StronglySorted by_key m1 -> StronglySorted by_key m2 ->
  (forall e, e ∈ m1 <-> e ∈ m2) -> m1 = m2.
Proof.
  intros H1 H2 Hm.
  assert (AntiSymm eq by_key) by (intros a b ? ?; simpl in *; lia).
  apply (StronglySorted_unique by_key); [done|done|].
  apply NoDup_Permutation; [by apply by_key_NoDup..|done].
Qed.

Lemma foldM_fmap {A B S : Type} (body : S -> B -> result S) (f : A -> B)
    (l : list A) (s : S) :
  foldM body (f <$> l) s = foldM (fun s a => body s (f a)) l s.
Proof.
  revert s. induction l as [|a l IH]; intros s; simpl; [done|].
  destruct (body s (f a)); simpl; [apply IH|done].
Qed.

Lemma foldM_ext {A S : Type} (body1 body2 : S -> A -> result S) (l : list A)
    (s : S) :
  (forall s a, body1 s a = body2 s a) ->
  foldM body1 l s = foldM body2 l s.
Proof.
  intros Hext. revert s. induction l as [|a l IH]; intros s; simpl; [done|].
  rewrite Hext. destruct (body2 s a); simpl; [apply IH|done].
Qed.

(** X1: [RunFlashFinder] calls [ProcessFrame] once for every frame that has
    a waveform, in the order of the frame numbers, each time with the
    waveforms of that frame in the order of the input, and hands the hit
    vector, the flash vector and the association table from one call to
    the next.  The frame numbers are taken to fit the [unsigned short] key
    of the map. *)
Theorem RunFlashFinder_frame_by_frame OpticalRawDigitVector (frames : list Z)
    HitVector FlashVector AssocList BinWidth ChannelMap geom HitThreshold
    FlashThreshold WidthTolerance ts SPESize TrigCoinc :
  Forall (fun wf => (0 <= DigitFrame wf < 65536)%Z) OpticalRawDigitVector ->
  StronglySorted Z.lt frames ->
  (forall Frame, Frame ∈ frames <->
     exists wf, wf ∈ OpticalRawDigitVector /\ DigitFrame wf = Frame) ->
  RunFlashFinder OpticalRawDigitVector HitVector FlashVector AssocList
                 BinWidth ChannelMap geom HitThreshold FlashThreshold
                 WidthTolerance ts SPESize TrigCoinc
  = foldM (fun '(HitVector, FlashVector, AssocList) Frame =>
             ProcessFrame Frame (OfFrame Frame OpticalRawDigitVector)
                          HitVector FlashVector AssocList BinWidth
                          ChannelMap geom HitThreshold FlashThreshold
                          WidthTolerance ts SPESize TrigCoinc)
          frames (HitVector, FlashVector, AssocList).
Proof.
  intros _ Hsorted Hframes.
  assert (Hmap : OpDigitChanByFrame OpticalRawDigitVector
                 = (fun F => (F, OfFrame F OpticalRawDigitVector))
                     <$> frames).
  { destruct (OpDigitChanByFrame_spec OpticalRawDigitVector) as [Hs Hm].
    apply by_key_unique; [done| |].
    - clear Hframes. induction Hsorted as [|F l Hl IH Hall];
        [constructor|].
      simpl. constructor; [done|]. apply Forall_fmap.
      eapply Forall_impl; [exact Hall|]. done.
    - intros [F g]. rewrite Hm, list_elem_of_fmap. split.
      + intros [-> Hne]. exists F. split; [done|]. apply Hframes.
        destruct (OfFrame F OpticalRawDigitVector) as [|wf l] eqn:E;
          [done|].
        assert (Hin : wf ∈ OfFrame F OpticalRawDigitVector)
          by (rewrite E; by left).
        apply list_elem_of_filter in Hin as [? ?]. by exists wf.
      + intros (F' & [= -> ->] & HF). split; [done|].
        apply Hframes in HF as (wf & Hwf & HF). intros E.
        assert (Hin : wf ∈ OfFrame F' OpticalRawDigitVector).
        { apply list_elem_of_filter. by split. }
        rewrite E in Hin. by apply elem_of_nil in Hin. }
  unfold RunFlashFinder.
  change (foldl _ [] OpticalRawDigitVector)
    with (OpDigitChanByFrame OpticalRawDigitVector).
  rewrite Hmap, foldM_fmap. apply foldM_ext. by intros [[HV FV] AL] F.
Qed.

Lemma RunFlashFinder_frame_by_frame_witness :
  RunFlashFinder [digitC1; digitC0] [] [] [] 4000 map0 geom0 2 6 1 ts0
                 [1%R] 1
  = foldM (fun '(HitVector, FlashVector, AssocList) Frame =>
             ProcessFrame Frame (OfFrame Frame [digitC1; digitC0])
                          HitVector FlashVector AssocList 4000 map0 geom0
                          2 6 1 ts0 [1%R] 1)
          [0; 1]%Z ([], [], []).
Proof.
  apply RunFlashFinder_frame_by_frame.
  - repeat constructor; simpl; lia.
  - repeat constructor; lia.
  - intros F. split.
    + intros H. apply elem_of_cons in H as [->|H];
        [exists digitC0; split; [by right; left|done]|].
      apply list_elem_of_singleton in H as ->.
      exists digitC1. split; [by left|done].
    + intros (wf & Hwf & <-). apply elem_of_cons in Hwf as [->|Hwf];
        [by right; left|].
      apply list_elem_of_singleton in Hwf as ->. by left.
Defined.

(** ** Hits and accumulators of a frame *)

Lemma SumPE_app_hits HitVector more hits sum :
  SumPE HitVector hits = Ok sum -> SumPE (HitVector ++ more) hits = Ok sum.
Proof.
  unfold SumPE. generalize 0%R. revert sum.
  induction hits as [|x hits IH]; intros sum a H; simpl in *; [done|].
  apply bind_Ok in H as (a1 & H1 & H).
  apply bind_Ok in H1 as (h & Hh & H1). injection H1 as <-.
  apply at_Ok in Hh.
  assert (Hh' : at_ (HitVector ++ more) x = Ok h).
  { apply at_Ok. by apply lookup_app_l_Some. }
  rewrite Hh'. simpl. by apply IH.
Qed.

Lemma SumsMatchContributors_app HitVector more acc :
  SumsMatchContributors HitVector acc ->
  SumsMatchContributors (HitVector ++ more) acc.
Proof.
  intros [Hlen H]. split; [done|]. intros b c Hc.
  destruct (H b c Hc) as (sum & Hs & Hb). exists sum.
  split; [by apply SumPE_app_hits|done].
Qed.

(** Filling a bin with a hit of the hit vector and its PE keeps the sums
    in step with the contributors. *)
Lemma FillAccumulator_SumsMatch HitVector h AccumIndex HitIndex thr acc acc' :
  HitVector !! HitIndex = Some h ->
  SumsMatchContributors HitVector acc ->
  FillAccumulator AccumIndex HitIndex (OpHit.PE h) thr acc = Ok acc' ->
  SumsMatchContributors HitVector acc'.
Proof.
  intros Hh [Hlen H] Hfill. unfold FillAccumulator in Hfill.
  apply bind_Ok in Hfill as (c & Hc & Hfill). apply at_Ok in Hc.
  apply bind_Ok in Hfill as (b & Hb & Hfill). apply at_Ok in Hb.
  apply bind_Ok in Hfill as (s & Hs & Hfill). apply at_Ok in Hs.
  destruct (H _ _ Hc) as (sum & Hsum & Hb').
  assert (sum = b) as -> by congruence.
  assert (Hacc : exists F,
            acc' = mkAccumulator (<[AccumIndex := (b + OpHit.PE h)%R]>
                                    (Binned acc))
                                 (<[AccumIndex := c ++ [HitIndex]]>
                                    (Contributors acc)) F).
  { destruct (_ && _); injection Hfill as <-; by eexists. }
  destruct Hacc as [F ->]. split; simpl; [by rewrite !length_insert|].
  intros bin c' Hc'. destruct (decide (bin = AccumIndex)) as [->|Hne].
  - rewrite list_lookup_insert_eq in Hc' by (by eapply lookup_lt_Some).
    injection Hc' as <-. exists (b + OpHit.PE h)%R.
    split; [by apply SumPE_snoc|].
    rewrite list_lookup_insert_eq; [done|]. by eapply lookup_lt_Some.
  - rewrite list_lookup_insert_ne in Hc' by done.
    rewrite list_lookup_insert_ne by done. by apply H.
Qed.

(** One pulse: the hit vector stays or grows by one hit of the frame, and
    both accumulators stay in step with it. *)
Lemma ProcessPulse_spec HitThreshold thr Channel TimeSlice Frame BinWidth ts
    SPESize pulse geom HitVector acc1 acc2 HitVector' acc1' acc2' :
  (0 <= Channel <= Z.of_nat (NOpChannels geom))%Z ->
  SumsMatchContributors HitVector acc1 ->
  SumsMatchContributors HitVector acc2 ->
  ProcessPulse HitThreshold thr Channel TimeSlice Frame BinWidth ts SPESize
               pulse (HitVector, acc1, acc2) = Ok (HitVector', acc1', acc2') ->
  (exists new, HitVector' = HitVector ++ new
     /\ (length new <= 1)%nat
     /\ Forall (HitOfFrame Frame geom HitThreshold SPESize) new)
  /\ SumsMatchContributors HitVector' acc1'
  /\ SumsMatchContributors HitVector' acc2'.
Proof.
  intros HCh H1 H2 H. unfold ProcessPulse in H.
  apply bind_Ok in H as (spe & Hspe & H).
  apply bind_Ok in H as (i1 & _ & H).
  apply bind_Ok in H as ([k1 h1] & Hb1 & H).
  apply bind_Ok in H as (a1 & Hf1 & H).
  apply bind_Ok in H as (i2 & _ & H).
  apply bind_Ok in H as ([k2 h2] & Hb2 & H).
  apply bind_Ok in H as (a2 & Hf2 & H). injection H as <- <- <-.
  set (HV' := ConstructHit HitThreshold Channel TimeSlice Frame pulse ts spe
                           HitVector) in *.
  assert (Hnew : exists new, HV' = HitVector ++ new /\ (length new <= 1)%nat
                   /\ Forall (HitOfFrame Frame geom HitThreshold SPESize) new).
  { unfold HV', ConstructHit. destruct (Rlt_b_spec (peak pulse) HitThreshold).
    - exists []. rewrite app_nil_r. split; [done|]. split; [simpl; lia|done].
    - eexists [_]. split; [done|]. split; [simpl; lia|].
      constructor; [|done]. unfold HitOfFrame. simpl.
      split; [lra|]. split; [done|]. split; [done|]. split; [done|].
      exists spe. split; [|done]. unfold at_Z in Hspe.
      destruct (_ <? 0)%Z; [discriminate|]. by apply at_Ok in Hspe. }
  split; [done|]. destruct Hnew as (new & Hnew & _).
  assert (Hback : forall k h, back_index HV' = Ok (k, h) -> HV' !! k = Some h).
  { intros k h Hb. unfold back_index in Hb.
    destruct (last HV') as [h'|] eqn:El; [|discriminate]. injection Hb as <- <-.
    rewrite last_lookup in El. rewrite <- El. f_equal. lia. }
  split.
  - eapply (FillAccumulator_SumsMatch _ h1 _ k1); [by apply Hback| |exact Hf1].
    rewrite Hnew. by apply SumsMatchContributors_app.
  - eapply (FillAccumulator_SumsMatch _ h2 _ k2); [by apply Hback| |exact Hf2].
    rewrite Hnew. by apply SumsMatchContributors_app.
Qed.

Lemma ProcessDigits_spec Frame digits BinWidth ChannelMap geom HitThreshold
    thr ts SPESize HitVector acc1 acc2 HitVector' acc1' acc2' :
  SumsMatchContributors HitVector acc1 ->
  SumsMatchContributors HitVector acc2 ->
  ProcessDigits Frame digits BinWidth ChannelMap geom HitThreshold thr ts
                SPESize (HitVector, acc1, acc2)
  = Ok (HitVector', acc1', acc2') ->
  (exists new, HitVector' = HitVector ++ new
     /\ Forall (HitOfFrame Frame geom HitThreshold SPESize) new)
  /\ SumsMatchContributors HitVector' acc1'
  /\ SumsMatchContributors HitVector' acc2'.
Proof.
  intros H1 H2. unfold ProcessDigits.
  set (Inv := fun st : list OpHit.t * Accumulator * Accumulator =>
         (exists new, st.1.1 = HitVector ++ new
            /\ Forall (HitOfFrame Frame geom HitThreshold SPESize) new)
         /\ SumsMatchContributors st.1.1 st.1.2
         /\ SumsMatchContributors st.1.1 st.2).
  intros H. apply (foldM_invariant Inv) in H; [exact H| |].
  2:{ split; [|done]. exists []. by rewrite app_nil_r. }
  intros st wf st' _ Hst Hstep.
  apply bind_Ok in Hstep as (Channel & _ & Hstep).
  destruct (Z.ltb_spec Channel 0); simpl in Hstep; [by injection Hstep as <-|].
  destruct (Z.ltb_spec (Z.of_nat (NOpChannels geom)) Channel);
    simpl in Hstep; [by injection Hstep as <-|].
  destruct (_ <? _)%Z; [by injection Hstep as <-|].
  revert Hstep. apply foldM_invariant; [|done].
  intros [[HV a1] a2] pulse [[HV1 a1'] a2'] _ ((new & Hnew & Hall) & Ha1 & Ha2)
         Hp. simpl in *.
  eapply (ProcessPulse_spec _ _ _ _ _ _ _ _ _ geom) in Hp
    as ((new1 & -> & _ & Hall1) & ? & ?); [|lia|done|done].
  split; [|done]. exists (new ++ new1). rewrite Hnew, <- app_assoc.
  split; [done|]. by apply Forall_app.
Qed.

Lemma SumsMatchContributors_fresh HitVector n :
  SumsMatchContributors HitVector
    (mkAccumulator (replicate n 0%R) (replicate n []) []).
Proof.
  split; [simpl; by rewrite !length_replicate|]. simpl. intros b c Hc.
  apply lookup_replicate in Hc as [-> Hb]. exists 0%R.
  split; [done|]. by apply lookup_replicate.
Qed.

(** X2: in each of the two accumulators that the loops of [ProcessFrame]
    over waveforms and pulses fill from empty, the sum of every bin is the
    summed PE of the bin's contributors, read from the hit vector. *)
Theorem accumulator_sums_are_contributor_PE Frame digits BinWidth ChannelMap
    geom HitThreshold thr ts SPESize HitVector n HitVector' acc1 acc2 :
  ProcessDigits Frame digits BinWidth ChannelMap geom HitThreshold thr ts
                SPESize
                (HitVector,
                 mkAccumulator (replicate n 0%R) (replicate n []) [],
                 mkAccumulator (replicate n 0%R) (replicate n []) [])
  = Ok (HitVector', acc1, acc2) ->
  SumsMatchContributors HitVector' acc1
  /\ SumsMatchContributors HitVector' acc2.
Proof.
  intros H. apply ProcessDigits_spec in H as (_ & ? & ?);
    [done|apply SumsMatchContributors_fresh..].
Qed.

Lemma accumulator_sums_are_contributor_PE_witness :
  SumPE [hitA0] [0; 0]%nat = Ok (0 + 8 / 1 + 8 / 1)%R.
Proof.
  destruct (accumulator_sums_are_contributor_PE _ _ _ _ _ _ _ _ _ _ 3 _ _ _
              frameB_with) as [[_ H] _].
  destruct (H 0%nat [0; 0]%nat eq_refl) as (sum & Hsum & Hb).
  injection Hb as <-. exact Hsum.
Defined.

Lemma FrameHitSets_hits Frame digits HitVector BinWidth ChannelMap geom
    HitThreshold thr WT ts SPESize HitVector' Refined :
  FrameHitSets Frame digits HitVector BinWidth ChannelMap geom HitThreshold
               thr WT ts SPESize = Ok (HitVector', Refined) ->
  exists new, HitVector' = HitVector ++ new
    /\ Forall (HitOfFrame Frame geom HitThreshold SPESize) new.
Proof.
  unfold FrameHitSets. intros H.
  apply bind_Ok in H as (n & _ & H).
  apply bind_Ok in H as ([[HV a1] a2] & Hd & H).
  apply bind_Ok in H as (HPF & _ & H).
  apply bind_Ok in H as (R0 & _ & H). injection H as <- <-.
  by apply ProcessDigits_spec in Hd as (? & _);
    [|apply SumsMatchContributors_fresh..].
Qed.

(** X3: [ProcessFrame] only appends to the hit vector, and every hit it
    appends has an amplitude at or above the hit threshold, a channel
    between 0 and the channel count (the count itself included), the frame
    of the call, a zero fast-to-total fraction, and a PE that is its
    amplitude over the calibration of its channel. *)
Theorem ProcessFrame_appends_hits Frame digits HitVector FlashVector
    AssocList BinWidth ChannelMap geom HitThreshold thr WT ts SPESize
    TrigCoinc HitVector' FlashVector' AssocList' :
  ProcessFrame Frame digits HitVector FlashVector AssocList BinWidth
               ChannelMap geom HitThreshold thr WT ts SPESize TrigCoinc
  = Ok (HitVector', FlashVector', AssocList') ->
  exists new, HitVector' = HitVector ++ new
    /\ Forall (HitOfFrame Frame geom HitThreshold SPESize) new.
Proof.
  unfold ProcessFrame. intros H.
  apply bind_Ok in H as ([HV Refined] & Hsets & H).
  apply bind_Ok in H as (FV1 & _ & H).
  apply bind_Ok in H as ([FV2 R2] & _ & H). injection H as <- <- <-.
  by eapply FrameHitSets_hits.
Qed.

Lemma ProcessFrame_appends_hits_witness :
  exists new, [hitA0; hitA1] = [] ++ new
    /\ Forall (HitOfFrame 0 geom0 2 [1%R]) new.
Proof.
  destruct frameA_ProcessFrame as (FV & Hrun & _).
  exact (ProcessFrame_appends_hits _ _ _ _ _ _ _ _ _ _ _ _ _ _ _ _ _ Hrun).
Defined.

(** ** Waveforms that are passed over, and channels that are not mapped *)

Lemma ProcessDigits_app Frame pre post BinWidth ChannelMap geom HitThreshold
    thr ts SPESize st :
  ProcessDigits Frame (pre ++ post) BinWidth ChannelMap geom HitThreshold thr
                ts SPESize st
  = bind (ProcessDigits Frame pre BinWidth ChannelMap geom HitThreshold thr
                        ts SPESize st)
         (ProcessDigits Frame post BinWidth ChannelMap geom HitThreshold thr
                        ts SPESize).
Proof. unfold ProcessDigits. apply foldM_app. Qed.

Lemma ProcessDigits_passed_over Frame pre wf post BinWidth ChannelMap geom
    HitThreshold thr ts SPESize st :
  PassedOver ChannelMap geom ts wf ->
  ProcessDigits Frame (pre ++ wf :: post) BinWidth ChannelMap geom
                HitThreshold thr ts SPESize st
  = ProcessDigits Frame (pre ++ post) BinWidth ChannelMap geom HitThreshold
                  thr ts SPESize st.
Proof.
  intros (Channel & Hmap & Hout). rewrite !ProcessDigits_app.
  destruct (ProcessDigits Frame pre _ _ _ _ _ _ _ st) as [st1|e]; [|done].
  simpl. unfold ProcessDigits at 1. simpl. unfold map_at. rewrite Hmap. simpl.
  destruct (Z.ltb_spec Channel 0); simpl; [done|].
  destruct (Z.ltb_spec (Z.of_nat (NOpChannels geom)) Channel); simpl; [done|].
  destruct (Z.ltb_spec (FrameTicks ts) (TimeSlice wf)); [done|]. lia.
Qed.

(** X4: a waveform whose channel maps below 0 or above the channel count,
    or whose time slice is beyond the ticks of a frame, is passed over:
    [ProcessFrame] gives what it gives without that waveform. *)
Theorem ProcessFrame_passes_over Frame pre wf post HitVector FlashVector
    AssocList BinWidth ChannelMap geom HitThreshold thr WT ts SPESize
    TrigCoinc :
  PassedOver ChannelMap geom ts wf ->
  ProcessFrame Frame (pre ++ wf :: post) HitVector FlashVector AssocList
               BinWidth ChannelMap geom HitThreshold thr WT ts SPESize
               TrigCoinc
  = ProcessFrame Frame (pre ++ post) HitVector FlashVector AssocList
                 BinWidth ChannelMap geom HitThreshold thr WT ts SPESize
                 TrigCoinc.
Proof.
  intros Hwf. unfold ProcessFrame, FrameHitSets.
  destruct (NBins ts BinWidth) as [n|e]; [simpl|done].
  by rewrite (ProcessDigits_passed_over _ _ _ _ _ _ _ _ _ _ _ _ Hwf).
Qed.

Lemma ProcessFrame_passes_over_witness :
  ProcessFrame 0 ([] ++ digitLate :: [digitA]) [] [] [] 4000 map0 geom0 2 6 1
               ts0 [1%R] 1
  = ProcessFrame 0 ([] ++ [digitA]) [] [] [] 4000 map0 geom0 2 6 1 ts0
                 [1%R] 1.
Proof.
  apply ProcessFrame_passes_over. exists 0%Z.
  split; [reflexivity|]. right; right. reflexivity.
Defined.

(** X5: a waveform whose channel number is not a key of the channel map
    stops the frame: when the waveforms before it are processed without
    an exception, [ProcessFrame] throws [out_of_range]. *)
Theorem ProcessFrame_unmapped_channel Frame pre wf post HitVector FlashVector
    AssocList BinWidth ChannelMap geom HitThreshold thr WT ts SPESize
    TrigCoinc n st :
  ChannelMap !! ChannelNumber wf = None ->
  NBins ts BinWidth = Ok n ->
  ProcessDigits Frame pre BinWidth ChannelMap geom HitThreshold thr ts
                SPESize
                (HitVector,
                 mkAccumulator (replicate n 0%R) (replicate n []) [],
                 mkAccumulator (replicate n 0%R) (replicate n []) [])
  = Ok st ->
  ProcessFrame Frame (pre ++ wf :: post) HitVector FlashVector AssocList
               BinWidth ChannelMap geom HitThreshold thr WT ts SPESize
               TrigCoinc
  = Throw out_of_range.
Proof.
  intros Hmap Hn Hpre. unfold ProcessFrame, FrameHitSets. rewrite Hn. simpl.
  rewrite ProcessDigits_app, Hpre. simpl.
  unfold ProcessDigits. simpl. unfold map_at. by rewrite Hmap.
Qed.

Lemma ProcessFrame_unmapped_channel_witness :
  ProcessFrame 0 ([digitC0] ++ digitUnmapped :: [digitA]) [] [] [] 4000 map0
               geom0 2 10 1 ts0 [1%R] 1
  = Throw out_of_range.
Proof.
  eapply (ProcessFrame_unmapped_channel 0 [digitC0] digitUnmapped [digitA]
            [] [] [] 4000 map0 geom0 2 10 1 ts0 [1%R] 1 3).
  - reflexivity.
  - reflexivity.
  - exact frameB_without.
Defined.

(** ** The bin of a time *)

(** What a returned index says about the quotient: the index is the
    quotient with its fraction cut off. *)
Lemma GetAccumIndex_Ok TMax TimeSlice BinWidth BinOffset n :
  GetAccumIndex TMax TimeSlice BinWidth BinOffset = Ok n ->
  (0 < BinWidth)%Z ->
  (0 <= TMax + IZR TimeSlice + BinOffset)%R ->
  (INR n * IZR BinWidth <= TMax + IZR TimeSlice + BinOffset
   < (INR n + 1) * IZR BinWidth)%R.
Proof.
  unfold GetAccumIndex. intros H HW Ht.
  destruct (Z.eqb_spec BinWidth 0); [lia|].
  destruct (Rle_b _ (-1)); [discriminate|].
  destruct (Rle_b 4294967296 _); [discriminate|]. injection H as <-.
  set (t := (TMax + IZR TimeSlice + BinOffset)%R) in *.
  assert (HWR : (0 < IZR BinWidth)%R) by (by apply IZR_lt).
  destruct (base_Int_part (t / IZR BinWidth)) as [Hlo Hhi].
  assert (Hq : (0 <= t / IZR BinWidth)%R).
  { apply Rmult_le_pos; [done|]. left. by apply Rinv_0_lt_compat. }
  assert (Hz : (0 <= Int_part (t / IZR BinWidth))%Z).
  { assert (-1 < Int_part (t / IZR BinWidth))%Z; [|lia].
    apply lt_IZR. lra. }
  rewrite INR_IZR_INZ, Z2Nat.id by done.
  assert (Ht' : t = (t / IZR BinWidth * IZR BinWidth)%R) by (field; lra).
  split.
  - rewrite Ht' at 2. apply Rmult_le_compat_r; lra.
  - rewrite Ht' at 1. apply Rmult_lt_compat_r; lra.
Qed.

(** X6: for whole-number times, where the sums of the doubles are exact
    ([TMax] and [BinOffset] whole numbers, the time below 2^50, the bin
    width positive), [GetAccumIndex] returns the bin that holds the time:
    the time lies at or after the start of that bin and before the start
    of the next one.  It returns such a bin whenever the bin number fits
    an [unsigned int]. *)
Theorem GetAccumIndex_bin_holds_time (k m : Z) TMax TimeSlice BinWidth
    BinOffset :
  TMax = IZR k -> BinOffset = IZR m ->
  (0 <= k < 1125899906842624)%Z -> (0 <= TimeSlice < 4294967296)%Z ->
  (0 <= m < 2147483648)%Z -> (0 < BinWidth < 2147483648)%Z ->
  (k + TimeSlice + m < 4294967296 * BinWidth)%Z ->
  exists n, GetAccumIndex TMax TimeSlice BinWidth BinOffset = Ok n
    /\ (INR n * IZR BinWidth <= TMax + IZR TimeSlice + BinOffset
        < (INR n + 1) * IZR BinWidth)%R.
Proof.
  intros -> -> Hk HTS Hm HW Hfit.
  assert (HWR : (0 < IZR BinWidth)%R) by (apply IZR_lt; lia).
  assert (Ht : (IZR k + IZR TimeSlice + IZR m
                = IZR (k + TimeSlice + m))%R) by (by rewrite !plus_IZR).
  assert (H0 : (0 <= IZR k + IZR TimeSlice + IZR m)%R).
  { rewrite Ht. apply IZR_le. lia. }
  assert (Hq : (0 <= (IZR k + IZR TimeSlice + IZR m) / IZR BinWidth)%R).
  { apply Rmult_le_pos; [done|]. left. by apply Rinv_0_lt_compat. }
  assert (Hlt : ((IZR k + IZR TimeSlice + IZR m) / IZR BinWidth
                 < 4294967296)%R).
  { apply (Rmult_lt_reg_r (IZR BinWidth)); [done|].
    unfold Rdiv. rewrite Rmult_assoc, Rinv_l, Rmult_1_r by lra.
    rewrite Ht, <- mult_IZR. by apply IZR_lt. }
  assert (Hrun : exists n,
             GetAccumIndex (IZR k) TimeSlice BinWidth (IZR m) = Ok n).
  { unfold GetAccumIndex. destruct (Z.eqb_spec BinWidth 0); [lia|].
    rewrite Rle_b_false by lra. rewrite Rle_b_false by lra. by eexists. }
  destruct Hrun as [n Hn]. exists n. split; [done|].
  apply GetAccumIndex_Ok; [done|lia|done].
Qed.

Lemma GetAccumIndex_bin_holds_time_witness :
  exists n, GetAccumIndex 5000 0 4000 2000 = Ok n
    /\ (INR n * 4000 <= 5000 + 0 + 2000 < (INR n + 1) * 4000)%R.
Proof.
  apply (GetAccumIndex_bin_holds_time 5000 2000 5000 0 4000 2000);
    [reflexivity|reflexivity|lia..].
Defined.

(** X7: the second accumulator of [ProcessFrame], whose bins start half a
    bin width earlier, puts a pulse in the bin of the same number as the
    first accumulator does, or in the next one. *)
Theorem GetAccumIndex_half_offset TMax TimeSlice BinWidth n1 n2 :
  (0 < BinWidth)%Z ->
  (0 <= TMax + IZR TimeSlice)%R ->
  GetAccumIndex TMax TimeSlice BinWidth 0 = Ok n1 ->
  GetAccumIndex TMax TimeSlice BinWidth (IZR (Z.quot BinWidth 2)) = Ok n2 ->
  n2 = n1 \/ n2 = S n1.
Proof.
  intros HW Ht H1 H2.
  assert (Hh : (0 <= BinWidth ÷ 2 /\ 2 * (BinWidth ÷ 2) <= BinWidth)%Z).
  { rewrite Z.quot_div_nonneg by lia. split; [apply Z.div_pos; lia|].
    apply Z.mul_div_le. lia. }
  destruct Hh as [Hh0 Hh1]. apply IZR_le in Hh0, Hh1.
  rewrite mult_IZR in Hh1.
  assert (HWR : (0 < IZR BinWidth)%R) by (by apply IZR_lt).
  apply GetAccumIndex_Ok in H1; [|done|lra].
  apply GetAccumIndex_Ok in H2; [|done|lra].
  assert (Hlo : (INR n1 < INR n2 + 1)%R).
  { apply (Rmult_lt_reg_r (IZR BinWidth)); [done|]. lra. }
  assert (Hhi : (INR n2 < INR n1 + 2)%R).
  { apply (Rmult_lt_reg_r (IZR BinWidth)); [done|]. lra. }
  rewrite <- (S_INR n2) in Hlo. apply INR_lt in Hlo.
  replace (INR n1 + 2)%R with (INR (S (S n1))) in Hhi
    by (rewrite !S_INR; lra).
  apply INR_lt in Hhi. lia.
Qed.

Lemma GetAccumIndex_half_offset_witness :
  Z.to_nat 1 = Z.to_nat 0 \/ Z.to_nat 1 = S (Z.to_nat 0).
Proof.
  apply (GetAccumIndex_half_offset 3000 0 4000); [lia|lra| |].
  - apply GetAccumIndex_eval; [done|lia|lra].
  - apply GetAccumIndex_eval; [done|lia|].
    change (4000 ÷ 2)%Z with 2000%Z. lra.
Defined.

(** ** The coarse flashes and the bins *)

Lemma upsert_elem_of {K V : Type} (before : K -> K -> bool) (k : K)
    (f : V -> V) (d : V) (m : list (K * V)) (e : K * V) :
  e ∈ upsert before k f d m ->
  e ∈ m \/ e = (k, f d)
  \/ exists v, (e.1, v) ∈ m /\ e.2 = f v
       /\ before k e.1 = false /\ before e.1 k = false.
Proof.
  induction m as [|[k' v] m IH]; simpl; intros He.
  - apply list_elem_of_singleton in He. auto.
  - destruct (before k k') eqn:E1.
    { apply elem_of_cons in He as [->|He]; auto. }
    destruct (before k' k) eqn:E2.
    + apply elem_of_cons in He as [->|He]; [left; by left|].
      destruct (IH He) as [H|[H|(v0 & H & ?)]]; [left; by right|auto|].
      right. right. exists v0. split; [by right|done].
    + apply elem_of_cons in He as [->|He]; [|left; by right].
      right. right. exists v. simpl. split; [by left|done].
Qed.

Lemma FillFlashesBySizeMap_filed (F1 F2 F : list nat) BinnedPE (acc : Z)
    m m' :
  (acc = 1%Z /\ (forall b, b ∈ F -> b ∈ F1)
   \/ acc = 2%Z /\ (forall b, b ∈ F -> b ∈ F2)) ->
  BinsFiled F1 F2 m ->
  FillFlashesBySizeMap F BinnedPE acc m = Ok m' ->
  BinsFiled F1 F2 m'.
Proof.
  intros Hacc. unfold FillFlashesBySizeMap. apply foldM_invariant.
  intros m0 flash m1 Hflash Hm0 Hstep.
  apply bind_Ok in Hstep as (size & _ & Hstep). injection Hstep as <-.
  assert (Hnew : acc = 1%Z /\ flash ∈ F1 \/ acc = 2%Z /\ flash ∈ F2).
  { destruct Hacc as [[-> H]|[-> H]]; [left|right]; auto. }
  intros itFlash itAcc Bin HitF HitA HBin.
  apply upsert_elem_of in HitF as [HitF|[->|(v & Hv & Hf & _)]].
  - by eapply Hm0.
  - simpl in HitA. apply list_elem_of_singleton in HitA as ->.
    simpl in HBin. apply list_elem_of_singleton in HBin as ->. done.
  - rewrite Hf in HitA.
    apply upsert_elem_of in HitA as [HitA|[->|(bins & Hb & Hbins & E1 & E2)]].
    + by eapply (Hm0 (itFlash.1, v)).
    + simpl in HBin. apply list_elem_of_singleton in HBin as ->. done.
    + rewrite Hbins in HBin. apply elem_of_app in HBin as [HBin|HBin].
      * by eapply (Hm0 (itFlash.1, v) (itAcc.1, bins)).
      * apply list_elem_of_singleton in HBin as ->.
        apply Z.ltb_ge in E1, E2. assert (itAcc.1 = acc) as -> by lia.
        done.
Qed.

Lemma FillHitsThisFlash_contributors Contributors Bin NHits_prev Cl hits :
  FillHitsThisFlash Contributors Bin NHits_prev Cl [] = Ok hits ->
  exists c, Contributors !! Bin = Some c /\ forall x, x ∈ hits -> x ∈ c.
Proof.
  unfold FillHitsThisFlash. intros H.
  apply bind_Ok in H as (c & Hc & H). apply at_Ok in Hc.
  exists c. split; [done|]. revert H.
  apply (foldM_invariant (fun l => forall x, x ∈ l -> x ∈ c));
    [|intros x Hx; by apply elem_of_nil in Hx].
  intros l y l' Hy Hl Hstep.
  apply bind_Ok in Hstep as (z & _ & Hstep).
  destruct (z =? -1)%Z; injection Hstep as <-; [|done].
  intros x Hx. apply elem_of_app in Hx as [Hx|Hx]; [by apply Hl|].
  by apply list_elem_of_singleton in Hx as ->.
Qed.

Lemma ClaimHits_stores HitVector hits thr HitsPerFlash NHits_prev Cl
    HitsPerFlash' Cl' :
  ClaimHits HitVector hits thr HitsPerFlash NHits_prev Cl
  = Ok (HitsPerFlash', Cl') ->
  HitsPerFlash' = HitsPerFlash \/ HitsPerFlash' = HitsPerFlash ++ [hits].
Proof.
  unfold ClaimHits. intros H. apply bind_Ok in H as (PE_ & _ & H).
  destruct (Rlt_b _ _); [injection H as <- <-; by left|].
  apply bind_Ok in H as (? & _ & H). injection H as <- <-. by right.
Qed.

(** X8: every coarse flash that [AssignHitsToFlash] returns holds only
    contributors of one bin that its accumulator has flagged. *)
Theorem coarse_flash_from_one_flagged_bin F1 F2 B1 B2 C1 C2 NHits HitVector
    thr HitsPerFlash :
  AssignHitsToFlash F1 F2 B1 B2 C1 C2 NHits HitVector [] thr
  = Ok HitsPerFlash ->
  Forall (FromOneBin F1 F2 C1 C2) HitsPerFlash.
Proof.
  unfold AssignHitsToFlash. intros H.
  apply bind_Ok in H as (m1 & Hm1 & H). apply bind_Ok in H as (m2 & Hm2 & H).
  apply bind_Ok in H as ([HPF Cl] & Hloop & H). injection H as <-.
  assert (Hfiled : BinsFiled F1 F2 m2).
  { eapply (FillFlashesBySizeMap_filed F1 F2 F2); [|  |exact Hm2].
    - right. by split.
    - eapply (FillFlashesBySizeMap_filed F1 F2 F1); [| |exact Hm1].
      + left. by split.
      + intros itFlash itAcc Bin HitF. by apply elem_of_nil in HitF. }
  revert Hloop.
  apply (foldM_invariant
           (fun st : list (list nat) * list Z =>
              Forall (FromOneBin F1 F2 C1 C2) st.1)); [|constructor].
  intros st itFlash st' HitF Hst.
  apply (foldM_invariant
           (fun st : list (list nat) * list Z =>
              Forall (FromOneBin F1 F2 C1 C2) st.1)); [|done].
  intros st1 itAcc st1' HitA Hst1.
  apply (foldM_invariant
           (fun st : list (list nat) * list Z =>
              Forall (FromOneBin F1 F2 C1 C2) st.1)); [|done].
  intros [HPF2 Cl2] Bin [HPF3 Cl3] HBin Hst2 Hstep. simpl in *.
  apply bind_Ok in Hstep as (hits & Hfill & Hclaim).
  apply ClaimHits_stores in Hclaim as [->| ->]; [done|].
  apply Forall_app. split; [done|]. constructor; [|done].
  destruct (Hfiled itFlash itAcc Bin HitF HitA HBin) as [[E HF]|[E HF]];
    rewrite E in Hfill; simpl in Hfill.
  - apply FillHitsThisFlash_contributors in Hfill as (c & Hc & Hsub).
    exists Bin, c. split; [by left|done].
  - apply FillHitsThisFlash_contributors in Hfill as (c & Hc & Hsub).
    exists Bin, c. split; [by right|done].
Qed.

Lemma AssignHitsToFlash_example :
  AssignHitsToFlash [0; 1]%nat [1]%nat [8; 9; 0]%R [0; 9; 0]%R
                    [[0]; [1]; []]%nat [[]; [1]; []]%nat 2 [hitA0; hitA1] []
                    6
  = Ok [[1]; [0]]%nat.
Proof. run. reflexivity. Qed.

Lemma coarse_flash_from_one_flagged_bin_witness :
  Forall (FromOneBin [0; 1]%nat [1]%nat [[0]; [1]; []]%nat
                     [[]; [1]; []]%nat) [[1]; [0]]%nat.
Proof.
  exact (coarse_flash_from_one_flagged_bin _ _ _ _ _ _ _ _ _ _
           AssignHitsToFlash_example).
Defined.

(** ** The groups of the refiner *)

Lemma upsert_keys (k : R) (f : list nat -> list nat) (m : list (R * list nat))
    (Q : R -> Prop) :
  Q k -> Forall (fun b => Q b.1) m ->
  Forall (fun b => Q b.1) (upsert greater k f [] m).
Proof.
  intros Hk. induction m as [|[k' v] m IH]; intros Hm; simpl.
  - by constructor.
  - apply Forall_cons in Hm as [Hk' Hm].
    destruct (greater k k'); [by repeat constructor|].
    destruct (greater k' k); constructor; auto.
Qed.

Lemma upsert_SizeSorted HitVector (y : nat) h m :
  HitVector !! y = Some h -> SizeSorted HitVector m ->
  SizeSorted HitVector
    (upsert greater (OpHit.PE h) (fun ids => ids ++ [y]) [] m).
Proof.
  intros Hh. unfold SizeSorted.
  induction m as [|[k' v] m IH]; intros [Hs Hkey]; simpl.
  - split; [repeat constructor|]. intros cls x hx Hcls Hx Hhx.
    apply list_elem_of_singleton in Hcls as ->. simpl in *.
    apply list_elem_of_singleton in Hx as ->. congruence.
  - apply StronglySorted_inv in Hs as [Hs Hall]. unfold greater.
    destruct (Rlt_b_spec k' (OpHit.PE h)) as [Hlt|Hnlt].
    { split.
      - constructor; [by constructor|]. constructor; [done|].
        eapply Forall_impl; [exact Hall|]. simpl. intros b Hb. lra.
      - intros cls x hx Hcls Hx Hhx.
        apply elem_of_cons in Hcls as [->|Hcls]; [|by eapply Hkey].
        simpl in *. apply list_elem_of_singleton in Hx as ->. congruence. }
    destruct (Rlt_b_spec (OpHit.PE h) k') as [Hgt|Hngt].
    { destruct IH as [IHs IHkey].
      { split; [done|]. intros cls x hx Hcls. apply Hkey. by right. }
      split.
      - constructor; [done|].
        apply (upsert_keys _ _ _ (fun key => (key < k')%R)); done.
      - intros cls x hx Hcls Hx Hhx.
        apply elem_of_cons in Hcls as [->|Hcls]; [|by eapply IHkey].
        eapply (Hkey (k', v)); [by left|done..]. }
    assert (k' = OpHit.PE h) as -> by lra.
    split; [by constructor|].
    intros cls x hx Hcls Hx Hhx.
    apply elem_of_cons in Hcls as [->|Hcls].
    + simpl in *. apply elem_of_app in Hx as [Hx|Hx].
      * by eapply (Hkey (OpHit.PE h, v)); [by left|..].
      * apply list_elem_of_singleton in Hx as ->. congruence.
    + eapply Hkey; [by right|done..].
Qed.

Lemma FillHitsBySize_SizeSorted HitsThisFlash HitVector HitsBySize :
  FillHitsBySize HitsThisFlash HitVector = Ok HitsBySize ->
  SizeSorted HitVector HitsBySize.
Proof.
  unfold FillHitsBySize. apply (foldM_invariant (SizeSorted HitVector)).
  - intros m y m' _ Hm Hstep. apply bind_Ok in Hstep as (h & Hh & Hstep).
    injection Hstep as <-. apply at_Ok in Hh. by apply upsert_SizeSorted.
  - split; [constructor|]. intros cls x h Hcls.
    by apply elem_of_nil in Hcls.
Qed.

Lemma FindSeedHit_class_None ids HitVector st :
  FindSeedHit_class ids HitVector st = Ok None ->
  forall x, x ∈ ids -> HitsUsed st !! x = Some true.
Proof.
  induction ids as [|y ids IH]; intros H x Hx; simpl in H.
  - by apply elem_of_nil in Hx.
  - apply bind_Ok in H as (used & Hu & H). apply at_Ok in Hu.
    destruct used.
    + apply elem_of_cons in Hx as [->|Hx]; [done|]. by apply IH.
    + apply bind_Ok in H as (? & _ & H). discriminate.
Qed.

(** The seed is a largest unused hit. *)
Lemma FindSeedHit_largest HitsBySize HitVector st st' :
  SizeSorted HitVector HitsBySize ->
  FindSeedHit HitsBySize HitVector st = Ok st' ->
  st' = st
  \/ exists seed h, seed ∈ hits_of HitsBySize
       /\ HitsUsed st !! seed = Some false /\ HitVector !! seed = Some h
       /\ st' = mkRefineState (<[seed := true]> (HitsUsed st)) [seed]
                  (OpHit.PE h)
                  (OpHit.PeakTime h + 0.5 * OpHit.Width h)%R
                  (OpHit.PeakTime h - 0.5 * OpHit.Width h)%R
       /\ forall y hy, y ∈ hits_of HitsBySize ->
            HitsUsed st !! y = Some false -> HitVector !! y = Some hy ->
            (OpHit.PE hy <= OpHit.PE h)%R.
Proof.
  induction HitsBySize as [|cls HBS IH]; intros [Hs Hkey] H; simpl in H.
  - injection H as <-. by left.
  - apply StronglySorted_inv in Hs as [Hs Hall].
    apply bind_Ok in H as (found & Hfound & H).
    destruct found as [st1|].
    + injection H as <-.
      apply FindSeedHit_class_spec in Hfound
        as (seed & h & Hin & Hu & Hh & ->).
      right. exists seed, h. split_and!; try done.
      * eapply elem_of_hits_of; [by left|done].
      * intros y hy Hy _ Hhy. unfold hits_of in Hy. simpl in Hy.
        rewrite (Hkey cls seed h); [|by left|done|done].
        apply elem_of_app in Hy as [Hy|Hy].
        -- rewrite (Hkey cls y hy); [lra|by left|done|done].
        -- apply list_elem_of_join in Hy as (ids & Hy & Hids).
           apply list_elem_of_fmap in Hids as (c' & -> & Hc').
           rewrite (Hkey c' y hy); [|by right|done|done].
           rewrite Forall_forall in Hall. left. by apply Hall.
    + pose proof (FindSeedHit_class_None _ _ _ Hfound) as Hused.
      apply IH in H.
      2:{ split; [done|]. intros c x h Hc. apply Hkey. by right. }
      destruct H as [->|(seed & h & Hin & Hu & Hh & -> & Hmax)]; [by left|].
      right. exists seed, h. split_and!; try done.
      * unfold hits_of in *. simpl. apply elem_of_app. by right.
      * intros y hy Hy Hyu Hhy. unfold hits_of in Hy. simpl in Hy.
        apply elem_of_app in Hy as [Hy|Hy]; [|by eapply Hmax].
        apply Hused in Hy. congruence.
Qed.

Section GrowthNoDup.
Variable HitVector : list OpHit.t.
Variable HitsBySize : list (R * list nat).
Variable WidthTolerance : R.
Variable Used1 : list bool.
Variable seed : nat.

Local Abbreviation GrownNoDup :=
  (fun st => Grown HitVector HitsBySize Used1 seed st
             /\ NoDup (HitsThisRefinedFlash st)).

Lemma AddHitToFlash_NoDup HitID h st st' :
  HitID ∈ hits_of HitsBySize -> HitVector !! HitID = Some h ->
  GrownNoDup st -> AddHitToFlash HitID h WidthTolerance st = Ok st' ->
  GrownNoDup st'.
Proof.
  intros Hin Hh [HG Hnd] H.
  split; [by eapply AddHitToFlash_Grown|].
  unfold AddHitToFlash in H.
  apply bind_Ok in H as (used & Hu & H). apply at_Ok in Hu.
  destruct used; [by injection H as <-|].
  destruct (Rlt_b _ _); injection H as <-; [done|]. simpl.
  apply NoDup_app. split; [done|]. split; [|apply NoDup_singleton].
  intros x Hx Hx'. apply list_elem_of_singleton in Hx' as ->.
  destruct HG as (_ & _ & Hall & _). apply Hall in Hx. congruence.
Qed.

Lemma GrowPass_NoDup st st' :
  GrownNoDup st -> GrowPass HitsBySize HitVector WidthTolerance st = Ok st' ->
  GrownNoDup st'.
Proof.
  unfold GrowPass.
  apply (foldM_invariant
           (fun st => Grown HitVector HitsBySize Used1 seed st
                      /\ NoDup (HitsThisRefinedFlash st))).
  intros s cls s' Hcls Hs.
  apply (foldM_invariant
           (fun st => Grown HitVector HitsBySize Used1 seed st
                      /\ NoDup (HitsThisRefinedFlash st))); [|done].
  intros t x t' Hx Ht Hstep.
  apply bind_Ok in Hstep as (h & Hh & Hstep). apply at_Ok in Hh.
  eapply AddHitToFlash_NoDup; [| | |exact Hstep]; [|done|done].
  by eapply elem_of_hits_of.
Qed.

Lemma GrowLoop_NoDup fuel N st st' :
  GrownNoDup st ->
  GrowLoop fuel HitsBySize HitVector WidthTolerance N st = Ok st' ->
  GrownNoDup st'.
Proof.
  revert N st. induction fuel as [|fuel IH]; intros N st HG H; simpl in H;
    destruct (N <? _)%nat; try discriminate; try (by injection H as <-).
  apply bind_Ok in H as (st1 & H1 & H).
  eapply IH; [|exact H]. by eapply GrowPass_NoDup.
Qed.

End GrowthNoDup.

(** Every group that the outer loop stores lists no hit twice and starts
    with a hit of the largest PE in it. *)
Lemma RefineLoop_groups HitVector HitsBySize WidthTolerance FlashThreshold
    fuel growfuel Refined Used Result :
  SizeSorted HitVector HitsBySize ->
  RefineLoop fuel growfuel HitsBySize HitVector WidthTolerance
             FlashThreshold Refined Used = Ok Result ->
  exists new, Result = Refined ++ new
    /\ Forall (fun s => NoDup s /\ LedByLargest HitVector s) new.
Proof.
  intros Hsorted. revert Refined Used. induction fuel as [|fuel IH];
    intros Refined Used H; simpl in H; [discriminate|].
  apply bind_Ok in H as (st1 & Hseed & H).
  apply (FindSeedHit_largest _ _ _ _ Hsorted) in Hseed
    as [->|(seed & h & Hin & Hu & Hh & -> & Hmax)]; simpl in H.
  { injection H as <-. exists []. by rewrite app_nil_r. }
  apply bind_Ok in H as (st & Hgrow & H).
  apply bind_Ok in H as ([Refined' Used'] & Hcheck & H).
  pose proof (Grown_seed HitVector HitsBySize Used seed h Hu Hh) as HG1.
  eapply GrowLoop_NoDup in Hgrow as [HG Hnd];
    [|split; [exact HG1|apply NoDup_singleton]].
  destruct (CheckAndStoreFlash_spec _ _ _ _ _ _ _ _ _ HG Hcheck)
    as [_ Hcases].
  apply IH in H as (new & -> & Hnew).
  destruct Hcases as [->|(-> & _ & _)]; [by exists new|].
  exists (HitsThisRefinedFlash st :: new).
  split; [by rewrite <- app_assoc|]. constructor; [|done].
  split; [done|].
  destruct HG as (_ & (rest & Hrest & Hr) & _).
  exists seed, rest, h. split_and!; try done.
  intros x hx Hx Hhx. destruct (Hr x Hx) as [Hfalse Hxin].
  apply (Hmax x hx); [done| |done].
  destruct (decide (x = seed)) as [->|Hne].
  - rewrite list_lookup_insert_eq in Hfalse; [done|].
    by eapply lookup_lt_Some.
  - by rewrite list_lookup_insert_ne in Hfalse.
Qed.

Lemma RefineHitsInFlash_groups fuel HitsThisFlash HitVector Refined0 WT thr
    Refined :
  RefineHitsInFlash fuel HitsThisFlash HitVector Refined0 WT thr
  = Ok Refined ->
  exists new, Refined = Refined0 ++ new
    /\ Forall (fun s => NoDup s /\ LedByLargest HitVector s) new
    /\ forall s x, s ∈ new -> x ∈ s -> x ∈ HitsThisFlash.
Proof.
  intros H. pose proof H as H'.
  apply RefineHitsInFlash_spec in H' as (new' & Hnew' & _ & _ & Hsub).
  unfold RefineHitsInFlash in H.
  apply bind_Ok in H as (HitsBySize & Hfill & H).
  apply RefineLoop_groups in H as (new & -> & Hnew);
    [|by eapply FillHitsBySize_SizeSorted].
  apply app_inv_head in Hnew' as <-. by exists new.
Qed.

Lemma RefineHitsInFlash_example :
  RefineHitsInFlash 3 [1; 0]%nat [hitS5; hitS3] [] 1 6 = Ok [[0; 1]]%nat.
Proof. run. reflexivity. Qed.

(** X9: every flash that [RefineHitsInFlash] appends is a non-empty list
    of hits of the coarse flash it was given, with no hit listed twice. *)
Theorem refined_flash_is_part_of_coarse_flash fuel HitsThisFlash HitVector
    Refined0 WT thr Refined :
  RefineHitsInFlash fuel HitsThisFlash HitVector Refined0 WT thr
  = Ok Refined ->
  exists new, Refined = Refined0 ++ new
    /\ forall s, s ∈ new ->
         s <> [] /\ NoDup s /\ forall x, x ∈ s -> x ∈ HitsThisFlash.
Proof.
  intros H. apply RefineHitsInFlash_groups in H as (new & -> & Hnew & Hsub).
  exists new. split; [done|]. intros s Hs.
  rewrite Forall_forall in Hnew.
  destruct (Hnew s Hs) as [Hnd (seed & rest & _ & -> & _)].
  split; [done|]. split; [done|]. intros x. by apply Hsub.
Qed.

Lemma refined_flash_is_part_of_coarse_flash_witness :
  exists new, [[0; 1]]%nat = [] ++ new
    /\ forall s, s ∈ new ->
         s <> [] /\ NoDup s /\ forall x, x ∈ s -> x ∈ [1; 0]%nat.
Proof.
  exact (refined_flash_is_part_of_coarse_flash _ _ _ _ _ _ _
           RefineHitsInFlash_example).
Defined.

(** X10: every flash that [RefineHitsInFlash] appends starts with its seed,
    and no hit of the flash has a larger PE than the seed. *)
Theorem refined_flash_starts_with_largest_hit fuel HitsThisFlash HitVector
    Refined0 WT thr Refined :
  RefineHitsInFlash fuel HitsThisFlash HitVector Refined0 WT thr
  = Ok Refined ->
  exists new, Refined = Refined0 ++ new
    /\ Forall (LedByLargest HitVector) new.
Proof.
  intros H. apply RefineHitsInFlash_groups in H as (new & -> & Hnew & _).
  exists new. split; [done|]. eapply Forall_impl; [exact Hnew|].
  by intros s [_ ?].
Qed.

Lemma refined_flash_starts_with_largest_hit_witness :
  exists new, [[0; 1]]%nat = [] ++ new
    /\ Forall (LedByLargest [hitS5; hitS3]) new.
Proof.
  exact (refined_flash_starts_with_largest_hit _ _ _ _ _ _ _
           RefineHitsInFlash_example).
Defined.

(** ** Building a flash *)

Lemma foldM_total {A S : Type} (Inv : S -> Prop) (body : S -> A -> result S)
    (l : list A) :
  (forall s a, a ∈ l -> Inv s -> exists s', body s a = Ok s' /\ Inv s') ->
  forall s, Inv s -> exists s', foldM body l s = Ok s' /\ Inv s'.
Proof.
  induction l as [|a l IH]; intros Hbody s Hs; simpl; [by exists s|].
  destruct (Hbody s a) as (s1 & -> & Hs1); [apply list_elem_of_here|done|].
  simpl. apply IH; [|done].
  intros t b Hb. apply Hbody. by apply list_elem_of_further.
Qed.

(** Every turn of a loop that ends without an exception ran its body
    without one, from a state that satisfies the invariant. *)
Lemma foldM_Ok_steps {A S : Type} (Inv : S -> Prop)
    (body : S -> A -> result S) (l : list A) :
  (forall s a s', Inv s -> body s a = Ok s' -> Inv s') ->
  forall s s', Inv s -> foldM body l s = Ok s' ->
    forall a, a ∈ l -> exists t t', Inv t /\ body t a = Ok t'.
Proof.
  intros Hbody. induction l as [|b l IH]; intros s s' Hs Hrun a Ha.
  - by apply elem_of_nil in Ha.
  - simpl in Hrun. apply bind_Ok in Hrun as (s1 & H1 & Hrun).
    apply elem_of_cons in Ha as [->|Ha]; [by exists s, s1|].
    eapply (IH s1); eauto.
Qed.

Lemma only_Ok {A : Type} (a : A) : throws_only_out_of_range (Ok a).
Proof. intros e H. discriminate. Qed.

Lemma only_at {A : Type} (v : list A) i : throws_only_out_of_range (at_ v i).
Proof. intros e. unfold at_. destruct (v !! i); congruence. Qed.

Lemma only_at_Z {A : Type} (v : list A) i :
  throws_only_out_of_range (at_Z v i).
Proof.
  intros e. unfold at_Z. destruct (i <? 0)%Z; [congruence|apply only_at].
Qed.

Lemma only_bind {A B : Type} (m : result A) (k : A -> result B) :
  throws_only_out_of_range m -> (forall a, throws_only_out_of_range (k a)) ->
  throws_only_out_of_range (bind m k).
Proof.
  intros Hm Hk e. destruct m as [a|e']; simpl; [apply Hk|].
  intros [= <-]. by apply Hm.
Qed.

Lemma only_foldM {A S : Type} (body : S -> A -> result S) (l : list A) :
  (forall s a, throws_only_out_of_range (body s a)) ->
  forall s, throws_only_out_of_range (foldM body l s).
Proof.
  intros Hbody. induction l as [|a l IH]; intros s; simpl; [apply only_Ok|].
  apply only_bind; [apply Hbody|apply IH].
Qed.

Ltac only_out_of_range :=
  repeat first
    [ apply only_Ok | apply only_at | apply only_at_Z
    | apply only_bind; [|intros ?]
    | apply only_foldM; intros ? ?
    | match goal with
      | |- context [let '(_, _) := ?p in _] => is_var p; destruct p
      end ].

Lemma GetHitGeometryInfo_only h geom sumw sumw2 sumy sumy2 sumz sumz2 :
  throws_only_out_of_range
    (GetHitGeometryInfo h geom sumw sumw2 sumy sumy2 sumz sumz2).
Proof. unfold GetHitGeometryInfo. only_out_of_range. Qed.

Lemma FlashSums_only hits HitVector geom :
  throws_only_out_of_range (FlashSums hits HitVector geom).
Proof.
  unfold FlashSums. apply only_foldM. intros sums HitID.
  unfold FlashSums_step, AddHitContribution. only_out_of_range.
Qed.

Lemma ConstructFlash_only hits HitVector FlashVector geom TrigFrame Frame
    TrigCoinc :
  throws_only_out_of_range
    (ConstructFlash hits HitVector FlashVector geom TrigFrame Frame
                    TrigCoinc).
Proof.
  unfold ConstructFlash. apply only_bind; [apply FlashSums_only|].
  intros sums. only_out_of_range.
Qed.

Lemma GetHitGeometryInfo_Ok h geom sumw sumw2 sumy sumy2 sumz sumz2 r :
  GetHitGeometryInfo h geom sumw sumw2 sumy sumy2 sumz sumz2 = Ok r ->
  length r.1.1.1.1.1 = length sumw /\ length r.1.1.1.1.2 = length sumw2
  /\ r.1.1.1.2 = (sumy + (OpChannelCenter geom (OpHit.OpChannel h)).1.2
                         * OpHit.PE h)%R
  /\ r.1.1.2 = (sumy2 + (OpChannelCenter geom (OpHit.OpChannel h)).1.2
                        * (OpChannelCenter geom (OpHit.OpChannel h)).1.2
                        * OpHit.PE h)%R
  /\ r.1.2 = (sumz + (OpChannelCenter geom (OpHit.OpChannel h)).2
                     * OpHit.PE h)%R
  /\ r.2 = (sumz2 + (OpChannelCenter geom (OpHit.OpChannel h)).2
                    * (OpChannelCenter geom (OpHit.OpChannel h)).2
                    * OpHit.PE h)%R.
Proof.
  unfold GetHitGeometryInfo. intros H.
  apply bind_Ok in H as ([w w2] & Hw & H). injection H as <-. simpl.
  split_and!; try done.
  - revert Hw.
    apply (foldM_invariant
             (fun s : list R * list R => length s.1 = length sumw)); [|done].
    intros [a b] p [a' b'] _ Hlen Hstep. simpl in *.
    apply bind_Ok in Hstep as (? & _ & Hstep).
    apply bind_Ok in Hstep as (? & _ & Hstep). injection Hstep as <- <-.
    by rewrite length_insert.
  - revert Hw.
    apply (foldM_invariant
             (fun s : list R * list R => length s.2 = length sumw2)); [|done].
    intros [a b] p [a' b'] _ Hlen Hstep. simpl in *.
    apply bind_Ok in Hstep as (? & _ & Hstep).
    apply bind_Ok in Hstep as (? & _ & Hstep). injection Hstep as <- <-.
    by rewrite length_insert.
Qed.

Lemma GetHitGeometryInfo_total h geom sumw sumw2 sumy sumy2 sumz sumz2 :
  length sumw = Nplanes geom -> length sumw2 = Nplanes geom ->
  exists r, GetHitGeometryInfo h geom sumw sumw2 sumy sumy2 sumz sumz2 = Ok r.
Proof.
  intros Hw Hw2. unfold GetHitGeometryInfo.
  match goal with
  | |- context [foldM ?body ?l ?s0] =>
      destruct (foldM_total
                  (fun s : list R * list R =>
                     length s.1 = Nplanes geom /\ length s.2 = Nplanes geom)
                  body l) with (s := s0) as ([w w2] & -> & _)
  end; [|split; [exact Hw|exact Hw2]|simpl; by eexists].
  intros [a b] p Hp [Ha Hb]. simpl in *.
  apply elem_of_seq in Hp.
  destruct (lookup_lt_is_Some_2 a p) as [x Hx]; [lia|].
  destruct (lookup_lt_is_Some_2 b p) as [y Hy]; [lia|].
  apply at_Ok in Hx, Hy. rewrite Hx. simpl. rewrite Hy. simpl.
  eexists. split; [done|]. simpl. by rewrite !length_insert.
Qed.

(** One turn of the loop over the hits, when it goes through. *)
Lemma FlashSums_step_Ok HitVector geom MaxTime MinTime AveTime FastToTotal
    AveAbsTime TotalPE PEs geo HitID sums' :
  FlashSums_step HitVector geom
    ((MaxTime, MinTime, AveTime, FastToTotal, AveAbsTime, TotalPE, PEs), geo)
    HitID = Ok sums' ->
  exists h pe geo',
    HitVector !! HitID = Some h
    /\ (0 <= OpHit.OpChannel h)%Z
    /\ PEs !! Z.to_nat (OpHit.OpChannel h) = Some pe
    /\ GetHitGeometryInfo h geom geo.1.1.1.1.1 geo.1.1.1.1.2 geo.1.1.1.2
                          geo.1.1.2 geo.1.2 geo.2 = Ok geo'
    /\ sums' =
       ((if Rlt_b MaxTime (OpHit.PeakTime h) then OpHit.PeakTime h
         else MaxTime,
         if Rlt_b (OpHit.PeakTime h) MinTime then OpHit.PeakTime h
         else MinTime,
         AveTime + OpHit.PeakTime h * OpHit.PE h,
         FastToTotal + OpHit.FastToTotal h * OpHit.PE h,
         AveAbsTime + OpHit.PeakTimeAbs h * OpHit.PE h,
         TotalPE + OpHit.PE h,
         <[Z.to_nat (OpHit.OpChannel h) := (pe + OpHit.PE h)%R]> PEs)%R,
        geo').
Proof.
  destruct geo as [[[[[sumw sumw2] sumy] sumy2] sumz] sumz2].
  unfold FlashSums_step. intros H.
  apply bind_Ok in H as (h & Hh & H).
  apply bind_Ok in H as (times & Ht & H). rewrite Hh in H. simpl in H.
  apply bind_Ok in H as (geo' & Hg & H). injection H as <-.
  unfold AddHitContribution in Ht.
  apply bind_Ok in Ht as (pe & Hpe & Ht). injection Ht as <-.
  unfold at_Z in Hpe. destruct (Z.ltb_spec (OpHit.OpChannel h) 0);
    [discriminate|].
  apply at_Ok in Hh, Hpe. by exists h, pe, geo'.
Qed.

Lemma FlashSums_step_sized HitVector geom sums HitID sums' :
  sums_sized geom sums ->
  FlashSums_step HitVector geom sums HitID = Ok sums' ->
  sums_sized geom sums'.
Proof.
  destruct sums as [[[[[[[Max Min] Ave] FTT] Abs] T] PEs] geo].
  intros (HP & Hw & Hw2) H.
  apply FlashSums_step_Ok in H as (h & pe & geo' & _ & _ & _ & Hg & ->).
  apply GetHitGeometryInfo_Ok in Hg as (Hl1 & Hl2 & _).
  unfold sums_sized, PEs_of in *. simpl in *. rewrite length_insert.
  split; [done|]. split; congruence.
Qed.

Lemma FlashSums_start_sized geom :
  sums_sized geom
    ((-1e9, 1e9, 0, 0, 0, 0, replicate (NOpChannels geom) 0)%R,
     (replicate (Nplanes geom) 0%R, replicate (Nplanes geom) 0%R,
      0, 0, 0, 0)%R).
Proof. unfold sums_sized, PEs_of. simpl. by rewrite !length_replicate. Qed.

Lemma FlashSums_sized hits HitVector geom sums :
  FlashSums hits HitVector geom = Ok sums -> sums_sized geom sums.
Proof.
  unfold FlashSums. apply foldM_invariant; [|apply FlashSums_start_sized].
  intros s a s' _. apply FlashSums_step_sized.
Qed.

(** The wire loop that ends [ConstructFlash] goes through on sums of the
    right sizes. *)
Lemma ConstructFlash_after_sums hits HitVector FlashVector geom TrigFrame
    Frame TrigCoinc sums :
  FlashSums hits HitVector geom = Ok sums ->
  exists WireCenters WireWidths,
    ConstructFlash hits HitVector FlashVector geom TrigFrame Frame TrigCoinc
    = Ok (FlashVector ++
          [OpFlash.mk (sums.1.1.1.1.1.2 / TotalPE_of sums)
             ((sums.1.1.1.1.1.1.1 - sums.1.1.1.1.1.1.2) / 2)
             (sums.1.1.1.2 / TotalPE_of sums) Frame (PEs_of sums)
             (Frame =? TrigFrame)%Z
             (if Rlt_b (Rabs (sums.1.1.1.1.1.2 / TotalPE_of sums)) TrigCoinc
              then 1%Z else 0%Z)
             (sums.1.1.1.1.2 / TotalPE_of sums)
             (sums.2.1.1.1.2 / TotalPE_of sums)
             (CalculateWidth sums.2.1.1.1.2 sums.2.1.1.2 (TotalPE_of sums))
             (sums.2.1.2 / TotalPE_of sums)
             (CalculateWidth sums.2.1.2 sums.2.2 (TotalPE_of sums))
             WireCenters WireWidths])%R.
Proof.
  intros Hsums. pose proof (FlashSums_sized _ _ _ _ Hsums) as (_ & Hw & Hw2).
  unfold ConstructFlash. rewrite Hsums.
  destruct sums as [[[[[[[Max Min] Ave] FTT] Abs] T] PEs]
                    [[[[[sumw sumw2] sumy] sumy2] sumz] sumz2]].
  simpl in *.
  match goal with
  | |- context [foldM ?body ?l ?s0] =>
      destruct (foldM_total
                  (fun s : list R * list R =>
                     length s.1 = Nplanes geom /\ length s.2 = Nplanes geom)
                  body l) with (s := s0) as ([WC WW] & -> & _)
  end; [|split; simpl; apply length_replicate|simpl; by eexists _, _].
  intros [a b] p Hp [Ha Hb]. simpl in *. apply elem_of_seq in Hp.
  destruct (lookup_lt_is_Some_2 sumw p) as [x Hx]; [lia|].
  destruct (lookup_lt_is_Some_2 sumw2 p) as [x2 Hx2]; [lia|].
  destruct (lookup_lt_is_Some_2 a p) as [y Hy]; [lia|].
  destruct (lookup_lt_is_Some_2 b p) as [z Hz]; [lia|].
  apply at_Ok in Hx, Hx2, Hy, Hz. rewrite Hx. simpl. rewrite Hy. simpl.
  rewrite Hx2. simpl. rewrite Hz. simpl.
  eexists. split; [done|]. simpl. by rewrite !length_insert.
Qed.

(** X11: [ConstructFlash] returns a flash exactly when every index of the
    hit set names a hit of the hit vector whose channel is at least 0 and
    below the channel count; otherwise it throws [std::out_of_range]. *)
Theorem ConstructFlash_succeeds_iff hits HitVector FlashVector geom TrigFrame
    Frame TrigCoinc :
  ((exists FlashVector',
      ConstructFlash hits HitVector FlashVector geom TrigFrame Frame TrigCoinc
      = Ok FlashVector')
   <-> forall HitID, HitID ∈ hits ->
         exists h, HitVector !! HitID = Some h
           /\ (0 <= OpHit.OpChannel h < Z.of_nat (NOpChannels geom))%Z)
  /\ forall e,
       ConstructFlash hits HitVector FlashVector geom TrigFrame Frame TrigCoinc
       = Throw e -> e = out_of_range.
Proof.
  split; [|apply ConstructFlash_only]. split.
  - intros [FV' H] HitID Hin. unfold ConstructFlash in H.
    apply bind_Ok in H as (sums & Hsums & _). unfold FlashSums in Hsums.
    eapply (foldM_Ok_steps (sums_sized geom)) in Hsums
      as (t & t' & Ht & Hstep);
      [|intros ???; apply FlashSums_step_sized|apply FlashSums_start_sized
       |exact Hin].
    destruct t as [[[[[[[Max Min] Ave] FTT] Abs] T] PEs] geo].
    apply FlashSums_step_Ok in Hstep as (h & pe & _ & Hh & H0 & Hpe & _).
    exists h. split; [done|]. apply lookup_lt_Some in Hpe.
    destruct Ht as [Hlen _]. unfold PEs_of in Hlen. simpl in Hlen. lia.
  - intros Hall.
    destruct (foldM_total (sums_sized geom) (FlashSums_step HitVector geom)
                hits) with
      (s := ((-1e9, 1e9, 0, 0, 0, 0, replicate (NOpChannels geom) 0)%R,
             (replicate (Nplanes geom) 0%R, replicate (Nplanes geom) 0%R,
              0, 0, 0, 0)%R)) as (sums & Hsums & _);
      [|apply FlashSums_start_sized|].
    + intros s HitID Hin Hs.
      destruct (Hall _ Hin) as (h & Hh & Hc0 & HcN).
      destruct s as [[[[[[[Max Min] Ave] FTT] Abs] T] PEs]
                     [[[[[sumw sumw2] sumy] sumy2] sumz] sumz2]].
      pose proof Hs as (HP & Hw & Hw2). unfold PEs_of in HP. simpl in *.
      destruct (lookup_lt_is_Some_2 PEs (Z.to_nat (OpHit.OpChannel h)))
        as [pe Hpe]; [lia|].
      destruct (GetHitGeometryInfo_total h geom sumw sumw2 sumy sumy2 sumz
                  sumz2 Hw Hw2) as [geo' Hg].
      assert (Hstep : exists s',
                FlashSums_step HitVector geom
                  (Max, Min, Ave, FTT, Abs, T, PEs,
                   (sumw, sumw2, sumy, sumy2, sumz, sumz2)) HitID = Ok s').
      { unfold FlashSums_step. apply at_Ok in Hh. rewrite Hh. simpl.
        unfold AddHitContribution, at_Z.
        destruct (Z.ltb_spec (OpHit.OpChannel h) 0); [lia|].
        apply at_Ok in Hpe. rewrite Hpe. simpl. rewrite Hg. simpl.
        by eexists. }
      destruct Hstep as [s' Hs']. exists s'. split; [done|].
      by eapply FlashSums_step_sized.
    + destruct (ConstructFlash_after_sums hits HitVector FlashVector geom
                  TrigFrame Frame TrigCoinc sums Hsums) as (WC & WW & ->).
      by eexists.
Qed.

Lemma ConstructFlash_example :
  exists FlashVector',
    ConstructFlash [0; 1]%nat [hitS5; hitS3] [] geomY 0 0 1
    = Ok FlashVector'.
Proof. eexists. run. reflexivity. Qed.

Lemma ConstructFlash_example_hits HitID h :
  HitID ∈ [0; 1]%nat -> [hitS5; hitS3] !! HitID = Some h ->
  (0 <= OpHit.OpChannel h < 2)%Z /\ (0 <= OpHit.PE h)%R
  /\ (-1e9 <= OpHit.PeakTime h <= 1e9)%R.
Proof.
  intros Hin Hh. apply elem_of_cons in Hin as [->|Hin].
  - injection Hh as <-. simpl. split; [lia|lra].
  - apply list_elem_of_singleton in Hin as ->. injection Hh as <-. simpl.
    split; [lia|lra].
Qed.

Lemma ConstructFlash_succeeds_iff_witness :
  (exists FlashVector',
     ConstructFlash [0; 1]%nat [hitS5; hitS3] [] geomY 0 0 1
     = Ok FlashVector')
  /\ ConstructFlash [2]%nat [hitS5; hitS3] [] geomY 0 0 1
     = Throw out_of_range.
Proof.
  split.
  - apply (ConstructFlash_succeeds_iff [0; 1]%nat [hitS5; hitS3] [] geomY
             0 0 1).
    intros HitID Hin.
    destruct (lookup_lt_is_Some_2 [hitS5; hitS3] HitID) as [h Hh].
    { apply elem_of_cons in Hin as [->|Hin]; [simpl; lia|].
      apply list_elem_of_singleton in Hin as ->. simpl. lia. }
    exists h. split; [done|].
    by destruct (ConstructFlash_example_hits HitID h Hin Hh) as [? _].
  - destruct (ConstructFlash_succeeds_iff [2]%nat [hitS5; hitS3] [] geomY
                0 0 1) as [[Hok _] Honly].
    destruct (ConstructFlash [2]%nat [hitS5; hitS3] [] geomY 0 0 1)
      as [FV'|e] eqn:E.
    + destruct (Hok (ex_intro _ FV' eq_refl) 2%nat) as (h & Hh & _);
        [by left|discriminate].
    + by rewrite (Honly e).
Defined.

(** What a returned flash vector says: the sums of the hit loop, and the
    new flash made of them. *)
Lemma ConstructFlash_Ok hits HitVector FlashVector geom TrigFrame Frame
    TrigCoinc FlashVector' :
  ConstructFlash hits HitVector FlashVector geom TrigFrame Frame TrigCoinc
  = Ok FlashVector' ->
  exists sums f,
    FlashSums hits HitVector geom = Ok sums
    /\ FlashVector' = FlashVector ++ [f]
    /\ OpFlash.Time f = (sums.1.1.1.1.1.2 / TotalPE_of sums)%R
    /\ OpFlash.TimeWidth f
       = ((sums.1.1.1.1.1.1.1 - sums.1.1.1.1.1.1.2) / 2)%R
    /\ OpFlash.PEs f = PEs_of sums
    /\ OpFlash.YCenter f = (sums.2.1.1.1.2 / TotalPE_of sums)%R
    /\ OpFlash.YWidth f
       = CalculateWidth sums.2.1.1.1.2 sums.2.1.1.2 (TotalPE_of sums)
    /\ OpFlash.ZCenter f = (sums.2.1.2 / TotalPE_of sums)%R
    /\ OpFlash.ZWidth f
       = CalculateWidth sums.2.1.2 sums.2.2 (TotalPE_of sums).
Proof.
  intros H. pose proof H as H'. unfold ConstructFlash in H'.
  apply bind_Ok in H' as (sums & Hsums & _).
  destruct (ConstructFlash_after_sums hits HitVector FlashVector geom
              TrigFrame Frame TrigCoinc sums Hsums) as (WC & WW & Hrun).
  rewrite Hrun in H. injection H as <-. exists sums. eexists.
  split; [done|]. split; [done|]. by simpl.
Qed.

(** The per-channel vector through the loop over the hits. *)
Lemma FlashSums_channels HitVector geom hits :
  forall sums sums' (base : nat -> R),
    foldM (FlashSums_step HitVector geom) hits sums = Ok sums' ->
    (forall c, (c < length (PEs_of sums))%nat ->
               PEs_of sums !! c = Some (base c)) ->
    length (PEs_of sums') = length (PEs_of sums)
    /\ forall c, (c < length (PEs_of sums))%nat ->
         PEs_of sums' !! c
         = Some (foldl (fun sum HitID =>
                          match HitVector !! HitID with
                          | Some h =>
                              if (OpHit.OpChannel h =? Z.of_nat c)%Z
                              then (sum + OpHit.PE h)%R else sum
                          | None => sum
                          end) (base c) hits).
Proof.
  induction hits as [|x hits IH]; intros sums sums' base Hrun Hbase.
  - injection Hrun as <-. by split.
  - simpl in Hrun. apply bind_Ok in Hrun as (s1 & Hstep & Hrun).
    destruct sums as [[[[[[[Max Min] Ave] FTT] Abs] T] PEs] geo].
    apply FlashSums_step_Ok in Hstep
      as (h & pe & geo' & Hh & H0 & Hpe & _ & ->).
    unfold PEs_of in *. simpl in *.
    eapply (IH _ _ (fun c => if (OpHit.OpChannel h =? Z.of_nat c)%Z
                             then (base c + OpHit.PE h)%R else base c))
      in Hrun.
    + unfold PEs_of in Hrun. simpl in Hrun. rewrite length_insert in Hrun.
      destruct Hrun as [Hlen Hrun]. split; [done|].
      intros c Hc. rewrite Hrun by done. by rewrite Hh.
    + unfold PEs_of. simpl. rewrite length_insert. intros c Hc.
      destruct (Z.eqb_spec (OpHit.OpChannel h) (Z.of_nat c)) as [Heq|Hne].
      * rewrite Heq, Nat2Z.id in *. rewrite list_lookup_insert_eq by done.
        rewrite (Hbase c Hc) in Hpe. by injection Hpe as <-.
      * rewrite list_lookup_insert_ne by lia. by apply Hbase.
Qed.

(** X12: the PE vector of the flash that [ConstructFlash] appends has one
    entry per channel, and the entry of a channel is the summed PE of the
    hits of the set on that channel. *)
Theorem ConstructFlash_channel_PE hits HitVector FlashVector geom TrigFrame
    Frame TrigCoinc FlashVector' :
  ConstructFlash hits HitVector FlashVector geom TrigFrame Frame TrigCoinc
  = Ok FlashVector' ->
  exists f, FlashVector' = FlashVector ++ [f]
    /\ length (OpFlash.PEs f) = NOpChannels geom
    /\ forall Channel, (Channel < NOpChannels geom)%nat ->
         OpFlash.PEs f !! Channel
         = Some (PEOnChannel HitVector Channel hits).
Proof.
  intros H. apply ConstructFlash_Ok in H
    as (sums & f & Hsums & -> & _ & _ & HPEs & _).
  exists f. split; [done|]. rewrite HPEs.
  apply (FlashSums_channels _ _ _ _ _ (fun _ => 0%R)) in Hsums.
  - unfold PEs_of in *. simpl in Hsums. rewrite length_replicate in Hsums.
    done.
  - unfold PEs_of. simpl. rewrite length_replicate. intros c Hc.
    by apply lookup_replicate.
Qed.

Lemma ConstructFlash_channel_PE_witness :
  exists f,
    length (OpFlash.PEs f) = 2%nat
    /\ OpFlash.PEs f !! 1%nat
       = Some (PEOnChannel [hitS5; hitS3] 1 [0; 1]%nat).
Proof.
  destruct ConstructFlash_example as [FV' Hrun].
  destruct (ConstructFlash_channel_PE _ _ _ _ _ _ _ _ Hrun)
    as (f & _ & Hlen & HPE).
  exists f. split; [exact Hlen|]. apply HPE. simpl. lia.
Defined.

Lemma FlashSums_TimeRange HitVector geom hits :
  (forall HitID h, HitID ∈ hits -> HitVector !! HitID = Some h ->
     (-1e9 <= OpHit.PeakTime h <= 1e9)%R) ->
  forall sums, FlashSums hits HitVector geom = Ok sums ->
               TimeRange HitVector hits sums.
Proof.
  unfold FlashSums. induction hits as [|x hits IH] using rev_ind;
    intros Hhits sums Hrun.
  - injection Hrun as <-. by left.
  - rewrite foldM_app in Hrun. apply bind_Ok in Hrun as (s1 & H1 & Hrun).
    simpl in Hrun. apply bind_Ok in Hrun as (s2 & Hstep & Hrun).
    injection Hrun as <-.
    apply IH in H1.
    2:{ intros y hy Hy. apply Hhits. apply elem_of_app. by left. }
    destruct s1 as [[[[[[[Max Min] Ave] FTT] Abs] T] PEs] geo].
    apply FlashSums_step_Ok in Hstep as (h & pe & geo' & Hh & _ & _ & _ & ->).
    destruct (Hhits x h) as (Hlo & Hhi);
      [apply elem_of_app; right; apply list_elem_of_here|done|].
    unfold TimeRange in *. simpl in *. right.
    assert (Hx : x ∈ hits ++ [x])
      by (apply elem_of_app; right; apply list_elem_of_here).
    assert (Hold : forall y, y ∈ hits -> y ∈ hits ++ [x])
      by (intros y Hy; apply elem_of_app; by left).
    destruct H1 as [(-> & -> & ->)|(f & l & Hf & Hl & Hmin & Hmax & Hall)].
    + assert (HM : (if Rlt_b (-1e9) (OpHit.PeakTime h)
                    then OpHit.PeakTime h else (-1e9)%R)
                   = OpHit.PeakTime h).
      { destruct (Rlt_b_spec (-1e9) (OpHit.PeakTime h)); lra. }
      assert (Hm : (if Rlt_b (OpHit.PeakTime h) 1e9
                    then OpHit.PeakTime h else 1e9%R)
                   = OpHit.PeakTime h).
      { destruct (Rlt_b_spec (OpHit.PeakTime h) 1e9); lra. }
      rewrite HM, Hm. exists x, x.
      rewrite Hh. simpl. split_and!; try done.
      intros y hy Hy Hhy. apply list_elem_of_singleton in Hy as ->.
      assert (hy = h) as -> by congruence. lra.
    + exists (if Rlt_b (OpHit.PeakTime h) Min then x else f),
             (if Rlt_b Max (OpHit.PeakTime h) then x else l).
      split_and!.
      * destruct (Rlt_b _ _); auto.
      * destruct (Rlt_b _ _); auto.
      * destruct (Rlt_b _ _); [by rewrite Hh|done].
      * destruct (Rlt_b _ _); [by rewrite Hh|done].
      * intros y hy Hy Hhy.
        assert (HMinMax : (Min <= Max)%R).
        { destruct (HitVector !! f) as [hf|] eqn:Ef; [|discriminate].
          injection Hmin as <-. by apply (Hall f hf). }
        assert (Hty : (Min <= OpHit.PeakTime hy <= Max)%R \/ hy = h).
        { apply elem_of_app in Hy as [Hy|Hy]; [left; by eapply Hall|].
          apply list_elem_of_singleton in Hy as ->. right. congruence. }
        destruct (Rlt_b_spec (OpHit.PeakTime h) Min),
                 (Rlt_b_spec Max (OpHit.PeakTime h));
          destruct Hty as [?| ->]; lra.
Qed.

(** X13: for a hit set that is not empty and whose peak times lie within
    a billion of zero (the sentinels of the search), the time width of
    the flash that [ConstructFlash] appends is half of the latest peak
    time minus the earliest, the two being the peak times of hits of the
    set that bound the peak times of all its hits; so the time width is
    not negative. *)
Theorem ConstructFlash_time_width hits HitVector FlashVector geom TrigFrame
    Frame TrigCoinc FlashVector' :
  hits <> [] ->
  (forall HitID h, HitID ∈ hits -> HitVector !! HitID = Some h ->
     (-1e9 <= OpHit.PeakTime h <= 1e9)%R) ->
  ConstructFlash hits HitVector FlashVector geom TrigFrame Frame TrigCoinc
  = Ok FlashVector' ->
  exists f first last tmin tmax,
    FlashVector' = FlashVector ++ [f]
    /\ first ∈ hits /\ last ∈ hits
    /\ (OpHit.PeakTime <$> HitVector !! first) = Some tmin
    /\ (OpHit.PeakTime <$> HitVector !! last) = Some tmax
    /\ (forall HitID h, HitID ∈ hits -> HitVector !! HitID = Some h ->
          (tmin <= OpHit.PeakTime h <= tmax)%R)
    /\ OpFlash.TimeWidth f = ((tmax - tmin) / 2)%R
    /\ (0 <= OpFlash.TimeWidth f)%R.
Proof.
  intros Hne Hhits H. apply ConstructFlash_Ok in H
    as (sums & f & Hsums & -> & _ & Hw & _).
  apply FlashSums_TimeRange in Hsums; [|done].
  destruct Hsums as [(? & _)|(a & b & Ha & Hb & Hmin & Hmax & Hall)];
    [done|].
  eexists f, a, b, _, _. rewrite Hw. split_and!; try done.
  destruct (HitVector !! a) as [ha|] eqn:Ea; [|discriminate].
  injection Hmin as Hmin. pose proof (Hall a ha Ha Ea). lra.
Qed.

Lemma ConstructFlash_time_width_witness :
  exists f first last tmin tmax,
    first ∈ [0; 1]%nat /\ last ∈ [0; 1]%nat
    /\ (OpHit.PeakTime <$> [hitS5; hitS3] !! first) = Some tmin
    /\ (OpHit.PeakTime <$> [hitS5; hitS3] !! last) = Some tmax
    /\ OpFlash.TimeWidth f = ((tmax - tmin) / 2)%R
    /\ (0 <= OpFlash.TimeWidth f)%R.
Proof.
  destruct ConstructFlash_example as [FV' Hrun].
  destruct (ConstructFlash_time_width [0; 1]%nat [hitS5; hitS3] [] geomY 0 0
              1 FV')
    as (f & a & b & tmin & tmax & _ & Ha & Hb & Hmin & Hmax & _ & Hw & H0);
    [discriminate| |exact Hrun|].
  - intros HitID h Hin Hh.
    by destruct (ConstructFlash_example_hits HitID h Hin Hh) as (_ & _ & ?).
  - exists f, a, b, tmin, tmax. do 5 (split; [assumption|]). assumption.
Defined.

(** ** The widths of a flash *)

Lemma CalculateWidth_above_mean (sum sum_squared weights_sum : R) :
  (0 <= sum_squared)%R -> (0 < weights_sum)%R ->
  (Rabs (sum / weights_sum) <= CalculateWidth sum sum_squared weights_sum)%R.
Proof.
  intros H2 Hw. unfold CalculateWidth, Rdiv.
  rewrite Rabs_mult, (Rabs_pos_eq (/ weights_sum)).
  2:{ left. by apply Rinv_0_lt_compat. }
  apply Rmult_le_compat_r; [left; by apply Rinv_0_lt_compat|].
  rewrite <- sqrt_Rsqr_abs. apply sqrt_le_1_alt. unfold Rsqr.
  pose proof (Rmult_le_pos _ _ H2 (Rlt_le _ _ Hw)). lra.
Qed.

Lemma FlashSums_squares HitVector geom hits sums :
  (forall HitID h, HitID ∈ hits -> HitVector !! HitID = Some h ->
     (0 <= OpHit.PE h)%R) ->
  FlashSums hits HitVector geom = Ok sums ->
  (0 <= sums.2.1.1.2)%R /\ (0 <= sums.2.2)%R.
Proof.
  intros Hhits. unfold FlashSums.
  apply (foldM_invariant
           (fun sums : (R * R * R * R * R * R * list R)
                       * (list R * list R * R * R * R * R) =>
              (0 <= sums.2.1.1.2)%R /\ (0 <= sums.2.2)%R)); [|simpl; lra].
  intros s x s' Hx [Hy Hz] Hstep.
  destruct s as [[[[[[[Max Min] Ave] FTT] Abs] T] PEs] geo].
  apply FlashSums_step_Ok in Hstep as (h & pe & geo' & Hh & _ & _ & Hg & ->).
  apply GetHitGeometryInfo_Ok in Hg as (_ & _ & _ & Hy2 & _ & Hz2).
  simpl in *. rewrite Hy2, Hz2. pose proof (Hhits x h Hx Hh) as Hpe.
  split.
  - pose proof (Rle_0_sqr (OpChannelCenter geom (OpHit.OpChannel h)).1.2)
      as Hsq. unfold Rsqr in Hsq.
    pose proof (Rmult_le_pos _ _ Hsq Hpe). lra.
  - pose proof (Rle_0_sqr (OpChannelCenter geom (OpHit.OpChannel h)).2)
      as Hsq. unfold Rsqr in Hsq.
    pose proof (Rmult_le_pos _ _ Hsq Hpe). lra.
Qed.

(** X14: [CalculateWidth] adds the square of the sum under the root.  So
    when no hit of the set has a negative PE and the total PE is positive,
    the y width and the z width of the flash that [ConstructFlash] appends
    are at least the distance of the y centre and of the z centre from
    zero. *)
Theorem ConstructFlash_width_above_centre hits HitVector FlashVector geom
    TrigFrame Frame TrigCoinc FlashVector' :
  (forall HitID h, HitID ∈ hits -> HitVector !! HitID = Some h ->
     (0 <= OpHit.PE h)%R) ->
  ConstructFlash hits HitVector FlashVector geom TrigFrame Frame TrigCoinc
  = Ok FlashVector' ->
  exists f, FlashVector' = FlashVector ++ [f]
    /\ ((0 < OpFlash.TotalPE f)%R ->
        (Rabs (OpFlash.YCenter f) <= OpFlash.YWidth f)%R
        /\ (Rabs (OpFlash.ZCenter f) <= OpFlash.ZWidth f)%R).
Proof.
  intros Hhits H. apply ConstructFlash_Ok in H
    as (sums & f & Hsums & -> & _ & _ & HPEs & Hy & Hyw & Hz & Hzw).
  exists f. split; [done|]. intros Hpos.
  assert (HT : OpFlash.TotalPE f = TotalPE_of sums).
  { unfold OpFlash.TotalPE. rewrite HPEs. by eapply FlashSums_PEs. }
  rewrite HT in Hpos.
  apply FlashSums_squares in Hsums as [Hy2 Hz2]; [|done].
  rewrite Hy, Hyw, Hz, Hzw.
  split; by apply CalculateWidth_above_mean.
Qed.

Lemma ConstructFlash_width_above_centre_witness :
  exists f,
    (0 < OpFlash.TotalPE f)%R ->
    (Rabs (OpFlash.YCenter f) <= OpFlash.YWidth f)%R
    /\ (Rabs (OpFlash.ZCenter f) <= OpFlash.ZWidth f)%R.
Proof.
  destruct ConstructFlash_example as [FV' Hrun].
  destruct (ConstructFlash_width_above_centre [0; 1]%nat [hitS5; hitS3] []
              geomY 0 0 1 FV') as (f & _ & Hw); [|exact Hrun|by exists f].
  intros HitID h Hin Hh.
  by destruct (ConstructFlash_example_hits HitID h Hin Hh) as (_ & ? & _).
Defined.

Lemma bind_total {A B : Type} (m : result A) (k : A -> result B) (a : A)
    (P : B -> Prop) :
  m = Ok a -> (exists b, k a = Ok b /\ P b) ->
  exists b, bind m k = Ok b /\ P b.
Proof. by intros ->. Qed.

(** ** Removing the marked flashes *)

Lemma unmarked_snoc {A : Type} (Marked : list bool) (v : list A) m x :
  length Marked = length v ->
  unmarked (Marked ++ [m]) (v ++ [x])
  = unmarked Marked v ++ (if m then [] else [x]).
Proof.
  revert v. induction Marked as [|b M IH]; intros [|y v] Hlen;
    try discriminate; simpl.
  - by destruct m.
  - injection Hlen as Hlen. rewrite IH by done. by destruct b.
Qed.

Lemma unmarked_elem_of {A : Type} (Marked : list bool) (v : list A) x :
  x ∈ unmarked Marked v -> x ∈ v.
Proof.
  revert v. induction Marked as [|b M IH]; intros [|y v] Hx; simpl in Hx;
    try done.
  destruct b.
  - right. by apply IH.
  - apply elem_of_cons in Hx as [->|Hx]; [by left|right; by apply IH].
Qed.

Lemma unmarked_sublist {A : Type} (Marked : list bool) (v : list A) :
  unmarked Marked v `sublist_of` v.
Proof.
  revert v. induction Marked as [|b M IH]; intros [|y v]; simpl; try done.
  destruct b; [by apply sublist_cons|by apply sublist_skip].
Qed.

Lemma unmarked_none {A : Type} (Marked : list bool) (v : list A) :
  (forall p, Marked !! p <> Some true) -> unmarked Marked v = v.
Proof.
  revert v. induction Marked as [|b M IH]; intros [|y v] H; simpl; try done.
  destruct b; [by specialize (H 0%nat)|].
  f_equal. apply IH. intros p. apply (H (S p)).
Qed.

(** The loop of [RemoveFlashesFromVectors], from the last mark down. *)
Lemma RemoveFlashesFromVectors_loop (FlashVector : list OpFlash.t)
    (Marked : list bool) :
  forall (Rest : list bool) (fs : list OpFlash.t) (Refined : list (list nat))
         tailF tailR,
    length Marked = length fs -> length Marked = length Refined ->
    foldM (fun '(FV, RefinedHitsPerFlash) iFlash =>
             let* marked := at_ (Marked ++ Rest) iFlash in
             if marked : bool then
               let* RefinedHitsPerFlash := erase RefinedHitsPerFlash iFlash in
               let* FV := erase FV (length FlashVector + iFlash) in
               Ok (FV, RefinedHitsPerFlash)
             else Ok (FV, RefinedHitsPerFlash))
          (reverse (seq 0 (length Marked)))
          (FlashVector ++ fs ++ tailF, Refined ++ tailR)
    = Ok (FlashVector ++ unmarked Marked fs ++ tailF,
          unmarked Marked Refined ++ tailR).
Proof.
  induction Marked as [|m M IH] using rev_ind;
    intros Rest fs Refined tailF tailR HF HR.
  - by destruct fs, Refined.
  - destruct fs as [|f fs _] using rev_ind;
      [rewrite length_app in HF; simpl in HF; lia|].
    destruct Refined as [|r Refined _] using rev_ind;
      [rewrite length_app in HR; simpl in HR; lia|].
    rewrite !length_app in HF, HR. simpl in HF, HR.
    assert (HF' : length M = length fs) by lia.
    assert (HR' : length M = length Refined) by lia.
    rewrite length_app. simpl. rewrite Nat.add_1_r, seq_S, reverse_snoc.
    simpl. unfold at_ at 1.
    rewrite <- (app_assoc M [m] Rest).
    change ([m] ++ Rest) with (m :: Rest).
    rewrite (list_lookup_middle M Rest m (length M)) by done.
    simpl. rewrite !unmarked_snoc by done. destruct m; simpl.
    + assert (Er : erase ((Refined ++ [r]) ++ tailR) (length M)
                   = Ok (Refined ++ tailR)).
      { unfold erase. rewrite !length_app. simpl.
        destruct (Nat.ltb_spec (length M)
                    (length Refined + 1 + length tailR)); [|lia].
        rewrite HR', <- app_assoc. simpl. by rewrite delete_middle. }
      assert (Ef : erase (FlashVector ++ (fs ++ [f]) ++ tailF)
                         (length FlashVector + length M)
                   = Ok (FlashVector ++ fs ++ tailF)).
      { unfold erase. rewrite !length_app. simpl.
        destruct (Nat.ltb_spec (length FlashVector + length M)
                    (length FlashVector
                     + (length fs + 1 + length tailF))); [|lia].
        rewrite <- (app_assoc fs [f] tailF). simpl.
        rewrite (app_assoc FlashVector fs (f :: tailF)).
        replace (length FlashVector + length M)%nat
          with (length (FlashVector ++ fs))
          by (rewrite length_app; lia).
        by rewrite delete_middle, <- app_assoc. }
      rewrite Er. simpl. rewrite Ef. simpl.
      rewrite (IH (true :: Rest) fs Refined tailF tailR HF' HR').
      by rewrite !app_nil_r.
    + rewrite <- (app_assoc fs [f] tailF), <- (app_assoc Refined [r] tailR).
      rewrite (IH (false :: Rest) fs Refined ([f] ++ tailF) ([r] ++ tailR)
                  HF' HR').
      by rewrite <- !app_assoc.
Qed.

(** X15: [RemoveFlashesFromVectors] takes the marked positions out of the
    flashes of the frame and out of the hit sets, and keeps the rest in
    order; the flashes before [BeginFlash] stay. *)
Theorem RemoveFlashesFromVectors_unmarked Marked FlashVector fs Refined :
  length Marked = length fs -> length Marked = length Refined ->
  RemoveFlashesFromVectors Marked (FlashVector ++ fs) (length FlashVector)
                           Refined
  = Ok (FlashVector ++ unmarked Marked fs, unmarked Marked Refined).
Proof.
  intros HF HR. unfold RemoveFlashesFromVectors.
  pose proof (RemoveFlashesFromVectors_loop FlashVector Marked [] fs Refined
                [] [] HF HR) as H.
  by rewrite !app_nil_r in H.
Qed.

Lemma RemoveFlashesFromVectors_unmarked_witness :
  RemoveFlashesFromVectors [false; true; false]
    ([flash_of 0 1 9] ++ [flash_of 1 1 1; flash_of 2 1 2; flash_of 3 1 3])
    (length [flash_of 0 1 9]) [[0]; [1]; [2]]%nat
  = Ok ([flash_of 0 1 9] ++ [flash_of 1 1 1; flash_of 3 1 3],
        [[0]; [2]]%nat).
Proof.
  apply (RemoveFlashesFromVectors_unmarked [false; true; false]
           [flash_of 0 1 9]
           [flash_of 1 1 1; flash_of 2 1 2; flash_of 3 1 3]
           [[0]; [1]; [2]]%nat); reflexivity.
Defined.

(** ** The filter as a whole *)

Lemma MarkFlashesForRemoval_total FlashVector BeginFlash Marked0 :
  (BeginFlash <= length FlashVector)%nat ->
  length Marked0 = (length FlashVector - BeginFlash)%nat ->
  exists Marked, MarkFlashesForRemoval FlashVector BeginFlash Marked0
                 = Ok Marked.
Proof.
  intros HB Hlen. unfold MarkFlashesForRemoval.
  destruct (Nat.ltb_spec (length FlashVector) BeginFlash); [lia|].
  match goal with
  | |- context [foldM ?body ?l ?s0] =>
      destruct (foldM_total (fun M : list bool => length M = length Marked0)
                  body l) with (s := s0) as (M & -> & _)
  end; [|done|by eexists].
  intros M i Hi HM. apply elem_of_seq in Hi.
  destruct (lookup_lt_is_Some_2 FlashVector i) as [fi Hfi]; [lia|].
  apply at_Ok in Hfi. eapply bind_total; [exact Hfi|].
  apply (foldM_total (fun M : list bool => length M = length Marked0));
    [|done].
  intros N j Hj HN. apply elem_of_seq in Hj.
  destruct (lookup_lt_is_Some_2 N (j - BeginFlash)) as [b Hb]; [lia|].
  apply at_Ok in Hb. eapply bind_total; [exact Hb|].
  destruct b; [by eexists|].
  destruct (lookup_lt_is_Some_2 FlashVector j) as [fj Hfj]; [lia|].
  apply at_Ok in Hfj. eapply bind_total; [exact Hfj|].
  destruct (LateLight fi fj); [|by eexists].
  eapply bind_total; [exact Hb|].
  eexists. split; [done|]. by rewrite length_insert.
Qed.

(** [RemoveLateLight] on a flash vector that ends with the flashes of the
    frame, one per hit set. *)
Lemma RemoveLateLight_run FlashVector fs Refined :
  length fs = length Refined ->
  exists Marked,
    MarkFlashesForRemoval (FlashVector ++ sort_flash_by_time fs)
                          (length FlashVector)
                          (replicate (length Refined) false) = Ok Marked
    /\ length Marked = length Refined
    /\ RemoveLateLight (FlashVector ++ fs) Refined
       = Ok (FlashVector ++ unmarked Marked (sort_flash_by_time fs),
             unmarked Marked Refined).
Proof.
  intros Hlen.
  destruct (MarkFlashesForRemoval_total
              (FlashVector ++ sort_flash_by_time fs) (length FlashVector)
              (replicate (length Refined) false)) as [Marked HM].
  { rewrite length_app. lia. }
  { rewrite length_replicate, length_app, sort_flash_by_time_length. lia. }
  exists Marked. split; [done|].
  pose proof (MarkFlashesForRemoval_marks _ _ _ _ HM) as [HlenM _].
  rewrite length_replicate in HlenM. split; [done|].
  unfold RemoveLateLight. rewrite length_app, <- Hlen.
  replace (length FlashVector + length fs - length fs)%nat
    with (length FlashVector) by lia.
  rewrite take_app_length, drop_app_length, Hlen, HM. simpl.
  assert (HF : length Marked = length (sort_flash_by_time fs))
    by (by rewrite sort_flash_by_time_length, HlenM).
  unfold RemoveFlashesFromVectors.
  pose proof (RemoveFlashesFromVectors_loop FlashVector Marked []
                (sort_flash_by_time fs) Refined [] [] HF HlenM) as H.
  by rewrite !app_nil_r in H.
Qed.

(** X16: on a flash vector that ends with the flashes of the frame, one per
    hit set, [RemoveLateLight] throws nothing.  It puts the flashes of the
    frame in the order of their times and takes out, of the flashes and of
    the hit sets, the positions of the flashes that test as late light
    against a flash of the frame that stands before them in that order. *)
Theorem RemoveLateLight_removes_flashes_with_parent FlashVector fs Refined :
  length fs = length Refined ->
  exists Marked,
    length Marked = length Refined
    /\ (forall p, Marked !! p = Some true <->
          has_parent (FlashVector ++ sort_flash_by_time fs)
                     (length FlashVector)
                     (length (FlashVector ++ sort_flash_by_time fs))
                     (length FlashVector + p))
    /\ RemoveLateLight (FlashVector ++ fs) Refined
       = Ok (FlashVector ++ unmarked Marked (sort_flash_by_time fs),
             unmarked Marked Refined).
Proof.
  intros Hlen.
  destruct (RemoveLateLight_run FlashVector fs Refined Hlen)
    as (Marked & HM & HlenM & Hrun).
  exists Marked. split; [done|]. split; [|done].
  pose proof (MarkFlashesForRemoval_marks _ _ _ _ HM) as [_ Hmarks].
  intros p. rewrite Hmarks. split; [|by right].
  intros [H|H]; [|done]. apply lookup_replicate in H as [? _]. done.
Qed.

Lemma RemoveLateLight_removes_flashes_with_parent_witness :
  exists Marked,
    length Marked = 2%nat
    /\ RemoveLateLight ([] ++ [flash_of 5 1 0.5; flash_of 0 1 100])
                       [[0]; [1]]%nat
       = Ok ([] ++ unmarked Marked
                     (sort_flash_by_time
                        [flash_of 5 1 0.5; flash_of 0 1 100]),
             unmarked Marked [[0]; [1]]%nat).
Proof.
  destruct (RemoveLateLight_removes_flashes_with_parent []
              [flash_of 5 1 0.5; flash_of 0 1 100] [[0]; [1]]%nat)
    as (Marked & Hlen & _ & Hrun); [reflexivity|].
  exists Marked. split; [exact Hlen|exact Hrun].
Defined.

(** ** The order of the flashes of a frame *)

Lemma insert_by_time_sorted f l :
  StronglySorted (fun a b => (OpFlash.Time a <= OpFlash.Time b)%R) l ->
  StronglySorted (fun a b => (OpFlash.Time a <= OpFlash.Time b)%R)
                 (insert_by_time f l).
Proof.
  induction l as [|g l IH]; intros Hs; simpl.
  - repeat constructor.
  - apply StronglySorted_inv in Hs as [Hs Hall].
    destruct (Rlt_b_spec (OpFlash.Time g) (OpFlash.Time f)) as [Hlt|Hge].
    + constructor; [by apply IH|].
      apply insert_by_time_Forall; [lra|done].
    + constructor; [by constructor|]. constructor; [lra|].
      eapply Forall_impl; [exact Hall|]. simpl. intros. lra.
Qed.

Lemma sort_flash_by_time_sorted l :
  StronglySorted (fun a b => (OpFlash.Time a <= OpFlash.Time b)%R)
                 (sort_flash_by_time l).
Proof.
  induction l as [|f l IH]; simpl; [constructor|].
  by apply insert_by_time_sorted.
Qed.

Lemma insert_by_time_Permutation f l : insert_by_time f l ≡ₚ f :: l.
Proof.
  induction l as [|g l IH]; simpl; [done|].
  destruct (Rlt_b _ _); [|done]. rewrite IH. apply Permutation_swap.
Qed.

Lemma sort_flash_by_time_Permutation l : sort_flash_by_time l ≡ₚ l.
Proof.
  induction l as [|f l IH]; simpl; [done|].
  by rewrite insert_by_time_Permutation, IH.
Qed.

Lemma unmarked_sorted {A : Type} (R : relation A) (Marked : list bool)
    (v : list A) :
  StronglySorted R v -> StronglySorted R (unmarked Marked v).
Proof.
  revert v. induction Marked as [|b M IH]; intros [|x v] Hs; simpl;
    try done.
  apply StronglySorted_inv in Hs as [Hs Hall].
  destruct b; [by apply IH|]. constructor; [by apply IH|].
  rewrite Forall_forall in *. intros y Hy. apply Hall.
  by eapply unmarked_elem_of.
Qed.

(** X17: [RemoveLateLight] leaves the flashes of the frame in the order of
    their times, each of them one of the flashes it was given; and when
    the frame has a flash, the earliest one is kept, together with the
    first hit set. *)
Theorem RemoveLateLight_keeps_earliest FlashVector fs Refined :
  length fs = length Refined ->
  exists fs' Refined',
    RemoveLateLight (FlashVector ++ fs) Refined
    = Ok (FlashVector ++ fs', Refined')
    /\ StronglySorted (fun a b => (OpFlash.Time a <= OpFlash.Time b)%R) fs'
    /\ fs' ⊆+ fs
    /\ (fs <> [] ->
        exists f, head fs' = Some f
          /\ (forall g, g ∈ fs -> (OpFlash.Time f <= OpFlash.Time g)%R)
          /\ head Refined' = head Refined).
Proof.
  intros Hlen.
  destruct (RemoveLateLight_run FlashVector fs Refined Hlen)
    as (Marked & HM & HlenM & Hrun).
  eexists _, _. split; [exact Hrun|]. split_and!.
  - apply unmarked_sorted, sort_flash_by_time_sorted.
  - rewrite <- (sort_flash_by_time_Permutation fs) at 2.
    apply sublist_submseteq, unmarked_sublist.
  - intros Hne.
    pose proof (MarkFlashesForRemoval_marks _ _ _ _ HM) as [_ Hmarks].
    assert (H0 : Marked !! 0%nat <> Some true).
    { rewrite Hmarks. intros [H|(i & ? & ? & [? ?] & ? & _)]; [|lia].
      apply lookup_replicate in H as [? _]. done. }
    pose proof (sort_flash_by_time_sorted fs) as Hsorted.
    pose proof (sort_flash_by_time_Permutation fs) as Hperm.
    pose proof (sort_flash_by_time_length fs) as Hlens.
    destruct (sort_flash_by_time fs) as [|f sorted]; simpl in Hlens.
    { destruct fs; [done|discriminate]. }
    destruct Refined as [|r Refined]; [destruct fs; done|].
    destruct Marked as [|[] Marked]; [discriminate|done|]. simpl.
    exists f. split; [done|]. split; [|done].
    intros g Hg. rewrite <- Hperm in Hg.
    apply StronglySorted_inv in Hsorted as [_ Hall].
    apply elem_of_cons in Hg as [->|Hg]; [lra|].
    rewrite Forall_forall in Hall. by apply Hall.
Qed.

Lemma RemoveLateLight_keeps_earliest_witness :
  exists fs' Refined',
    RemoveLateLight ([] ++ [flash_of 5 1 0.5; flash_of 0 1 100])
                    [[0]; [1]]%nat
    = Ok ([] ++ fs', Refined')
    /\ exists f, head fs' = Some f
         /\ (forall g, g ∈ [flash_of 5 1 0.5; flash_of 0 1 100] ->
               (OpFlash.Time f <= OpFlash.Time g)%R)
         /\ head Refined' = head [[0]; [1]]%nat.
Proof.
  destruct (RemoveLateLight_keeps_earliest []
              [flash_of 5 1 0.5; flash_of 0 1 100] [[0]; [1]]%nat)
    as (fs' & Refined' & Hrun & _ & _ & Hfirst); [reflexivity|].
  exists fs', Refined'. split; [exact Hrun|]. apply Hfirst. discriminate.
Defined.

(** ** Flashes of no width *)

(** X18: a flash whose time width is zero, such as a flash of a single
    hit, removes no flash; so when every flash of the frame has a time
    width of zero, [RemoveLateLight] removes nothing: it returns the
    flashes of the frame in the order of their times, and the hit sets as
    they were. *)
Theorem RemoveLateLight_zero_widths FlashVector fs Refined :
  length fs = length Refined ->
  Forall (fun f => OpFlash.TimeWidth f = 0%R) fs ->
  RemoveLateLight (FlashVector ++ fs) Refined
  = Ok (FlashVector ++ sort_flash_by_time fs, Refined).
Proof.
  intros Hlen Hzero.
  destruct (RemoveLateLight_run FlashVector fs Refined Hlen)
    as (Marked & HM & HlenM & Hrun).
  pose proof (MarkFlashesForRemoval_marks _ _ _ _ HM) as [_ Hmarks].
  assert (Hnone : forall p, Marked !! p <> Some true).
  { intros p. rewrite Hmarks.
    intros [H|(i & fi & fj & [Hi _] & _ & Hfi & _ & HL)].
    - apply lookup_replicate in H as [? _]. done.
    - rewrite lookup_app_r in Hfi by done.
      apply list_elem_of_lookup_2 in Hfi.
      pose proof (sort_flash_by_time_Forall _ _ Hzero) as Hz.
      rewrite Forall_forall in Hz.
      rewrite LateLight_zero_width in HL; [done|by apply Hz]. }
  by rewrite Hrun, !unmarked_none.
Qed.

Lemma RemoveLateLight_zero_widths_witness :
  RemoveLateLight ([] ++ [flash_of 5 0 0.5; flash_of 0 0 100]) [[0]; [1]]%nat
  = Ok ([] ++ sort_flash_by_time [flash_of 5 0 0.5; flash_of 0 0 100],
        [[0]; [1]]%nat).
Proof.
  apply RemoveLateLight_zero_widths; [reflexivity|].
  repeat constructor.
Defined.

(** ** The hit sets of a frame, and the indices of the table *)

Lemma SumPE_Ok_lookup HitVector hits sum :
  SumPE HitVector hits = Ok sum ->
  forall x, x ∈ hits -> (x < length HitVector)%nat.
Proof.
  unfold SumPE. intros H x Hx.
  eapply (foldM_Ok_steps (fun _ => True)) in H as (t & t' & _ & Hstep);
    [|done|done|exact Hx].
  apply bind_Ok in Hstep as (h & Hh & _). apply at_Ok in Hh.
  by eapply lookup_lt_Some.
Qed.

Lemma AssignHitsToFlash_Claimed F1 F2 B1 B2 C1 C2 NHits HitVector thr
    HitsPerFlash :
  AssignHitsToFlash F1 F2 B1 B2 C1 C2 NHits HitVector [] thr
  = Ok HitsPerFlash ->
  exists Cl, Claimed HitVector thr (length HitVector - NHits) HitsPerFlash Cl.
Proof.
  unfold AssignHitsToFlash. intros H.
  apply bind_Ok in H as (m1 & _ & H). apply bind_Ok in H as (m2 & _ & H).
  apply bind_Ok in H as ([HPF Cl] & Hloop & H). injection H as <-.
  set (prev := (length HitVector - NHits)%nat) in *.
  exists Cl. revert Hloop.
  apply (foldM_invariant
           (fun st => Claimed HitVector thr prev st.1 st.2)).
  2:{ split_and!; [apply PairwiseDisjoint_nil|constructor|].
      intros s x Hs. by apply elem_of_nil in Hs. }
  intros st itFlash st' _ Hst.
  apply (foldM_invariant
           (fun st => Claimed HitVector thr prev st.1 st.2)); [|done].
  intros st1 itAcc st1' _ Hst1.
  apply (foldM_invariant
           (fun st => Claimed HitVector thr prev st.1 st.2)); [|done].
  intros [HPF2 Cl2] Bin [HPF3 Cl3] _ Hst2 Hstep. simpl in *.
  apply bind_Ok in Hstep as (hits & Hfill & Hclaim).
  eapply ClaimHits_Claimed; [exact Hst2| |exact Hclaim].
  destruct (itAcc.1 =? 1)%Z; [by eapply FillHitsThisFlash_spec|].
  destruct (itAcc.1 =? 2)%Z; [by eapply FillHitsThisFlash_spec|].
  injection Hfill as <-. intros x Hx. by apply elem_of_nil in Hx.
Qed.

(** Every refined flash of the frame is part of a coarse flash. *)
Lemma RefineAll_parts HitsPerFlash HitVector WT thr Refined :
  RefineAll HitsPerFlash HitVector WT thr = Ok Refined ->
  forall s, s ∈ Refined ->
    exists c, c ∈ HitsPerFlash /\ forall x, x ∈ s -> x ∈ c.
Proof.
  unfold RefineAll.
  assert (Hgen : forall cs Refined0,
    (forall s, s ∈ Refined0 ->
       exists c, c ∈ HitsPerFlash /\ forall x, x ∈ s -> x ∈ c) ->
    (forall c, c ∈ cs -> c ∈ HitsPerFlash) ->
    foldM (fun RefinedHitsPerFlash HitsThisFlash =>
             RefineHitsInFlash (S (length HitVector)) HitsThisFlash HitVector
                               RefinedHitsPerFlash WT thr) cs Refined0
    = Ok Refined ->
    forall s, s ∈ Refined ->
      exists c, c ∈ HitsPerFlash /\ forall x, x ∈ s -> x ∈ c).
  { induction cs as [|c cs IH]; intros Refined0 H0 Hcs H; simpl in H.
    - by injection H as <-.
    - apply bind_Ok in H as (Refined1 & Hstep & H).
      apply RefineHitsInFlash_spec in Hstep as (new & -> & _ & _ & Hsub).
      apply (IH (Refined0 ++ new)); [| |done].
      + intros s Hs. apply elem_of_app in Hs as [Hs|Hs]; [by apply H0|].
        exists c. split; [apply Hcs; by left|]. intros x. by apply Hsub.
      + intros c' Hc'. apply Hcs. by right. }
  apply Hgen; [|done]. intros s Hs. by apply elem_of_nil in Hs.
Qed.

Lemma FrameHitSets_indices Frame digits HitVector BinWidth ChannelMap geom
    HitThreshold thr WT ts SPESize HitVector' Refined :
  FrameHitSets Frame digits HitVector BinWidth ChannelMap geom HitThreshold
               thr WT ts SPESize = Ok (HitVector', Refined) ->
  forall s x, s ∈ Refined -> x ∈ s ->
    (length HitVector <= x < length HitVector')%nat.
Proof.
  intros H. pose proof (FrameHitSets_spec _ _ _ _ _ _ _ _ _ _ _ _ _ H)
    as [_ Hthr].
  unfold FrameHitSets in H.
  apply bind_Ok in H as (n & _ & H).
  apply bind_Ok in H as ([[HV acc1] acc2] & Hd & H).
  apply bind_Ok in H as (HitsPerFlash & Hassign & H).
  apply bind_Ok in H as (R0 & Hrefine & H). injection H as <- <-.
  apply ProcessDigits_spec in Hd as ((new & -> & _) & _);
    [|apply SumsMatchContributors_fresh..].
  apply AssignHitsToFlash_Claimed in Hassign as (Cl & _ & _ & Hprev).
  intros s x Hs Hx. split.
  - destruct (RefineAll_parts _ _ _ _ _ Hrefine s Hs) as (c & Hc & Hsub).
    destruct (Hprev c x Hc (Hsub x Hx)) as [Hle _].
    rewrite length_app in Hle. lia.
  - rewrite Forall_forall in Hthr. destruct (Hthr s Hs) as (sum & Hsum & _).
    by eapply SumPE_Ok_lookup.
Qed.

(** X20: every entry that [ProcessFrame] adds to the association table is a
    hit set of the frame with the number of earlier hits added to each
    index; the indices of the hit set itself name hits that the frame
    appended to the hit vector.  So on an empty hit vector every index of
    the added entries names a hit of the frame. *)
Theorem ProcessFrame_entries_from_frame_hits Frame digits HitVector
    FlashVector AssocList BinWidth ChannelMap geom HitThreshold thr WT ts
    SPESize TrigCoinc HitVector' FlashVector' AssocList' :
  ProcessFrame Frame digits HitVector FlashVector AssocList BinWidth
               ChannelMap geom HitThreshold thr WT ts SPESize TrigCoinc
  = Ok (HitVector', FlashVector', AssocList') ->
  exists sets,
    AssocList'
    = AssocList ++ map (map (fun HitIndex =>
                               (HitIndex + length HitVector)%nat)) sets
    /\ forall s x, s ∈ sets -> x ∈ s ->
         (length HitVector <= x < length HitVector')%nat.
Proof.
  intros H.
  apply (ProcessFrame_output
           (fun sets => forall s x, s ∈ sets -> x ∈ s ->
              (length HitVector <= x < length HitVector')%nat)
           (fun _ => True)) in H.
  - destruct H as (sets & fs & HP & HAL & _). by exists sets.
  - intros l k Hl s x Hs. apply Hl. by eapply list_elem_of_delete_inv.
  - intros Refined HR. split; [by eapply FrameHitSets_indices|].
    intros s FV FV1 _ Hcf.
    apply ConstructFlash_spec in Hcf as (f & _ & -> & _). by exists f.
Qed.

Lemma ProcessFrame_entries_from_frame_hits_witness :
  exists sets,
    [[1]; [0]]%nat
    = [] ++ map (map (fun HitIndex =>
                        (HitIndex + length ([] : list OpHit.t))%nat)) sets
    /\ forall s x, s ∈ sets -> x ∈ s ->
         (length ([] : list OpHit.t) <= x < length [hitA0; hitA1])%nat.
Proof.
  destruct frameA_ProcessFrame as (FV & Hrun & _).
  exact (ProcessFrame_entries_from_frame_hits _ _ _ _ _ _ _ _ _ _ _ _ _ _ _
           _ _ Hrun).
Defined.

(** ** The flashes of a frame *)

Lemma ConstructFlash_marks hits HitVector FlashVector geom ts Frame TrigCoinc
    FlashVector' :
  ConstructFlash hits HitVector FlashVector geom (BeamGateFrame ts) Frame
                 TrigCoinc = Ok FlashVector' ->
  exists f, FlashVector' = FlashVector ++ [f]
            /\ FlashOfFrame Frame geom ts TrigCoinc f.
Proof.
  intros H. pose proof H as H'. unfold ConstructFlash in H'.
  apply bind_Ok in H' as (sums & Hsums & _).
  destruct (ConstructFlash_after_sums hits HitVector FlashVector geom
              (BeamGateFrame ts) Frame TrigCoinc sums Hsums)
    as (WC & WW & Hrun).
  rewrite Hrun in H. injection H as <-. eexists. split; [done|].
  unfold FlashOfFrame. simpl. split_and!; try done.
  by apply FlashSums_sized in Hsums as [? _].
Qed.

(** X21: the flashes that [ProcessFrame] appends to the flash vector stand
    in the order of their times.  Each carries the number of the frame, is
    flagged as in the beam frame exactly when that number is the frame of
    the beam gate, is flagged as on beam time exactly when its time is
    within the coincidence window of zero, and has one PE entry per
    channel. *)
Theorem ProcessFrame_flashes_in_time_order Frame digits HitVector FlashVector
    AssocList BinWidth ChannelMap geom HitThreshold thr WT ts SPESize
    TrigCoinc HitVector' FlashVector' AssocList' :
  ProcessFrame Frame digits HitVector FlashVector AssocList BinWidth
               ChannelMap geom HitThreshold thr WT ts SPESize TrigCoinc
  = Ok (HitVector', FlashVector', AssocList') ->
  exists fs,
    FlashVector' = FlashVector ++ fs
    /\ StronglySorted (fun a b => (OpFlash.Time a <= OpFlash.Time b)%R) fs
    /\ Forall (FlashOfFrame Frame geom ts TrigCoinc) fs.
Proof.
  unfold ProcessFrame. intros H.
  apply bind_Ok in H as ([HV Refined] & Hsets & H).
  apply bind_Ok in H as (FV1 & Hflash & H).
  apply bind_Ok in H as ([FV2 R2] & Hlate & H). injection H as <- <- <-.
  apply (ConstructFlash_all (FlashOfFrame Frame geom ts TrigCoinc)) in Hflash
    as (fs0 & -> & Hlen & HQ).
  2:{ intros s FV FV' _. apply ConstructFlash_marks. }
  destruct (RemoveLateLight_run FlashVector fs0 Refined Hlen)
    as (Marked & _ & _ & Hrun).
  rewrite Hrun in Hlate. injection Hlate as <- <-.
  eexists. split; [done|]. split.
  - apply unmarked_sorted, sort_flash_by_time_sorted.
  - apply Forall_forall. intros f Hf. apply unmarked_elem_of in Hf.
    pose proof (sort_flash_by_time_Forall _ _ HQ) as HQ'.
    rewrite Forall_forall in HQ'. by apply HQ'.
Qed.

Lemma ProcessFrame_flashes_in_time_order_witness :
  exists FlashVector fs,
    FlashVector = [] ++ fs
    /\ StronglySorted (fun a b => (OpFlash.Time a <= OpFlash.Time b)%R) fs
    /\ Forall (FlashOfFrame 0 geom0 ts0 1) fs.
Proof.
  destruct frameA_ProcessFrame as (FV & Hrun & _).
  exists FV.
  exact (ProcessFrame_flashes_in_time_order _ _ _ _ _ _ _ _ _ _ _ _ _ _ _ _
           _ Hrun).
Defined.

(** ** Every loop of a run ends *)

Ltac no_fuel :=
  repeat first
    [ done
    | apply at_no_fuel
    | apply bind_no_fuel; [|intros ?]
    | apply foldM_no_fuel; intros ? ?
    | match goal with
      | |- context [let '(_, _) := ?p in _] => is_var p; destruct p
      | |- (if ?b then _ else _) <> _ => destruct b
      | |- (match ?x with Some _ => _ | None => _ end) <> _ => destruct x
      end ].

Lemma ProcessDigits_no_fuel Frame digits BinWidth ChannelMap geom
    HitThreshold thr ts SPESize st :
  ProcessDigits Frame digits BinWidth ChannelMap geom HitThreshold thr ts
                SPESize st <> Throw out_of_fuel.
Proof.
  unfold ProcessDigits, ProcessPulse, map_at, at_Z, GetAccumIndex,
    back_index, FillAccumulator. no_fuel.
Qed.

Lemma AssignHitsToFlash_no_fuel F1 F2 B1 B2 C1 C2 NHits HitVector HPF thr :
  AssignHitsToFlash F1 F2 B1 B2 C1 C2 NHits HitVector HPF thr
  <> Throw out_of_fuel.
Proof.
  unfold AssignHitsToFlash, FillFlashesBySizeMap, FillHitsThisFlash,
    ClaimHits, SumPE, at_off. no_fuel.
Qed.

Lemma RefineAll_no_fuel HitsPerFlash HitVector WT thr :
  RefineAll HitsPerFlash HitVector WT thr <> Throw out_of_fuel.
Proof.
  unfold RefineAll. apply foldM_no_fuel. intros Refined c.
  unfold RefineHitsInFlash.
  apply bind_no_fuel; [apply FillHitsBySize_no_fuel|]. intros HitsBySize.
  apply RefineLoop_terminates.
  - pose proof (unused_le_length (replicate (length HitVector) false)).
    rewrite length_replicate in *. lia.
  - rewrite length_replicate. lia.
Qed.

Lemma RemoveLateLight_no_fuel FlashVector Refined :
  RemoveLateLight FlashVector Refined <> Throw out_of_fuel.
Proof.
  unfold RemoveLateLight, MarkFlashesForRemoval, RemoveFlashesFromVectors,
    erase. no_fuel.
Qed.

Lemma ProcessFrame_no_fuel Frame digits HitVector FlashVector AssocList
    BinWidth ChannelMap geom HitThreshold thr WT ts SPESize TrigCoinc :
  ProcessFrame Frame digits HitVector FlashVector AssocList BinWidth
               ChannelMap geom HitThreshold thr WT ts SPESize TrigCoinc
  <> Throw out_of_fuel.
Proof.
  unfold ProcessFrame, FrameHitSets.
  apply bind_no_fuel.
  { apply bind_no_fuel; [unfold NBins; no_fuel|]. intros n.
    apply bind_no_fuel; [apply ProcessDigits_no_fuel|].
    intros [[HV a1] a2].
    apply bind_no_fuel; [apply AssignHitsToFlash_no_fuel|]. intros HPF.
    apply bind_no_fuel; [apply RefineAll_no_fuel|done]. }
  intros [HV Refined]. apply bind_no_fuel.
  { apply foldM_no_fuel. intros FV s Hthrow.
    by apply ConstructFlash_only in Hthrow. }
  intros FV. apply bind_no_fuel; [apply RemoveLateLight_no_fuel|].
  by intros [FV' R'].
Qed.

(** X22: no loop of a run goes on for ever.  With the turns that
    [ProcessFrame] grants the refiner, one more than the number of hits,
    [RunFlashFinder] on any input comes to an outcome of the code (a
    return, an exception, or one of the points where the C++ has no
    defined behaviour) and never stops for want of turns. *)
Theorem RunFlashFinder_ends OpticalRawDigitVector HitVector FlashVector
    AssocList BinWidth ChannelMap geom HitThreshold FlashThreshold
    WidthTolerance ts SPESize TrigCoinc :
  RunFlashFinder OpticalRawDigitVector HitVector FlashVector AssocList
                 BinWidth ChannelMap geom HitThreshold FlashThreshold
                 WidthTolerance ts SPESize TrigCoinc
  <> Throw out_of_fuel.
Proof.
  unfold RunFlashFinder. apply foldM_no_fuel.
  intros [[HV FV] AL] wfframe. apply ProcessFrame_no_fuel.
Qed.

(** ** The hits of a frame, pulse by pulse *)

Lemma ConstructHit_app HitThreshold Channel TimeSlice Frame pulse ts spe
    HitVector :
  ConstructHit HitThreshold Channel TimeSlice Frame pulse ts spe HitVector
  = HitVector
    ++ ConstructHit HitThreshold Channel TimeSlice Frame pulse ts spe [].
Proof.
  unfold ConstructHit. destruct (Rlt_b _ _); [by rewrite app_nil_r|done].
Qed.

Lemma ProcessDigits_hits Frame digits BinWidth ChannelMap geom HitThreshold
    thr ts SPESize st st' :
  ProcessDigits Frame digits BinWidth ChannelMap geom HitThreshold thr ts
                SPESize st = Ok st' ->
  st'.1.1
  = st.1.1 ++ flat_map (HitsOfDigit Frame ChannelMap geom HitThreshold ts
                                    SPESize) digits.
Proof.
  unfold ProcessDigits. revert st.
  induction digits as [|wf digits IH]; intros st H; simpl in H.
  - injection H as <-. by rewrite app_nil_r.
  - apply bind_Ok in H as (st1 & Hwf & H). apply IH in H. rewrite H.
    simpl. rewrite app_assoc. f_equal. clear H IH.
    apply bind_Ok in Hwf as (Channel & HCh & Hwf).
    unfold map_at in HCh. unfold HitsOfDigit.
    destruct (ChannelMap !! ChannelNumber wf) as [c|]; [|discriminate].
    injection HCh as ->.
    destruct ((Channel <? 0) || _)%Z;
      [injection Hwf as <-; by rewrite app_nil_r|].
    destruct (FrameTicks ts <? TimeSlice wf)%Z;
      [injection Hwf as <-; by rewrite app_nil_r|].
    revert st Hwf. induction (Pulses wf) as [|pulse pulses IHp];
      intros st Hwf; simpl in Hwf.
    + injection Hwf as <-. destruct (SPESize !! _); by rewrite app_nil_r.
    + apply bind_Ok in Hwf as (st2 & Hp & Hwf). apply IHp in Hwf.
      rewrite Hwf. clear Hwf IHp.
      destruct st as [[HV a1] a2]. unfold ProcessPulse in Hp.
      apply bind_Ok in Hp as (spe & Hspe & Hp).
      apply bind_Ok in Hp as (i1 & _ & Hp).
      apply bind_Ok in Hp as ([k1 h1] & _ & Hp).
      apply bind_Ok in Hp as (a1' & _ & Hp).
      apply bind_Ok in Hp as (i2 & _ & Hp).
      apply bind_Ok in Hp as ([k2 h2] & _ & Hp).
      apply bind_Ok in Hp as (a2' & _ & Hp). injection Hp as <-.
      unfold at_Z in Hspe. destruct (Channel <? 0)%Z; [discriminate|].
      apply at_Ok in Hspe. rewrite Hspe. simpl.
      rewrite (ConstructHit_app _ _ _ _ _ _ _ HV). by rewrite <- app_assoc.
Qed.

(** X23: the hits that [ProcessFrame] appends to the hit vector are, in the
    order of the waveforms and of their pulses, the hits of the pulses
    whose peak is not below the hit threshold, of the waveforms that are
    not passed over. *)
Theorem ProcessFrame_hits_pulse_by_pulse Frame digits HitVector FlashVector
    AssocList BinWidth ChannelMap geom HitThreshold thr WT ts SPESize
    TrigCoinc HitVector' FlashVector' AssocList' :
  ProcessFrame Frame digits HitVector FlashVector AssocList BinWidth
               ChannelMap geom HitThreshold thr WT ts SPESize TrigCoinc
  = Ok (HitVector', FlashVector', AssocList') ->
  HitVector'
  = HitVector ++ flat_map (HitsOfDigit Frame ChannelMap geom HitThreshold
                                       ts SPESize) digits.
Proof.
  unfold ProcessFrame, FrameHitSets. intros H.
  apply bind_Ok in H as ([HV Refined] & Hsets & H).
  apply bind_Ok in H as (FV1 & _ & H).
  apply bind_Ok in H as ([FV2 R2] & _ & H). injection H as <- <- <-.
  apply bind_Ok in Hsets as (n & _ & Hsets).
  apply bind_Ok in Hsets as ([[HV1 a1] a2] & Hd & Hsets).
  apply bind_Ok in Hsets as (HPF & _ & Hsets).
  apply bind_Ok in Hsets as (R0 & _ & Hsets). injection Hsets as <- <-.
  by apply ProcessDigits_hits in Hd.
Qed.

Lemma ProcessFrame_hits_pulse_by_pulse_witness :
  [hitA0; hitA1]
  = [] ++ flat_map (HitsOfDigit 0 map0 geom0 2 ts0 [1%R]) [digitA].
Proof.
  destruct frameA_ProcessFrame as (FV & Hrun & _).
  exact (ProcessFrame_hits_pulse_by_pulse _ _ _ _ _ _ _ _ _ _ _ _ _ _ _ _ _
           Hrun).
Defined.

(** ** A frame without pulses *)

Lemma ProcessDigits_no_pulse Frame digits BinWidth ChannelMap geom
    HitThreshold thr ts SPESize st :
  Forall (NoPulse ChannelMap geom ts) digits ->
  ProcessDigits Frame digits BinWidth ChannelMap geom HitThreshold thr ts
                SPESize st = Ok st.
Proof.
  unfold ProcessDigits. induction 1 as [|wf digits Hwf _ IH]; simpl; [done|].
  assert (Hstep : forall body,
            bind (map_at ChannelMap (ChannelNumber wf))
              (fun Channel =>
                 if ((Channel <? 0)
                     || (Z.of_nat (NOpChannels geom) <? Channel))%Z
                 then Ok st
                 else if (FrameTicks ts <? TimeSlice wf)%Z then Ok st
                 else foldM (body Channel) (Pulses wf) st) = Ok st).
  { intros body. unfold map_at.
    destruct Hwf as [(Channel & -> & Hout)|[[Channel ->] ->]]; simpl.
    - destruct (Z.ltb_spec Channel 0); simpl; [done|].
      destruct (Z.ltb_spec (Z.of_nat (NOpChannels geom)) Channel); simpl;
        [done|].
      destruct (Z.ltb_spec (FrameTicks ts) (TimeSlice wf)); [done|lia].
    - destruct (_ || _)%Z; [done|]. by destruct (_ <? _)%Z. }
  rewrite (Hstep (fun Channel st pulse =>
                    ProcessPulse HitThreshold thr Channel (TimeSlice wf)
                                 Frame BinWidth ts SPESize pulse st)).
  simpl. apply IH.
Qed.

(** X24: a frame that brings no pulse, because it has no waveform or
    because each of its waveforms is passed over or holds no pulse, leaves
    the hit vector, the flash vector and the association table as they
    were, for a bin width that is not zero as an [unsigned int]. *)
Theorem ProcessFrame_without_pulses Frame digits HitVector FlashVector
    AssocList BinWidth ChannelMap geom HitThreshold thr WT ts SPESize
    TrigCoinc :
  (BinWidth mod 4294967296 <> 0)%Z ->
  Forall (NoPulse ChannelMap geom ts) digits ->
  ProcessFrame Frame digits HitVector FlashVector AssocList BinWidth
               ChannelMap geom HitThreshold thr WT ts SPESize TrigCoinc
  = Ok (HitVector, FlashVector, AssocList).
Proof.
  intros HBW Hdigits. unfold ProcessFrame, FrameHitSets, NBins.
  change UINT_MAX1 with 4294967296%Z.
  destruct (Z.eqb_spec (BinWidth mod 4294967296) 0); [done|]. simpl.
  rewrite ProcessDigits_no_pulse by done. simpl.
  destruct (RemoveLateLight_run FlashVector [] []) as (Marked & _ & _ & Hrun);
    [done|].
  rewrite app_nil_r in Hrun. rewrite Hrun. simpl.
  destruct Marked; simpl; by rewrite !app_nil_r.
Qed.

Lemma ProcessFrame_without_pulses_witness :
  ProcessFrame 0 [digitEmpty; digitLate] [hitA0] [flash_of 0 1 9]
               [[0%nat]] 4000 map0 geom0 2 6 1 ts0 [1%R] 1
  = Ok ([hitA0], [flash_of 0 1 9], [[0%nat]]).
Proof.
  apply ProcessFrame_without_pulses; [done|].
  constructor; [|constructor; [|constructor]].
  - right. split; [by exists 0%Z|done].
  - left. exists 0%Z. split; [reflexivity|]. right; right. reflexivity.
Defined.
